(** * AI-SafeRoute: the risk-weighted routing engine of [src/app.py]

    A shallow embedding of the Flask application's engine: dataset loading,
    the risk model, the two [lru_cache] memo tables, graph construction on a
    [networkx.DiGraph], nearest-vertex lookup, the A* search and the assembly
    of the reported route, followed by the properties of the specification.

    Modelling conventions.
    - Python [float] and [int] numbers are real numbers: [+ - * /] are exact,
      [math.tanh], [math.dist] and [**] are the mathematical functions, and
      [round(x, 2)] rounds to the nearest multiple of 1/100, ties to even.
      Rounding error of binary64, overflow, [nan] and [inf] are outside the
      model.
    - JSON documents are values of type [json]; a Python exception is the
      [Raise] outcome of the [res] type, a loop that does not finish within
      its fuel is [Diverge].
    - Module-level globals and the two memo tables form the record [state];
      handlers are state transformers in the monad [M].
    - [time.time()] is an argument [now] of every handler that reads it.
    - A vertex is a tuple of numbers.  [math.dist] at line 61 takes only
      sequences of numbers, so a segment with other end points is in the
      store only after a load that failed on it; [tuple(seg["start"])] on
      such a segment is modelled as raising [TypeError] at line 146, where
      Python raises later in the same request (lines 150-166).
    - The two messages that print a changing part -- the number of segments
      in "Dataset loaded (...)", the set in "Invalid type {...}" -- are cut
      before it. *)

From Stdlib Require Import Reals Lra Lia ZArith List String Bool Ascii.
Import ListNotations.

Open Scope R_scope.

(* ================================================================== *)
(** * Python values, exceptions and outcomes *)

Inductive exn : Type :=
| AssertionError
| AttributeError
| KeyError
| TypeError
| ValueError
| ZeroDivisionError
| OSError
| NodeNotFound
| NetworkXNoPath.

(** Outcome of evaluating a Python expression. *)
Inductive res (A : Type) : Type :=
| Ok (a : A)
| Raise (e : exn)
| Diverge.

Arguments Ok {A} a.
Arguments Raise {A} e.
Arguments Diverge {A}.

Definition res_bind {A B : Type} (r : res A) (k : A -> res B) : res B :=
  match r with
  | Ok a => k a
  | Raise e => Raise e
  | Diverge => Diverge
  end.

Notation "'let?' x ':=' r 'in' k" := (res_bind r (fun x => k))
  (at level 10, x name, r at level 100, k at level 200).

Fixpoint res_map {A B : Type} (f : A -> res B) (l : list A) : res (list B) :=
  match l with
  | [] => Ok []
  | a :: l' =>
      let? b := f a in
      let? bs := res_map f l' in
      Ok (b :: bs)
  end.

(** Parsed JSON, as [json.load] and [request.get_json] return it.  A [JObj]
    lists the items of the Python [dict] in insertion order, keys distinct. *)
#[warnings="-register-all"]
Inductive json : Type :=
| JNull
| JBool (b : bool)
| JInt (z : Z)
| JFloat (r : R)
| JStr (s : string)
| JList (l : list json)
| JObj (o : list (string * json)).

(** ** Comparisons on numbers, as booleans *)

Definition Rltb (x y : R) : bool := if Rlt_dec x y then true else false.
Definition Rleb (x y : R) : bool := if Rle_dec x y then true else false.
Definition Reqb (x y : R) : bool := if Req_dec_T x y then true else false.

(** A Python number read as a real: [int], [float], and [bool] (a subclass
    of [int]); arithmetic on anything else raises [TypeError]. *)
Definition num_of (j : json) : res R :=
  match j with
  | JInt z => Ok (IZR z)
  | JFloat r => Ok r
  | JBool b => Ok (if b then 1 else 0)
  | _ => Raise TypeError
  end.

(** [isinstance(j, (int, float))]. *)
Definition is_number (j : json) : bool :=
  match j with
  | JInt _ | JFloat _ | JBool _ => true
  | _ => false
  end.

(** [isinstance(j, int)], with the integer it denotes. *)
Definition int_of (j : json) : option Z :=
  match j with
  | JInt z => Some z
  | JBool b => Some (if b then 1%Z else 0%Z)
  | _ => None
  end.

(** ** Hashable values: keys of Python dictionaries

    [1], [1.0] and [True] hash and compare equal, so numbers are kept as
    reals; lists and dicts are unhashable. *)
Inductive hkey : Type :=
| KNone
| KNum (r : R)
| KStr (s : string).

Definition to_key (j : json) : res hkey :=
  match j with
  | JNull => Ok KNone
  | JStr s => Ok (KStr s)
  | JInt _ | JFloat _ | JBool _ => let? r := num_of j in Ok (KNum r)
  | JList _ | JObj _ => Raise TypeError
  end.

Definition hkey_eqb (a b : hkey) : bool :=
  match a, b with
  | KNone, KNone => true
  | KNum x, KNum y => Reqb x y
  | KStr s, KStr t => String.eqb s t
  | _, _ => false
  end.

(** ** Insertion-ordered dictionaries *)

Section Dict.
Context {K V : Type}.
Variable eqb : K -> K -> bool.

Fixpoint dict_get (d : list (K * V)) (k : K) : option V :=
  match d with
  | [] => None
  | (k', v) :: d' => if eqb k' k then Some v else dict_get d' k
  end.

Definition dict_mem (d : list (K * V)) (k : K) : bool :=
  match dict_get d k with Some _ => true | None => false end.

(** [d[k] = v]: an existing key keeps its position, a new key goes last. *)
Fixpoint dict_set (d : list (K * V)) (k : K) (v : V) : list (K * V) :=
  match d with
  | [] => [(k, v)]
  | (k', v') :: d' =>
      if eqb k' k then (k', v) :: d' else (k', v') :: dict_set d' k v
  end.

(** [d[k]], raising [KeyError]. *)
Definition dict_item (d : list (K * V)) (k : K) : res V :=
  match dict_get d k with
  | Some v => Ok v
  | None => Raise KeyError
  end.
End Dict.

(** ** Dynamic operations on JSON values *)

(** [j[k]] for a string [k]. *)
Definition getitem (j : json) (k : string) : res json :=
  match j with
  | JObj o => dict_item String.eqb o k
  | _ => Raise TypeError
  end.

(** [t in s] on strings: [t] occurs in [s]. *)
Fixpoint is_substring (t s : string) : bool :=
  if String.prefix t s then true
  else match s with
       | EmptyString => false
       | String _ s' => is_substring t s'
       end.

Definition json_is_str (k : string) (j : json) : bool :=
  match j with
  | JStr s => String.eqb s k
  | _ => false
  end.

(** [k in j] for a string [k]: key of a dict, element of a list, substring
    of a string; other values are not containers. *)
Definition contains (k : string) (j : json) : res bool :=
  match j with
  | JObj o => Ok (dict_mem String.eqb o k)
  | JList l => Ok (existsb (json_is_str k) l)
  | JStr s => Ok (is_substring k s)
  | _ => Raise TypeError
  end.

Fixpoint chars (s : string) : list json :=
  match s with
  | EmptyString => []
  | String c s' => JStr (String c EmptyString) :: chars s'
  end.

(** The elements [for x in j] visits. *)
Definition iterate (j : json) : res (list json) :=
  match j with
  | JList l => Ok l
  | JObj o => Ok (map (fun kv => JStr (fst kv)) o)
  | JStr s => Ok (chars s)
  | _ => Raise TypeError
  end.

(* ================================================================== *)
(** * Numeric primitives *)

(** [round(x, 0)] as an integer: nearest integer, ties to even. *)
Definition round_half_even (x : R) : Z :=
  let n := Zfloor x in
  let f := x - IZR n in
  if Rltb f (1 / 2) then n
  else if Rltb (1 / 2) f then (n + 1)%Z
  else if Z.even n then n else (n + 1)%Z.

(** [round(x, 2)]. *)
Definition round2 (x : R) : R := IZR (round_half_even (x * 100)) / 100.

Definition is_integer (x : R) : bool := Reqb x (IZR (Zfloor x)).

(** [v ** e] on numbers.  A negative base with a fractional exponent gives
    a [complex] in Python, which the [round] that ends [calculate_risk]
    rejects with [TypeError]; the model raises it here. *)
Definition py_pow (v e : R) : res R :=
  if Reqb e 0 then Ok 1
  else if Rltb 0 v then Ok (Rpower v e)
  else if Reqb v 0 then (if Rltb 0 e then Ok 0 else Raise ZeroDivisionError)
  else if is_integer e then
    Ok (if Z.even (Zfloor e) then Rpower (- v) e else - Rpower (- v) e)
  else Raise TypeError.

(** A point: [tuple(seq)] of numbers, of any dimension. *)
Definition point : Type := list R.

Fixpoint point_eqb (p q : point) : bool :=
  match p, q with
  | [], [] => true
  | x :: p', y :: q' => Reqb x y && point_eqb p' q'
  | _, _ => false
  end.

Fixpoint sum_sq (p q : point) : res R :=
  match p, q with
  | [], [] => Ok 0
  | x :: p', y :: q' => let? s := sum_sq p' q' in Ok ((x - y) * (x - y) + s)
  | _, _ => Raise ValueError
  end.

(** [math.dist(p, q)] on two tuples of numbers: [ValueError] when the
    dimensions differ. *)
Definition math_dist (p q : point) : res R :=
  let? s := sum_sq p q in Ok (sqrt s).

(** The tuple of coordinates a JSON value stands for where the program
    uses it as a point ([tuple(seg["start"])], [math.dist(s["start"], _)]):
    a list of numbers, or an empty string or dict (the empty tuple).
    Every other value makes [math.dist] raise [TypeError]. *)
Definition coords_of (j : json) : res point :=
  match j with
  | JList l => res_map num_of l
  | JStr EmptyString => Ok []
  | JObj [] => Ok []
  | _ => Raise TypeError
  end.

(** [math.dist(a, b)] on two JSON values (line 61). *)
Definition math_dist_json (a b : json) : res R :=
  let? p := coords_of a in
  let? q := coords_of b in
  math_dist p q.

(* ================================================================== *)
(** * Configuration constants (lines 19-30) *)

Definition DEFAULT_SPEED_KMPH : R := 30.
Definition GRAPH_CACHE_TTL : R := 300.
Definition MAX_SNAP_DISTANCE : R := 2 / 100.
Definition VALID_ROUTE_TYPES : list string :=
  ["shortest"; "safest"; "balanced"]%string.

Definition INITIAL_RISK_CONFIG : list (string * json) :=
  [("crime_weight", JFloat (6 / 10));
   ("lighting_weight", JFloat (15 / 100));
   ("crowd_weight", JFloat (15 / 100));
   ("nonlinear_exponent", JFloat (13 / 10))]%string.

(* ================================================================== *)
(** * The graph: [networkx.DiGraph] *)

Definition node : Type := point.

(** The attribute dict of an edge, as [build_graph] fills it. *)
Record edge_attr : Type := mk_edge {
  eta : R;
  risk : R;
  weight : R;
  geometry : json * json;
  segment_id : hkey
}.

(** The successor table [G._adj]: every vertex has an entry, in the order
    the vertices were added; [G.nodes] lists its keys. *)
Definition DiGraph : Type := list (node * list (node * edge_attr)).

Definition nodes (G : DiGraph) : list node := map fst G.

Definition has_node (G : DiGraph) (n : node) : bool := dict_mem point_eqb G n.

Definition add_node (G : DiGraph) (n : node) : DiGraph :=
  if has_node G n then G else G ++ [(n, [])].

Definition successors (G : DiGraph) (u : node) : list (node * edge_attr) :=
  match dict_get point_eqb G u with
  | Some s => s
  | None => []
  end.

(** [G.add_edge(u, v, **attrs)]: both endpoints are added when new, then
    the attributes of [u -> v] are set (an existing edge is overwritten). *)
Definition add_edge (G : DiGraph) (u v : node) (a : edge_attr) : DiGraph :=
  let G1 := add_node (add_node G u) v in
  dict_set point_eqb G1 u (dict_set point_eqb (successors G1 u) v a).

(** [G[u][v]]. *)
Definition edge (G : DiGraph) (u v : node) : res edge_attr :=
  let? s := dict_item point_eqb G u in
  dict_item point_eqb s v.

(* ================================================================== *)
(** * Program state and the handler monad *)

(** What the program does to the outside besides returning: log records,
    printed tracebacks and calls of the search routine. *)
Inductive event : Type :=
| LogInfo (msg : string)
| LogWarning (msg : string)
| PrintExc (e : exn)
| CallAstar (source target : node).

Definition risk_key : Type := (hkey * Z)%type.
Definition graph_key : Type := (Z * R * R)%type.

Definition risk_key_eqb (a b : risk_key) : bool :=
  hkey_eqb (fst a) (fst b) && Z.eqb (snd a) (snd b).

Definition graph_key_eqb (a b : graph_key) : bool :=
  let '(h1, a1, t1) := a in
  let '(h2, a2, t2) := b in
  Z.eqb h1 h2 && Reqb a1 a2 && Reqb t1 t2.

Record state : Type := mk_state {
  RISK_CONFIG : list (string * json);
  DATASET_TIMESTAMP : R;
  SEGMENTS_BY_ID : list (hkey * json);
  SEGMENT_DISTANCES : list (hkey * R);
  risk_cache : list (risk_key * R);        (* of calculate_risk *)
  graph_cache : list (graph_key * DiGraph); (* of build_graph *)
  LAST_CACHE_CLEAR : R;
  REQUESTS : list (string * list R);
  trace : list event
}.

Definition set_RISK_CONFIG (v : list (string * json)) (s : state) : state :=
  mk_state v (DATASET_TIMESTAMP s) (SEGMENTS_BY_ID s) (SEGMENT_DISTANCES s)
    (risk_cache s) (graph_cache s) (LAST_CACHE_CLEAR s) (REQUESTS s) (trace s).
Definition set_DATASET_TIMESTAMP (v : R) (s : state) : state :=
  mk_state (RISK_CONFIG s) v (SEGMENTS_BY_ID s) (SEGMENT_DISTANCES s)
    (risk_cache s) (graph_cache s) (LAST_CACHE_CLEAR s) (REQUESTS s) (trace s).
Definition set_SEGMENTS_BY_ID (v : list (hkey * json)) (s : state) : state :=
  mk_state (RISK_CONFIG s) (DATASET_TIMESTAMP s) v (SEGMENT_DISTANCES s)
    (risk_cache s) (graph_cache s) (LAST_CACHE_CLEAR s) (REQUESTS s) (trace s).
Definition set_SEGMENT_DISTANCES (v : list (hkey * R)) (s : state) : state :=
  mk_state (RISK_CONFIG s) (DATASET_TIMESTAMP s) (SEGMENTS_BY_ID s) v
    (risk_cache s) (graph_cache s) (LAST_CACHE_CLEAR s) (REQUESTS s) (trace s).
Definition set_risk_cache (v : list (risk_key * R)) (s : state) : state :=
  mk_state (RISK_CONFIG s) (DATASET_TIMESTAMP s) (SEGMENTS_BY_ID s)
    (SEGMENT_DISTANCES s) v (graph_cache s) (LAST_CACHE_CLEAR s) (REQUESTS s)
    (trace s).
Definition set_graph_cache (v : list (graph_key * DiGraph)) (s : state) : state :=
  mk_state (RISK_CONFIG s) (DATASET_TIMESTAMP s) (SEGMENTS_BY_ID s)
    (SEGMENT_DISTANCES s) (risk_cache s) v (LAST_CACHE_CLEAR s) (REQUESTS s)
    (trace s).
Definition set_LAST_CACHE_CLEAR (v : R) (s : state) : state :=
  mk_state (RISK_CONFIG s) (DATASET_TIMESTAMP s) (SEGMENTS_BY_ID s)
    (SEGMENT_DISTANCES s) (risk_cache s) (graph_cache s) v (REQUESTS s)
    (trace s).
Definition set_REQUESTS (v : list (string * list R)) (s : state) : state :=
  mk_state (RISK_CONFIG s) (DATASET_TIMESTAMP s) (SEGMENTS_BY_ID s)
    (SEGMENT_DISTANCES s) (risk_cache s) (graph_cache s) (LAST_CACHE_CLEAR s) v
    (trace s).
Definition set_trace (v : list event) (s : state) : state :=
  mk_state (RISK_CONFIG s) (DATASET_TIMESTAMP s) (SEGMENTS_BY_ID s)
    (SEGMENT_DISTANCES s) (risk_cache s) (graph_cache s) (LAST_CACHE_CLEAR s)
    (REQUESTS s) v.

(** A computation that reads and writes the globals and may raise; what it
    wrote before raising stays written. *)
Definition M (A : Type) : Type := state -> res A * state.

Definition ret {A : Type} (a : A) : M A := fun s => (Ok a, s).

Definition bind {A B : Type} (m : M A) (k : A -> M B) : M B :=
  fun s =>
    match m s with
    | (Ok a, s') => k a s'
    | (Raise e, s') => (Raise e, s')
    | (Diverge, s') => (Diverge, s')
    end.

Notation "'do' x '<-' m ';;' k" := (bind m (fun x => k))
  (at level 10, x name, m at level 100, k at level 200).

Definition lift {A : Type} (r : res A) : M A := fun s => (r, s).
Definition read {A : Type} (f : state -> A) : M A := fun s => (Ok (f s), s).
Definition modify (f : state -> state) : M unit := fun s => (Ok tt, f s).
Definition emit (e : event) : M unit :=
  modify (fun s => set_trace (trace s ++ [e]) s).

(** [try: m except Exception as e: h e]. *)
Definition try_except {A : Type} (m : M A) (h : exn -> M A) : M A :=
  fun s =>
    match m s with
    | (Raise e, s') => h e s'
    | r => r
    end.

(* ================================================================== *)
(** * [functools.lru_cache] *)

Section Lru.
Context {K V : Type}.
Variable eqb : K -> K -> bool.
Variable maxsize : nat.

Definition lru_drop (c : list (K * V)) (k : K) : list (K * V) :=
  filter (fun kv => negb (eqb (fst kv) k)) c.

(** Entries are kept most recently used first. *)
Definition lru_hit (c : list (K * V)) (k : K) (v : V) : list (K * V) :=
  (k, v) :: lru_drop c k.

(** A new entry; when the table is full the least recently used goes. *)
Definition lru_store (c : list (K * V)) (k : K) (v : V) : list (K * V) :=
  firstn maxsize ((k, v) :: c).

Variable get_cache : state -> list (K * V).
Variable set_cache : list (K * V) -> state -> state.

(** The wrapper [lru_cache] puts around [f]: a hit returns the stored
    value without calling [f]; a miss calls [f] and stores its result;
    a call that raises stores nothing. *)
Definition lru_cached (f : K -> M V) (k : K) : M V :=
  fun s =>
    match dict_get eqb (get_cache s) k with
    | Some v => (Ok v, set_cache (lru_hit (get_cache s) k v) s)
    | None =>
        match f k s with
        | (Ok v, s') => (Ok v, set_cache (lru_store (get_cache s') k v) s')
        | r => r
        end
    end.
End Lru.

(* ================================================================== *)
(** * Dataset (lines 39-80) *)

Definition REQUIRED_FIELDS : list string :=
  ["id"; "start"; "end"; "crime"; "lighting"; "crowd"]%string.

(** [all(k in s for k in ks)]. *)
Fixpoint all_in (ks : list string) (s : json) : res bool :=
  match ks with
  | [] => Ok true
  | k :: ks' =>
      let? b := contains k s in
      if b then all_in ks' s else Ok false
  end.

Fixpoint validate_segments (l : list json) : res unit :=
  match l with
  | [] => Ok tt
  | s :: l' =>
      let? b := all_in REQUIRED_FIELDS s in
      if b then validate_segments l' else Raise AssertionError
  end.

Definition validate_dataset_schema (data : json) : res unit :=
  let? segs := getitem data "segments" in
  let? l := iterate segs in
  validate_segments l.

(** The loop of lines 59-61. *)
Fixpoint load_segments (l : list json) : M unit :=
  match l with
  | [] => ret tt
  | s :: l' =>
      do k <- lift (let? i := getitem s "id" in to_key i) ;;
      do _ <- modify (fun st =>
                set_SEGMENTS_BY_ID (dict_set hkey_eqb (SEGMENTS_BY_ID st) k s) st) ;;
      do d <- lift (let? a := getitem s "start" in
                    let? b := getitem s "end" in
                    math_dist_json a b) ;;
      do _ <- modify (fun st =>
                set_SEGMENT_DISTANCES
                  (dict_set hkey_eqb (SEGMENT_DISTANCES st) k d) st) ;;
      load_segments l'
  end.

(** The body of the [try] of [load_dataset].  [file] is what opening and
    parsing [risk_data.json] gives. *)
Definition load_dataset_try (file : res json) (now : R) : M unit :=
  do data <- lift file ;;
  do _ <- lift (validate_dataset_schema data) ;;
  do _ <- modify (fun st => set_SEGMENT_DISTANCES [] (set_SEGMENTS_BY_ID [] st)) ;;
  do l <- lift (let? segs := getitem data "segments" in iterate segs) ;;
  do _ <- load_segments l ;;
  do _ <- modify (set_DATASET_TIMESTAMP now) ;;
  emit (LogInfo "Dataset loaded").

Definition load_dataset (file : res json) (now : R) : M unit :=
  try_except (load_dataset_try file now) (fun e => emit (PrintExc e)).

Definition cache_clear_risk : M unit := modify (set_risk_cache []).
Definition cache_clear_graph : M unit := modify (set_graph_cache []).

(* ================================================================== *)
(** * Risk model (lines 100-123) *)

Definition config_number (cfg : list (string * json)) (k : string) : res R :=
  let? j := dict_item String.eqb cfg k in
  num_of j.

Definition nonlinear (cfg : list (string * json)) (v : R) : res R :=
  let? e := config_number cfg "nonlinear_exponent" in
  py_pow v e.

Definition time_multiplier (hour : Z) : R :=
  if (hour <? 20)%Z then 1
  else round2 (1 + 2 / 10 * tanh ((IZR hour - 20) / 2)).

(** The function [calculate_risk] wraps, on the globals it reads. *)
Definition calculate_risk_body
    (cfg : list (string * json)) (segments : list (hkey * json))
    (segment_id : hkey) (hour : Z) : res R :=
  let? s := dict_item hkey_eqb segments segment_id in
  let? c := (let? j := getitem s "crime" in num_of j) in
  let? crime := nonlinear cfg c in
  let? l := (let? j := getitem s "lighting" in num_of j) in
  let? lighting_deficit := nonlinear cfg (1 - l) in
  let? w := (let? j := getitem s "crowd" in num_of j) in
  let? crowd_scarcity := nonlinear cfg (1 - w) in
  let? cw := config_number cfg "crime_weight" in
  let? lw := config_number cfg "lighting_weight" in
  let? ww := config_number cfg "crowd_weight" in
  let base := cw * crime + lw * lighting_deficit + ww * crowd_scarcity in
  Ok (round2 (base * time_multiplier hour)).

(** [calculate_risk], memoised by [@lru_cache(maxsize=2000)] on
    [(segment_id, hour)]. *)
Definition calculate_risk (segment_id : hkey) (hour : Z) : M R :=
  lru_cached risk_key_eqb 2000 risk_cache set_risk_cache
    (fun k s =>
       (calculate_risk_body (RISK_CONFIG s) (SEGMENTS_BY_ID s) (fst k) (snd k), s))
    (segment_id, hour).

(* ================================================================== *)
(** * ETA and cache expiry (lines 125-138) *)

Definition compute_eta (distance_km speed : R) : res R :=
  if Reqb speed 0 then Raise ZeroDivisionError
  else Ok (round2 (distance_km / speed * 60)).

Definition auto_clear_cache (now : R) : M unit :=
  do last <- read LAST_CACHE_CLEAR ;;
  if Rltb GRAPH_CACHE_TTL (now - last) then
    do _ <- cache_clear_risk ;;
    do _ <- cache_clear_graph ;;
    do _ <- modify (set_LAST_CACHE_CLEAR now) ;;
    emit (LogInfo "Caches auto-cleared")
  else ret tt.

(* ================================================================== *)
(** * Graph construction (lines 140-162) *)

(** One turn of the loop over [SEGMENTS_BY_ID.items()]. *)
Definition build_edge (hour : Z) (alpha : R) (G : DiGraph)
    (sid : hkey) (seg : json) : M DiGraph :=
  do start <- lift (let? j := getitem seg "start" in coords_of j) ;;
  do stop <- lift (let? j := getitem seg "end" in coords_of j) ;;
  do rsk <- calculate_risk sid hour ;;
  do dists <- read SEGMENT_DISTANCES ;;
  do et <- lift (let? d := dict_item hkey_eqb dists sid in
                 compute_eta d DEFAULT_SPEED_KMPH) ;;
  do g <- lift (let? a := getitem seg "start" in
                let? b := getitem seg "end" in Ok (a, b)) ;;
  ret (add_edge G start stop
         (mk_edge et rsk (alpha * et + (1 - alpha) * rsk) g sid)).

Fixpoint build_edges (hour : Z) (alpha : R) (G : DiGraph)
    (items : list (hkey * json)) : M DiGraph :=
  match items with
  | [] => ret G
  | (sid, seg) :: rest =>
      do G' <- build_edge hour alpha G sid seg ;;
      build_edges hour alpha G' rest
  end.

(** The function [build_graph] wraps; [dataset_ts] only serves as part of
    the memo key. *)
Definition build_graph_body (hour : Z) (alpha : R) (dataset_ts : R) : M DiGraph :=
  do items <- read SEGMENTS_BY_ID ;;
  build_edges hour alpha [] items.

(** [build_graph], memoised by [@lru_cache(maxsize=200)] on
    [(hour, alpha, dataset_ts)]. *)
Definition build_graph (hour : Z) (alpha : R) (dataset_ts : R) : M DiGraph :=
  lru_cached graph_key_eqb 200 graph_cache set_graph_cache
    (fun k => let '(h, a, t) := k in build_graph_body h a t)
    (hour, alpha, dataset_ts).

(* ================================================================== *)
(** * Nearest vertex (lines 164-170) *)

Section Min.
Context {A : Type}.
Variable key : A -> res R.

Fixpoint min_scan (best : A) (kbest : R) (l : list A) : res A :=
  match l with
  | [] => Ok best
  | x :: l' =>
      let? k := key x in
      if Rltb k kbest then min_scan x k l' else min_scan best kbest l'
  end.

(** [min(l, key=key)]: the first element of least key; [ValueError] on
    an empty sequence. *)
Definition py_min (l : list A) : res A :=
  match l with
  | [] => Raise ValueError
  | x :: l' => let? k := key x in min_scan x k l'
  end.
End Min.

Definition nearest_node (G : DiGraph) (p : point) : M node :=
  do closest <- lift (py_min (fun n => math_dist n p) (nodes G)) ;;
  do d <- lift (math_dist closest p) ;;
  do _ <- (if Rltb MAX_SNAP_DISTANCE d
           then emit (LogWarning "Snapping far point for demo")
           else ret tt) ;;
  ret closest.

(* ================================================================== *)
(** * The search: [networkx.astar_path]

    The library routine as networkx 3 implements it, called with
    [heuristic = math.dist] and [weight = "weight"].  The heap holds tuples
    [(priority, counter, node, cost, parent)]; the counter is unique, so
    [heappop] returns the entry of least [(priority, counter)] whatever the
    layout of the heap, and a list stands for it. *)

Record qentry : Type := mk_qentry {
  q_prio : R;
  q_count : nat;
  q_node : node;
  q_dist : R;
  q_parent : option node
}.

Definition entry_ltb (a b : qentry) : bool :=
  Rltb (q_prio a) (q_prio b)
  || (Reqb (q_prio a) (q_prio b) && (q_count a <? q_count b)%nat).

Fixpoint heap_min (best : qentry) (q : list qentry) : qentry :=
  match q with
  | [] => best
  | e :: q' => heap_min (if entry_ltb e best then e else best) q'
  end.

Fixpoint heap_remove (c : nat) (q : list qentry) : list qentry :=
  match q with
  | [] => []
  | e :: q' => if (q_count e =? c)%nat then q' else e :: heap_remove c q'
  end.

Definition heappop (q : list qentry) : option (qentry * list qentry) :=
  match q with
  | [] => None
  | e :: q' =>
      let m := heap_min e q' in
      Some (m, heap_remove (q_count m) q)
  end.

Definition heappush (q : list qentry) (e : qentry) : list qentry := e :: q.

(** The search state between two turns of the [while queue] loop. *)
Record astar_state : Type := mk_astar {
  queue : list qentry;
  counter : nat;
  enqueued : list (node * (R * R));
  explored : list (node * option node)
}.

(** The [for neighbor, w in G_succ[curnode].items()] loop. *)
Fixpoint relax (target curnode : node) (dist : R)
    (succs : list (node * edge_attr)) (st : astar_state) : res astar_state :=
  match succs with
  | [] => Ok st
  | (neighbor, w) :: rest =>
      let ncost := dist + weight w in
      let push h :=
        mk_astar
          (heappush (queue st)
             (mk_qentry (ncost + h) (counter st) neighbor ncost (Some curnode)))
          (S (counter st))
          (dict_set point_eqb (enqueued st) neighbor (ncost, h))
          (explored st) in
      match dict_get point_eqb (enqueued st) neighbor with
      | Some (qcost, h) =>
          if Rleb qcost ncost then relax target curnode dist rest st
          else relax target curnode dist rest (push h)
      | None =>
          let? h := math_dist neighbor target in
          relax target curnode dist rest (push h)
      end
  end.

(** The walk back along [explored] that builds the path, before
    [path.reverse()]. *)
Fixpoint walk_back (fuel : nat) (explored : list (node * option node))
    (n : option node) : res (list node) :=
  match n with
  | None => Ok []
  | Some v =>
      match fuel with
      | O => Diverge
      | S fuel' =>
          let? p := dict_item point_eqb explored v in
          let? rest := walk_back fuel' explored p in
          Ok (v :: rest)
      end
  end.

(** [skip] tells whether a popped vertex that is already explored is
    passed over (the two [continue] of the loop). *)
Definition skip (st : astar_state) (curnode : node) (dist : R) : res bool :=
  match dict_get point_eqb (explored st) curnode with
  | None => Ok false
  | Some None => Ok true
  | Some (Some _) =>
      let? qh := dict_item point_eqb (enqueued st) curnode in
      Ok (Rltb (fst qh) dist)
  end.

Fixpoint astar_loop (fuel : nat) (G : DiGraph) (target : node)
    (st : astar_state) : res (list node) :=
  match fuel with
  | O => Diverge
  | S fuel' =>
      match heappop (queue st) with
      | None => Raise NetworkXNoPath
      | Some (e, q') =>
          let curnode := q_node e in
          if point_eqb curnode target then
            let? back := walk_back fuel' (explored st) (q_parent e) in
            Ok (rev (curnode :: back))
          else
            let st1 := mk_astar q' (counter st) (enqueued st) (explored st) in
            let? sk := skip st1 curnode (q_dist e) in
            if sk then astar_loop fuel' G target st1
            else
              let st2 :=
                mk_astar q' (counter st) (enqueued st)
                  (dict_set point_eqb (explored st) curnode (q_parent e)) in
              let? succs := dict_item point_eqb G curnode in
              let? st3 := relax target curnode (q_dist e) succs st2 in
              astar_loop fuel' G target st3
      end
  end.

Definition astar_path (fuel : nat) (G : DiGraph) (source target : node)
    : res (list node) :=
  if negb (has_node G source) || negb (has_node G target)
  then Raise NodeNotFound
  else astar_loop fuel G target
         (mk_astar [mk_qentry 0 0 source 0 None] 1 [] []).

(* ================================================================== *)
(** * Route computation (lines 174-232) *)

(** The route dict: [geometry] is absent from the trivial route, [warning]
    from every other. *)
Record route : Type := mk_route {
  route_path : list node;
  route_eta : R;
  route_risk : R;
  route_confidence : R;
  route_geometry : option (list (json * json));
  route_warning : option string
}.

(** Truth value of a tuple. *)
Definition truthy (n : node) : bool :=
  match n with
  | [] => false
  | _ :: _ => true
  end.

(** The loop of lines 214-218 over the consecutive pairs of [path]. *)
Fixpoint sum_edges (G : DiGraph) (path : list node)
    (acc : R * R * list (json * json)) : res (R * R * list (json * json)) :=
  match path with
  | u :: ((v :: _) as rest) =>
      let? e := edge G u v in
      let '(et, rk, geo) := acc in
      sum_edges G rest (et + eta e, rk + risk e, geo ++ [geometry e])
  | _ => Ok acc
  end.

Definition assemble (G : DiGraph) (path : list node) : res route :=
  let? sums := sum_edges G path (0, 0, []) in
  let '(et, rk, geo) := sums in
  let segments_count := Nat.max (List.length path - 1) 1 in
  let normalized_risk := round2 (rk / INR segments_count) in
  if Reqb (1 + normalized_risk) 0 then Raise ZeroDivisionError
  else
    Ok (mk_route path (round2 et) normalized_risk
          (round2 (1 / (1 + normalized_risk))) (Some geo) None).

Definition trivial_route (path : list node) : route :=
  mk_route path 0 0 1 None (Some "Origin and destination are extremely close"%string).

(** What [compute_route] returns: [(route, None)] or [(None, message)]. *)
Inductive route_result : Type :=
| Found (r : route)
| NotFound (err : string).

(** [fuel] bounds the turns of the search. *)
Definition compute_route (fuel : nat) (origin destination : point)
    (hour : Z) (alpha : R) (now : R) : M route_result :=
  do _ <- auto_clear_cache now ;;
  do ts <- read DATASET_TIMESTAMP ;;
  do G <- build_graph hour alpha ts ;;
  do origin_node <- nearest_node G origin ;;
  do dest_node <- nearest_node G destination ;;
  if negb (truthy origin_node) then
    ret (NotFound "Origin too far from known roads")
  else if negb (truthy dest_node) then
    ret (NotFound "Destination too far from known roads")
  else
    do found <-
      try_except
        (do _ <- emit (CallAstar origin_node dest_node) ;;
         do p <- lift (astar_path fuel G origin_node dest_node) ;;
         ret (inl p))
        (fun e =>
           match e with
           | NetworkXNoPath => ret (inr "No route available"%string)
           | _ =>
               do _ <- emit (PrintExc e) ;;
               ret (inr "Routing failure"%string)
           end) ;;
    match found with
    | inr msg => ret (NotFound msg)
    | inl path =>
        if (List.length path =? 1)%nat then ret (Found (trivial_route path))
        else
          do r <- lift (assemble G path) ;;
          ret (Found r)
    end.

(* ================================================================== *)
(** * Rate limit and the HTTP handlers (lines 71-80, 234-317) *)

Inductive payload : Type :=
| Message (msg : string)
| Routed (r : route) (strategy : string) (multiplier : R).

(** [success(data)] or [error(code, message)]. *)
Inductive response : Type :=
| Success (data : payload)
| Failure (code : Z) (msg : string).

Definition reload_data (file : res json) (now : R) : M response :=
  try_except
    (do _ <- load_dataset file now ;;
     do _ <- cache_clear_risk ;;
     do _ <- cache_clear_graph ;;
     ret (Success (Message "Dataset reloaded")))
    (fun e =>
       do _ <- emit (PrintExc e) ;;
       ret (Failure 500 "Reload failed")).

Definition rate_limit (ip : string) (now : R) : M bool :=
  do reqs <- read REQUESTS ;;
  let old := match dict_get String.eqb reqs ip with
             | Some l => l
             | None => []
             end in
  let recent := filter (fun t => Rltb (now - t) 60) old in
  if (30 <=? List.length recent)%nat then
    do _ <- modify (set_REQUESTS (dict_set String.eqb reqs ip recent)) ;;
    ret false
  else
    do _ <- modify (set_REQUESTS (dict_set String.eqb reqs ip (recent ++ [now]))) ;;
    ret true.

(** [RISK_CONFIG.update(data)] for a JSON object [data]. *)
Fixpoint dict_update (cfg : list (string * json)) (data : list (string * json))
    : list (string * json) :=
  match data with
  | [] => cfg
  | (k, v) :: rest => dict_update (dict_set String.eqb cfg k v) rest
  end.

(** The payload of [/config_risk] is a JSON object (a mapping from weight
    names to numbers); [body] is what [request.get_json()] gives. *)
Definition config_risk (body : res (list (string * json))) : M response :=
  try_except
    (do data <- lift body ;;
     do _ <- modify (fun st => set_RISK_CONFIG (dict_update (RISK_CONFIG st) data) st) ;;
     do _ <- cache_clear_risk ;;
     ret (Success (Message "Risk config updated")))
    (fun _ => ret (Failure 400 "Invalid config payload")).

(** [data.get(k, default)]. *)
Definition json_get (data : json) (k : string) (default : json) : res json :=
  match data with
  | JObj o =>
      Ok (match dict_get String.eqb o k with
          | Some v => v
          | None => default
          end)
  | _ => Raise AttributeError
  end.

Definition number_in (j : json) (lo hi : R) : bool :=
  match num_of j with
  | Ok r => Rleb lo r && Rleb r hi
  | _ => false
  end.

Definition valid_coords (c : json) : bool :=
  match c with
  | JList [lat; lon] => number_in lat (-90) 90 && number_in lon (-180) 180
  | _ => false
  end.

Definition valid_hour (h : json) : bool :=
  match int_of h with
  | Some z => (0 <=? z)%Z && (z <=? 23)%Z
  | None => false
  end.

Definition valid_alpha (a : json) : bool := number_in a 0 1.

(** [a == b] for two values that passed [valid_coords]. *)
Definition coords_equal (a b : json) : bool :=
  match coords_of a, coords_of b with
  | Ok p, Ok q => point_eqb p q
  | _, _ => false
  end.

(** [route_type not in VALID_ROUTE_TYPES]: the value is hashed first. *)
Definition route_type_of (j : json) : res (option string) :=
  let? k := to_key j in
  match k with
  | KStr s => Ok (if existsb (String.eqb s) VALID_ROUTE_TYPES then Some s else None)
  | _ => Ok None
  end.

Record request : Type := mk_request {
  remote_addr : string;
  get_json : res json
}.

(** [fuel] is handed to the search; the value read for ["speed"] is not
    used. *)
Definition get_routes (fuel : nat) (req : request) (now : R) : M response :=
  do allowed <- rate_limit (remote_addr req) now ;;
  if negb allowed then ret (Failure 429 "Too many requests")
  else
    match get_json req with
    | Raise _ => ret (Failure 400 "Malformed JSON")
    | Diverge => lift Diverge
    | Ok data =>
        do origin <- lift (json_get data "origin" JNull) ;;
        do destination <- lift (json_get data "destination" JNull) ;;
        do hour <- lift (json_get data "hour" (JInt 22)) ;;
        do alpha <- lift (json_get data "alpha" (JFloat (5 / 10))) ;;
        do route_type <- lift (json_get data "type" (JStr "balanced")) ;;
        do speed <- lift (json_get data "speed" (JInt 30)) ;;
        do rt <- lift (route_type_of route_type) ;;
        match rt with
        | None => ret (Failure 400 "Invalid type")
        | Some strategy =>
            if negb (valid_coords origin) then ret (Failure 400 "Invalid origin")
            else if negb (valid_coords destination) then
              ret (Failure 400 "Invalid destination")
            else if coords_equal origin destination then
              ret (Failure 400 "Origin and destination cannot match")
            else if negb (valid_hour hour) then ret (Failure 400 "Invalid hour")
            else if negb (valid_alpha alpha) then ret (Failure 400 "Invalid alpha")
            else
              do h <- lift (match int_of hour with
                            | Some z => Ok z
                            | None => Raise TypeError
                            end) ;;
              do a <- lift (num_of alpha) ;;
              let a' := if String.eqb strategy "shortest" then 1
                        else if String.eqb strategy "safest" then 0
                        else a in
              do o <- lift (coords_of origin) ;;
              do d <- lift (coords_of destination) ;;
              do out <- compute_route fuel o d h a' now ;;
              match out with
              | NotFound err => ret (Failure 404 err)
              | Found r => ret (Success (Routed r strategy (time_multiplier h)))
              end
        end
    end.

(* ================================================================== *)
(** * The life of the process *)

Definition initial_state : state :=
  mk_state INITIAL_RISK_CONFIG 0 [] [] [] [] 0 [] [].

(** Import of the module: [load_dataset()] at line 69 reads the file, then
    line 130 sets [LAST_CACHE_CLEAR]. *)
Definition startup (file : res json) (now : R) : state :=
  set_LAST_CACHE_CLEAR now (snd (load_dataset file now initial_state)).

(** One request served to its end by one of the three handlers that touch
    the engine. *)
Inductive step : state -> state -> Prop :=
| step_reload_data (file : res json) (now : R) (s : state) :
    fst (reload_data file now s) <> Diverge ->
    step s (snd (reload_data file now s))
| step_config_risk (body : res (list (string * json))) (s : state) :
    step s (snd (config_risk body s))
| step_get_routes (fuel : nat) (req : request) (now : R) (s : state) :
    step s (snd (get_routes fuel req now s)).

Inductive reachable : state -> Prop :=
| reachable_startup (file : res json) (now : R) : reachable (startup file now)
| reachable_step (s s' : state) : reachable s -> step s s' -> reachable s'.

(* ================================================================== *)
(** * Definitions that follow the words of the specification *)





(** Every memoised risk is the one the current data and configuration
    give. *)
Definition risk_memo_ok (s : state) : Prop :=
  forall (k : risk_key) (v : R),
    In (k, v) (risk_cache s) ->
    calculate_risk_body (RISK_CONFIG s) (SEGMENTS_BY_ID s) (fst k) (snd k) = Ok v.

(** [m] keeps the property [P] of the state. *)
Definition keeps {A : Type} (P : state -> Prop) (m : M A) : Prop :=
  forall s, P s -> P (snd (m s)).

(** The globals a route query only reads. *)
Definition data_of (s : state)
    : list (string * json) * R * list (hkey * json) * list (hkey * R) :=
  (RISK_CONFIG s, DATASET_TIMESTAMP s, SEGMENTS_BY_ID s, SEGMENT_DISTANCES s).

(** A route query leaves the data alone and keeps the risk memo right. *)
Definition query_inv
    (d : list (string * json) * R * list (hkey * json) * list (hkey * R))
    (s : state) : Prop :=
  data_of s = d /\ risk_memo_ok s.

(** The graph [build_graph] computes when it misses its memo, as a function
    of the globals it reads: the loop of lines 145-160 with the body of
    [calculate_risk] in place of the memoised call. *)
Definition fresh_edge (cfg : list (string * json)) (segments : list (hkey * json))
    (distances : list (hkey * R)) (hour : Z) (alpha : R) (G : DiGraph)
    (sid : hkey) (seg : json) : res DiGraph :=
  let? start := (let? j := getitem seg "start" in coords_of j) in
  let? stop := (let? j := getitem seg "end" in coords_of j) in
  let? rsk := calculate_risk_body cfg segments sid hour in
  let? et := (let? d := dict_item hkey_eqb distances sid in
              compute_eta d DEFAULT_SPEED_KMPH) in
  let? g := (let? a := getitem seg "start" in
             let? b := getitem seg "end" in Ok (a, b)) in
  Ok (add_edge G start stop
        (mk_edge et rsk (alpha * et + (1 - alpha) * rsk) g sid)).

Fixpoint fresh_edges (cfg : list (string * json)) (segments : list (hkey * json))
    (distances : list (hkey * R)) (hour : Z) (alpha : R) (G : DiGraph)
    (items : list (hkey * json)) : res DiGraph :=
  match items with
  | [] => Ok G
  | (sid, seg) :: rest =>
      let? G' := fresh_edge cfg segments distances hour alpha G sid seg in
      fresh_edges cfg segments distances hour alpha G' rest
  end.

Definition fresh_graph (s : state) (hour : Z) (alpha : R) : res DiGraph :=
  fresh_edges (RISK_CONFIG s) (SEGMENTS_BY_ID s) (SEGMENT_DISTANCES s)
    hour alpha [] (SEGMENTS_BY_ID s).


(** [s'] is [s] but for the memo of [calculate_risk]. *)
Definition same_but_risk_cache (s s' : state) : Prop :=
  s' = set_risk_cache (risk_cache s') s.


(** The part of [compute_route] before the two look-ups. *)
Definition graph_for_query (hour : Z) (alpha now : R) : M DiGraph :=
  do _ <- auto_clear_cache now ;;
  do ts <- read DATASET_TIMESTAMP ;;
  build_graph hour alpha ts.

(** Two requests that are identical except in the value of [speed]: the
    same client, and two JSON objects that agree on every other key. *)
Definition same_except_speed (a b : request) : Prop :=
  remote_addr a = remote_addr b /\
  exists o1 o2,
    get_json a = Ok (JObj o1) /\ get_json b = Ok (JObj o2) /\
    forall k : string,
      k <> "speed"%string -> dict_get String.eqb o1 k = dict_get String.eqb o2 k.

(** ** Paths and their totals *)

(** [walk G u t p]: [p] lists the vertices of a path of [G] from [u] to
    [t], each consecutive pair joined by an edge. *)
Inductive walk (G : DiGraph) : node -> node -> list node -> Prop :=
| walk_end (v : node) : In v (nodes G) -> walk G v v [v]
| walk_step (u v t : node) (a : edge_attr) (p : list node) :
    edge G u v = Ok a -> walk G v t p -> walk G u t (u :: p).

(** The sum of the attribute [f] over the edges of a path. *)
Fixpoint path_total (f : edge_attr -> R) (G : DiGraph) (p : list node) : res R :=
  match p with
  | u :: ((v :: _) as rest) =>
      let? a := edge G u v in
      let? r := path_total f G rest in
      Ok (f a + r)
  | _ => Ok 0
  end.

(* ================================================================== *)
(** * The invariant of the search *)

(** [xc] with the value at [v] replaced by [g]. *)
Definition upd (xc : node -> R) (v : node) (g : R) : node -> R :=
  fun w => if point_eqb w v then g else xc w.

(** The state after the push of [neighbor = u] from [curnode = v]. *)
Definition pushed (st : astar_state) (v u : node) (ncost h : R) : astar_state :=
  mk_astar
    (heappush (queue st) (mk_qentry (ncost + h) (counter st) u ncost (Some v)))
    (S (counter st))
    (dict_set point_eqb (enqueued st) u (ncost, h))
    (explored st).

Section SearchInvariant.
Variable G : DiGraph.
Variables source target : node.

Definition best (E : list (node * (R * R))) (v : node) : R :=
  if point_eqb v source then 0
  else match dict_get point_eqb E v with
       | Some gh => fst gh
       | None => 0
       end.

Definition live (st : astar_state) (v : node) : Prop :=
  v <> source /\
  exists e h,
    In e (queue st) /\ q_node e = v /\
    dict_get point_eqb (enqueued st) v = Some (q_dist e, h) /\
    q_prio e = q_dist e + h.

Definition closed (st : astar_state) (v : node) : Prop :=
  dict_get point_eqb (explored st) v <> None /\
  forall u a,
    edge G v u = Ok a ->
    u = source \/
    exists g h,
      dict_get point_eqb (enqueued st) u = Some (g, h) /\
      g <= best (enqueued st) v + weight a.

Record search_inv (xc : node -> R) (D : node -> Prop) (st : astar_state) : Prop :=
  mk_search_inv {
  inv_entry :
    forall e, In e (queue st) ->
      exists p a g' h,
        q_parent e = Some p /\
        dict_get point_eqb (explored st) p <> None /\
        edge G p (q_node e) = Ok a /\
        xc p + weight a <= q_dist e /\
        dict_get point_eqb (enqueued st) (q_node e) = Some (g', h) /\
        g' <= q_dist e /\
        q_prio e = q_dist e + h;
  inv_counts :
    NoDup (map q_count (queue st)) /\
    forall e, In e (queue st) -> (q_count e < counter st)%nat;
  inv_source :
    dict_get point_eqb (explored st) source = Some None /\ xc source = 0;
  inv_target : dict_get point_eqb (explored st) target = None;
  inv_explored :
    forall v p, dict_get point_eqb (explored st) v = Some (Some p) ->
      v <> source /\
      dict_get point_eqb (explored st) p <> None /\
      exists a g h,
        edge G p v = Ok a /\ xc p + weight a <= xc v /\
        dict_get point_eqb (enqueued st) v = Some (g, h) /\ g <= xc v;
  inv_explored_none :
    forall v, dict_get point_eqb (explored st) v = Some None -> v = source;
  inv_heur :
    forall v g h, dict_get point_eqb (enqueued st) v = Some (g, h) ->
      math_dist v target = Ok h;
  inv_closed :
    forall v, ~ D v ->
      v = source \/ dict_get point_eqb (enqueued st) v <> None ->
      live st v \/ closed st v
}.

(** The state of [relax] while it goes through the successors of [v],
    expanded at cost [g]. *)
Definition relax_inv (xc : node -> R) (v : node) (g : R)
    (processed : list (node * edge_attr)) (st : astar_state) : Prop :=
  search_inv xc (fun w => w = v) st /\
  dict_get point_eqb (explored st) v <> None /\
  xc v = g /\
  best (enqueued st) v = g /\
  (v <> source -> dict_get point_eqb (enqueued st) v <> None) /\
  forall u a, In (u, a) processed ->
    u = source \/ exists g' h, dict_get point_eqb (enqueued st) u = Some (g', h) /\ g' <= g + weight a.
End SearchInvariant.



(** Successor tables without repeated keys whose targets are vertices. *)
Definition well_formed (G : DiGraph) : Prop :=
  (forall u succs, dict_get point_eqb G u = Some succs -> NoDup (map fst succs)) /\
  (forall u v a, edge G u v = Ok a -> In v (nodes G)).

(* ================================================================== *)
(** * What bounds the search

    The cost of a pushed entry is the total of a path out of the source
    that visits no vertex twice; there are finitely many such totals, and
    a vertex is pushed again only at a smaller one. *)

(** The paths of [G] out of [u] with at most [n] edges. *)
Fixpoint walks_from (G : DiGraph) (n : nat) (u : node) : list (list node) :=
  [u] ::
  match n with
  | O => []
  | S n' =>
      match dict_get point_eqb G u with
      | Some succs =>
          flat_map (fun va => map (cons u) (walks_from G n' (fst va))) succs
      | None => []
      end
  end.

(** The totals of the paths out of [s] with at most as many edges as [G]
    has vertices. *)
Definition totals (G : DiGraph) (s : node) : list R :=
  flat_map
    (fun p => match path_total weight G p with
              | Ok c => [c]
              | _ => []
              end)
    (walks_from G (List.length (nodes G)) s).

(** How many more pushes of [u] the table [E] leaves room for. *)
Definition room (C : list R) (E : list (node * (R * R))) (u : node) : nat :=
  match dict_get point_eqb E u with
  | Some gh => List.length (filter (fun c => Rltb c (fst gh)) C)
  | None => S (List.length C)
  end.

(** The number of turns of the loop that are left at most. *)
Definition potential (G : DiGraph) (s : node) (st : astar_state) : nat :=
  List.length (queue st)
  + list_sum (map (room (totals G s) (enqueued st)) (nodes G)).

(** Fuel that lets the search from [s] finish. *)
Definition enough_fuel (G : DiGraph) (s : node) : nat :=
  potential G s (mk_astar [] 1 [] [(s, None)]) + List.length (nodes G) + 2.

Section SearchProgress.
Variable G : DiGraph.
Variable source : node.

(** Every vertex inside the path [p] is enqueued at no more than the
    total of [p] up to it. *)
Definition dominated (E : list (node * (R * R))) (p : list node) : Prop :=
  forall p1 u p2,
    p = p1 ++ u :: p2 -> p2 <> [] -> u <> source ->
    exists g h c,
      dict_get point_eqb E u = Some (g, h) /\
      path_total weight G (p1 ++ [u]) = Ok c /\ g <= c.

(** [p] is the path along which [v] was reached at cost [g]. *)
Definition trail (E : list (node * (R * R))) (v : node) (g : R)
    (p : list node) : Prop :=
  walk G source v p /\
  path_total weight G p = Ok g /\
  NoDup (tl p) /\
  (v <> source -> ~ In source (tl p)) /\
  dominated E p.

(** The order in which the parents recorded in [explored] descend: by the
    cost of the last expansion, then by the counter of the entry that was
    expanded. *)
Definition rank_ltb (xc : node -> R) (stamp : node -> nat) (u v : node) : bool :=
  Rltb (xc u) (xc v) || (Reqb (xc u) (xc v) && (stamp u <? stamp v)%nat).

Record chain_inv (xc : node -> R) (stamp : node -> nat) (st : astar_state)
    : Prop := mk_chain_inv {
  ch_entry :
    forall e p a, In e (queue st) -> q_parent e = Some p ->
      edge G p (q_node e) = Ok a ->
      xc p + weight a < q_dist e \/ (stamp p < q_count e)%nat;
  ch_explored :
    forall v p a, dict_get point_eqb (explored st) v = Some (Some p) ->
      edge G p v = Ok a ->
      xc p + weight a < xc v \/ (stamp p < stamp v)%nat;
  ch_fresh :
    forall e p g h, In e (queue st) ->
      dict_get point_eqb (explored st) (q_node e) = Some (Some p) ->
      dict_get point_eqb (enqueued st) (q_node e) = Some (g, h) ->
      q_dist e < xc (q_node e) \/ g < q_dist e;
  ch_stamp :
    forall v, dict_get point_eqb (explored st) v <> None ->
      (stamp v < counter st)%nat;
  ch_distinct :
    forall e1 e2, In e1 (queue st) -> In e2 (queue st) ->
      q_node e1 = q_node e2 -> q_dist e1 = q_dist e2 -> e1 = e2;
  ch_parent :
    forall e, In e (queue st) -> q_node e <> source ->
      q_parent e <> Some (q_node e)
}.

(** What holds, besides [relax_inv], while the successors of [v] are gone
    through: [p] is the trail of the entry that is expanded. *)
Definition progress_inv (xc : node -> R) (stamp : node -> nat) (v : node)
    (g : R) (p : list node) (st : astar_state) : Prop :=
  chain_inv xc stamp st /\
  (forall e, In e (queue st) ->
     exists q, trail (enqueued st) (q_node e) (q_dist e) q) /\
  trail (enqueued st) v g p /\
  ~ In source (tl p).
End SearchProgress.

(** [stamp] with the value at [v] replaced by [c]. *)
Definition restamp (stamp : node -> nat) (v : node) (c : nat) : node -> nat :=
  fun w => if point_eqb w v then c else stamp w.

(* ================================================================== *)
(** * Fixtures: small datasets and requests *)

(** A segment record [{id, start: [x0, y0], end: [x1, y1], crime,
    lighting, crowd}]. *)
Definition segment_record (id : string) (x0 y0 x1 y1 : R)
    (crime lighting crowd : R) : json :=
  JObj [("id", JStr id);
        ("start", JList [JFloat x0; JFloat y0]);
        ("end", JList [JFloat x1; JFloat y1]);
        ("crime", JFloat crime);
        ("lighting", JFloat lighting);
        ("crowd", JFloat crowd)]%string.

Definition dataset (segments : list json) : json :=
  JObj [("segments", JList segments)]%string.

(** One dangerous road from (0,0) to (1,0). *)
Definition one_road : json :=
  dataset [segment_record "ab" 0 0 1 0 1 1 1].

Definition one_road_state : state := startup (Ok one_road) 0.


Definition near_origin : point := [0; 0].
Definition near_destination : point := [1; 0].

(** Two segments over the same pair of end points, the first dangerous,
    the second safe. *)
Definition parallel_roads : json :=
  dataset [segment_record "p" 0 0 1 0 1 1 1; segment_record "q" 0 0 1 0 0 1 1].

Definition parallel_roads_state : state := startup (Ok parallel_roads) 0.

(** The graph of [one_road] at hour 10 with alpha = 1/2. *)
Definition one_road_graph : DiGraph :=
  [([0; 0],
    [([1; 0],
      mk_edge 2 (6 / 10) (13 / 10)
        (JList [JFloat 0; JFloat 0], JList [JFloat 1; JFloat 0]) (KStr "ab"))]);
   ([1; 0], [])].



(** A query point away from the road, nearest to the vertex (0,0). *)
Definition off_road : point := [0; 3 / 4].

(** The key [build_graph] memoises the graph of [one_road] under. *)
Definition one_road_key : graph_key := (10%Z, 1 / 2, 0).

(** Two requests for the same trip that differ in [speed] only. *)
Definition trip (speed : json) : request :=
  mk_request "10.0.0.1"
    (Ok (JObj [("origin", JList [JFloat 0; JFloat 0]);
               ("destination", JList [JFloat 1; JFloat 0]);
               ("hour", JInt 10);
               ("alpha", JFloat (1 / 2));
               ("type", JStr "balanced");
               ("speed", speed)]%string)).

(** The route along [one_road]: 2 minutes, risk 0.6, confidence
    round(1/1.6, 2) = 0.62. *)
Definition one_road_path : list node := [[0; 0]; [1; 0]].

Definition one_road_route : route :=
  mk_route one_road_path 2 (6 / 10) (62 / 100)
    (Some [(JList [JFloat 0; JFloat 0], JList [JFloat 1; JFloat 0])]) None.

(** A configuration update that switches the crime weight off. *)
Definition zero_crime_weight : list (string * json) :=
  [("crime_weight", JFloat 0)]%string.

(** A dataset whose only record lacks five of the six required fields. *)
Definition incomplete_dataset : json :=
  dataset [JObj [("id", JStr "x")]%string].

(** A dataset that passes the schema check and fails while loading: the
    second record has end points of different dimensions. *)
Definition half_loadable_dataset : json :=
  dataset [segment_record "n" 5 5 6 5 0 1 1;
           JObj [("id", JStr "bad");
                 ("start", JList [JFloat 0; JFloat 0]);
                 ("end", JList [JFloat 1]);
                 ("crime", JFloat 0);
                 ("lighting", JFloat 1);
                 ("crowd", JFloat 1)]%string].

(** A dangerous direct road (0,0) -> (1,0) and a safe detour through
    (3,0): the direct road has the smaller total eta (2 against 10), the
    detour the smaller total risk (0 against 0.6). *)
Definition detour : json :=
  dataset [segment_record "direct" 0 0 1 0 1 1 1;
           segment_record "out" 0 0 3 0 0 1 1;
           segment_record "back" 3 0 1 0 0 1 1].

Definition detour_state : state := startup (Ok detour) 0.

Definition detour_geometry (x0 x1 : R) : json * json :=
  (JList [JFloat x0; JFloat 0], JList [JFloat x1; JFloat 0]).

(** The graph of [detour] at hour 10 for alpha = 0 (safest) and alpha = 1
    (shortest). *)
Definition detour_safest_graph : DiGraph :=
  [([0; 0],
    [([1; 0], mk_edge 2 (6 / 10) (6 / 10) (detour_geometry 0 1) (KStr "direct"));
     ([3; 0], mk_edge 6 0 0 (detour_geometry 0 3) (KStr "out"))]);
   ([1; 0], []);
   ([3; 0],
    [([1; 0], mk_edge 4 0 0 (detour_geometry 3 1) (KStr "back"))])].

Definition detour_shortest_graph : DiGraph :=
  [([0; 0],
    [([1; 0], mk_edge 2 (6 / 10) 2 (detour_geometry 0 1) (KStr "direct"));
     ([3; 0], mk_edge 6 0 6 (detour_geometry 0 3) (KStr "out"))]);
   ([1; 0], []);
   ([3; 0],
    [([1; 0], mk_edge 4 0 4 (detour_geometry 3 1) (KStr "back"))])].

Definition direct_path : list node := [[0; 0]; [1; 0]].

(** The graph of [one_road] at hour 10 with alpha = 1. *)
Definition one_road_shortest_graph : DiGraph :=
  [([0; 0],
    [([1; 0],
      mk_edge 2 (6 / 10) 2
        (JList [JFloat 0; JFloat 0], JList [JFloat 1; JFloat 0]) (KStr "ab"))]);
   ([1; 0], [])].

(* ================================================================== *)
(** * Properties of the state, for the invariants of the handlers *)


(** The records of a dataset: what the loops of lines 45 and 59 go
    through. *)
Definition records_of (data : json) : res (list json) :=
  let? segs := getitem data "segments" in iterate segs.

(** The key [s["id"]] a record is stored under, and the length
    [math.dist(s["start"], s["end"])] stored for it. *)
Definition record_key (seg : json) : res hkey :=
  let? i := getitem seg "id" in to_key i.

Definition record_length (seg : json) : res R :=
  let? a := getitem seg "start" in
  let? b := getitem seg "end" in
  math_dist_json a b.

(** The two maps hold the same ids in the same order; every stored record
    is one of [recs], kept under its own id, with its own length. *)
Definition store_of (recs : list json) (s : state) : Prop :=
  map fst (SEGMENT_DISTANCES s) = map fst (SEGMENTS_BY_ID s) /\
  forall (id : hkey) (seg : json),
    dict_get hkey_eqb (SEGMENTS_BY_ID s) id = Some seg ->
    In seg recs /\ record_key seg = Ok id /\
    exists d : R,
      record_length seg = Ok d /\
      dict_get hkey_eqb (SEGMENT_DISTANCES s) id = Some d.

(** The timestamps recorded for a client, and those of them that are
    younger than the window of 60 seconds at time [now]. *)
Definition requests_of (s : state) (ip : string) : list R :=
  match dict_get String.eqb (REQUESTS s) ip with
  | Some l => l
  | None => []
  end.

Definition recent_requests (s : state) (ip : string) (now : R) : list R :=
  filter (fun t => Rltb (now - t) 60) (requests_of s ip).

(** No client has more than 30 timestamps on record. *)
Definition rate_ok (s : state) : Prop :=
  forall ip : string, (List.length (requests_of s ip) <= 30)%nat.

(** The messages of the answers 400 of [get_routes] (lines 274-299). *)
Definition BAD_REQUEST_MESSAGES : list string :=
  ["Malformed JSON"; "Invalid type"; "Invalid origin"; "Invalid destination";
   "Origin and destination cannot match"; "Invalid hour"; "Invalid alpha"]%string.

(** The value [data.get(k, default)] reads from a JSON object. *)
Definition field (o : list (string * json)) (k : string) (default : json) : json :=
  match dict_get String.eqb o k with
  | Some v => v
  | None => default
  end.

(** Two requests of one client whose bodies are objects that agree on every
    key but [key]. *)
Definition same_except (key : string) (a b : request)
    (o1 o2 : list (string * json)) : Prop :=
  remote_addr a = remote_addr b /\
  get_json a = Ok (JObj o1) /\ get_json b = Ok (JObj o2) /\
  forall k : string,
    k <> key -> dict_get String.eqb o1 k = dict_get String.eqb o2 k.

(** The memo tables are within the sizes of their decorators. *)
Definition memo_sizes_ok (s : state) : Prop :=
  (List.length (risk_cache s) <= 2000)%nat /\
  (List.length (graph_cache s) <= 200)%nat.

(* ================================================================== *)
(** * Basic facts: comparisons, rounding, dictionaries *)

Lemma Rltb_true (x y : R) : x < y -> Rltb x y = true.
Proof. intros H. unfold Rltb. destruct (Rlt_dec x y); [reflexivity | contradiction]. Qed.

Lemma Rltb_false (x y : R) : y <= x -> Rltb x y = false.
Proof. intros H. unfold Rltb. destruct (Rlt_dec x y); [lra | reflexivity]. Qed.

Lemma Rleb_true (x y : R) : x <= y -> Rleb x y = true.
Proof. intros H. unfold Rleb. destruct (Rle_dec x y); [reflexivity | contradiction]. Qed.

Lemma Rleb_false (x y : R) : y < x -> Rleb x y = false.
Proof. intros H. unfold Rleb. destruct (Rle_dec x y); [lra | reflexivity]. Qed.

Lemma Reqb_true (x y : R) : x = y -> Reqb x y = true.
Proof. intros H. unfold Reqb. destruct (Req_dec_T x y); [reflexivity | contradiction]. Qed.

Lemma Reqb_false (x y : R) : x <> y -> Reqb x y = false.
Proof. intros H. unfold Reqb. destruct (Req_dec_T x y); [contradiction | reflexivity]. Qed.

Lemma Reqb_eq (x y : R) : Reqb x y = true <-> x = y.
Proof. unfold Reqb. destruct (Req_dec_T x y); split; congruence. Qed.

Lemma Rltb_lt (x y : R) : Rltb x y = true <-> x < y.
Proof. unfold Rltb. destruct (Rlt_dec x y); split; intros; try discriminate; tauto. Qed.

Lemma Rleb_le (x y : R) : Rleb x y = true <-> x <= y.
Proof. unfold Rleb. destruct (Rle_dec x y); split; intros; try discriminate; tauto. Qed.

Lemma Rltb_ge (x y : R) : Rltb x y = false <-> y <= x.
Proof.
  unfold Rltb. destruct (Rlt_dec x y); split; intros; try discriminate; try lra;
    reflexivity.
Qed.

Lemma Rleb_gt (x y : R) : Rleb x y = false <-> y < x.
Proof.
  unfold Rleb. destruct (Rle_dec x y); split; intros; try discriminate; try lra;
    reflexivity.
Qed.

(** Decides the comparisons between numerals that are left in a goal. *)
Ltac Rdecide :=
  repeat match goal with
    | |- context [Rltb ?x ?y] =>
        first [rewrite (Rltb_true x y) by lra | rewrite (Rltb_false x y) by lra]
    | |- context [Rleb ?x ?y] =>
        first [rewrite (Rleb_true x y) by lra | rewrite (Rleb_false x y) by lra]
    | |- context [Reqb ?x ?y] =>
        first [rewrite (Reqb_true x y) by lra | rewrite (Reqb_false x y) by lra]
    end.

Lemma point_eqb_eq (p q : point) : point_eqb p q = true <-> p = q.
Proof.
  revert q. induction p as [| x p IH]; intros [| y q]; simpl;
    try (split; [discriminate | discriminate]); try tauto.
  rewrite andb_true_iff, Reqb_eq, IH. split.
  - intros [-> ->]. reflexivity.
  - intros E. injection E. tauto.
Qed.

Lemma point_eqb_refl (p : point) : point_eqb p p = true.
Proof. apply point_eqb_eq. reflexivity. Qed.

Lemma point_eqb_neq (p q : point) : point_eqb p q = false <-> p <> q.
Proof.
  rewrite <- point_eqb_eq. destruct (point_eqb p q); split; congruence.
Qed.

Lemma hkey_eqb_eq (a b : hkey) : hkey_eqb a b = true <-> a = b.
Proof.
  destruct a, b; simpl; try (split; [discriminate | discriminate]); try tauto.
  - rewrite Reqb_eq. split; congruence.
  - rewrite String.eqb_eq. split; congruence.
Qed.

Lemma hkey_eqb_refl (a : hkey) : hkey_eqb a a = true.
Proof. apply hkey_eqb_eq. reflexivity. Qed.

Lemma risk_key_eqb_eq (a b : risk_key) : risk_key_eqb a b = true <-> a = b.
Proof.
  destruct a as [k h], b as [k' h']. unfold risk_key_eqb. simpl.
  rewrite andb_true_iff, hkey_eqb_eq, Z.eqb_eq. split.
  - intros [-> ->]. reflexivity.
  - intros E. injection E. tauto.
Qed.

Lemma graph_key_eqb_eq (a b : graph_key) : graph_key_eqb a b = true <-> a = b.
Proof.
  destruct a as [[h al] t], b as [[h' al'] t']. unfold graph_key_eqb.
  rewrite !andb_true_iff, Z.eqb_eq, !Reqb_eq. split.
  - intros [[-> ->] ->]. reflexivity.
  - intros E. injection E. tauto.
Qed.

(** ** Rounding *)

Lemma round_half_even_near (x : R) (n : Z) :
  IZR n - 1 / 2 < x < IZR n + 1 / 2 -> round_half_even x = n.
Proof.
  intros [Hlo Hhi]. unfold round_half_even.
  pose proof (Zfloor_bound x) as [Hf1 Hf2].
  assert (Hcase : Zfloor x = n \/ Zfloor x = (n - 1)%Z).
  { assert (H : IZR (n - 1) < IZR (Zfloor x) + 1) by (rewrite minus_IZR; lra).
    assert (H0 : IZR (Zfloor x) < IZR n + 1) by lra.
    rewrite <- plus_IZR in H, H0. apply lt_IZR in H, H0. lia. }
  destruct Hcase as [E | E]; rewrite E in *.
  - rewrite Rltb_true by lra. reflexivity.
  - rewrite minus_IZR in *. rewrite Rltb_false by lra.
    rewrite Rltb_true by lra. lia.
Qed.

Lemma round2_near (x : R) (n : Z) :
  IZR n / 100 - 5 / 1000 < x < IZR n / 100 + 5 / 1000 ->
  round2 x = IZR n / 100.
Proof.
  intros H. unfold round2.
  rewrite (round_half_even_near (x * 100) n); [reflexivity | lra].
Qed.

Lemma round2_exact (n : Z) : round2 (IZR n / 100) = IZR n / 100.
Proof. apply round2_near. lra. Qed.

(** ** Dictionaries *)

Section DictFacts.
Context {K V : Type}.
Variable eqb : K -> K -> bool.
Hypothesis eqb_eq : forall a b, eqb a b = true <-> a = b.

Lemma eqb_refl' (a : K) : eqb a a = true.
Proof. apply eqb_eq. reflexivity. Qed.

Lemma eqb_neq (a b : K) : eqb a b = false <-> a <> b.
Proof. rewrite <- eqb_eq. destruct (eqb a b); split; congruence. Qed.

Lemma dict_get_In (d : list (K * V)) (k : K) (v : V) :
  dict_get eqb d k = Some v -> In (k, v) d.
Proof.
  induction d as [| [k' v'] d IH]; simpl; [discriminate|].
  destruct (eqb k' k) eqn:E.
  - apply eqb_eq in E. intros [= ->]. left. congruence.
  - intros H. right. auto.
Qed.

Lemma dict_get_None (d : list (K * V)) (k : K) :
  dict_get eqb d k = None <-> ~ In k (map fst d).
Proof.
  induction d as [| [k' v'] d IH]; simpl; [tauto|].
  destruct (eqb k' k) eqn:E.
  - apply eqb_eq in E. split; [discriminate | intros H; exfalso; auto].
  - apply eqb_neq in E. rewrite IH. tauto.
Qed.

Lemma dict_mem_In (d : list (K * V)) (k : K) :
  dict_mem eqb d k = true <-> In k (map fst d).
Proof.
  unfold dict_mem. destruct (dict_get eqb d k) eqn:E.
  - split; [intros _ | reflexivity].
    apply dict_get_In in E. apply (in_map fst) in E. exact E.
  - apply dict_get_None in E. split; [discriminate | contradiction].
Qed.

Lemma dict_get_set_same (d : list (K * V)) (k : K) (v : V) :
  dict_get eqb (dict_set eqb d k v) k = Some v.
Proof.
  induction d as [| [k' v'] d IH]; simpl.
  - rewrite eqb_refl'. reflexivity.
  - destruct (eqb k' k) eqn:E; simpl; rewrite E; auto.
Qed.

Lemma dict_get_set_other (d : list (K * V)) (k k' : K) (v : V) :
  k <> k' -> dict_get eqb (dict_set eqb d k v) k' = dict_get eqb d k'.
Proof.
  intros N. induction d as [| [k0 v0] d IH]; simpl.
  - apply eqb_neq in N. rewrite N. reflexivity.
  - destruct (eqb k0 k) eqn:E; simpl.
    + apply eqb_eq in E. subst k0. apply eqb_neq in N. rewrite N. reflexivity.
    + destruct (eqb k0 k'); auto.
Qed.

Lemma dict_set_keys (d : list (K * V)) (k : K) (v : V) :
  map fst (dict_set eqb d k v) =
  if dict_mem eqb d k then map fst d else map fst d ++ [k].
Proof.
  unfold dict_mem. induction d as [| [k0 v0] d IH]; simpl; [reflexivity|].
  destruct (eqb k0 k) eqn:E; simpl; [reflexivity|].
  rewrite IH. destruct (dict_get eqb d k); reflexivity.
Qed.

Lemma dict_get_app (d d' : list (K * V)) (k : K) :
  dict_get eqb (d ++ d') k =
  match dict_get eqb d k with
  | Some v => Some v
  | None => dict_get eqb d' k
  end.
Proof.
  induction d as [| [k0 v0] d IH]; simpl; [reflexivity|].
  destruct (eqb k0 k); auto.
Qed.

Lemma In_dict_get (d : list (K * V)) (k : K) :
  In k (map fst d) -> exists v, dict_get eqb d k = Some v.
Proof.
  intros H. apply dict_mem_In in H. unfold dict_mem in H.
  destruct (dict_get eqb d k) as [v|]; [exists v; reflexivity | discriminate].
Qed.
End DictFacts.

(** ** The monad *)

Lemma bind_Ok {A B : Type} (m : M A) (k : A -> M B) (s s' : state) (a : A) :
  m s = (Ok a, s') -> bind m k s = k a s'.
Proof. intros H. unfold bind. rewrite H. reflexivity. Qed.

Lemma bind_inv_Ok {A B : Type} (m : M A) (k : A -> M B) (s s2 : state) (b : B) :
  bind m k s = (Ok b, s2) ->
  exists a s1, m s = (Ok a, s1) /\ k a s1 = (Ok b, s2).
Proof.
  unfold bind. destruct (m s) as [[a | e |] s1]; try discriminate.
  intros H. exists a, s1. auto.
Qed.

(** Destructs the scrutinee of the first [match] of the goal. *)
Ltac break_match :=
  match goal with
  | |- context [match ?x with _ => _ end] => destruct x eqn:?
  end.

Ltac break_match_in H :=
  match type of H with
  | context [match ?x with _ => _ end] => destruct x eqn:?
  end.

(** ** Evaluation on concrete data *)

Lemma Rpower_1_l (y : R) : Rpower 1 y = 1.
Proof. unfold Rpower. rewrite ln_1, Rmult_0_r. apply exp_0. Qed.

(** Unfolds the program on concrete data and decides the comparisons
    between numerals it meets. *)
Ltac evaluate :=
  repeat (progress
            (cbn;
             unfold py_pow, compute_eta, is_integer, nonlinear, config_number,
               add_edge, add_node, has_node, dict_mem, successors, dict_item, edge,
               DEFAULT_SPEED_KMPH, MAX_SNAP_DISTANCE, GRAPH_CACHE_TTL;
             cbn; rewrite ?Rpower_1_l; Rdecide)).

(** [sqrt_is v] replaces a square root of the goal whose value is [v]. *)
Ltac sqrt_is v :=
  match goal with
  | |- context [sqrt ?x] =>
      replace (sqrt x) with v by (symmetry; apply sqrt_lem_1; lra)
  end.

(** [round2_is n] replaces a rounding of the goal whose value is [n/100]. *)
Ltac round2_is n :=
  match goal with
  | |- context [round2 ?x] => rewrite (round2_near x n) by lra
  end.

(** Evaluation where the square roots are resolved by [roots]. *)
Ltac evaluate_with roots := repeat (progress (evaluate; repeat roots)).

Lemma round_half_even_tie (n : Z) :
  round_half_even (IZR n + 1 / 2) = if Z.even n then n else (n + 1)%Z.
Proof.
  unfold round_half_even.
  assert (E : Zfloor (IZR n + 1 / 2) = n) by (apply Zfloor_eq; lra).
  rewrite E. rewrite Rltb_false by lra. rewrite Rltb_false by lra. reflexivity.
Qed.

Lemma round2_tie (x : R) (n : Z) :
  x = IZR n / 100 + 5 / 1000 ->
  round2 x = IZR (if Z.even n then n else (n + 1)%Z) / 100.
Proof.
  intros ->. unfold round2.
  replace ((IZR n / 100 + 5 / 1000) * 100) with (IZR n + 1 / 2) by lra.
  rewrite round_half_even_tie. reflexivity.
Qed.

(* ================================================================== *)
(** * Invariants of the handlers *)

Section Keeps.
Variable P : state -> Prop.

Lemma keeps_ret {A : Type} (a : A) : keeps P (ret a).
Proof. intros s H. exact H. Qed.

Lemma keeps_lift {A : Type} (r : res A) : keeps P (lift r).
Proof. intros s H. exact H. Qed.

Lemma keeps_read {A : Type} (f : state -> A) : keeps P (read f).
Proof. intros s H. exact H. Qed.

Lemma keeps_modify (f : state -> state) :
  (forall s, P s -> P (f s)) -> keeps P (modify f).
Proof. intros Hf s H. apply Hf, H. Qed.

Lemma keeps_bind {A B : Type} (m : M A) (k : A -> M B) :
  keeps P m -> (forall a, keeps P (k a)) -> keeps P (bind m k).
Proof.
  intros Hm Hk s H. unfold bind. specialize (Hm s H).
  destruct (m s) as [[a | e |] s1]; simpl in *; auto.
  apply Hk, Hm.
Qed.

Lemma keeps_try_except {A : Type} (m : M A) (h : exn -> M A) :
  keeps P m -> (forall e, keeps P (h e)) -> keeps P (try_except m h).
Proof.
  intros Hm Hh s H. unfold try_except. specialize (Hm s H).
  destruct (m s) as [[a | e |] s1]; simpl in *; auto.
  apply Hh, Hm.
Qed.

Lemma keeps_emit (e : event) :
  (forall s t, P s -> P (set_trace t s)) -> keeps P (emit e).
Proof. intros Ht. apply keeps_modify. intros s H. apply Ht, H. Qed.

Lemma keeps_lru_cached {K V : Type} (eqb : K -> K -> bool) (n : nat)
    (get_cache : state -> list (K * V))
    (set_cache : list (K * V) -> state -> state) (f : K -> M V) (k : K) :
  (forall s v, P s -> dict_get eqb (get_cache s) k = Some v ->
               P (set_cache (lru_hit eqb (get_cache s) k v) s)) ->
  (forall s s' v, P s -> f k s = (Ok v, s') ->
                  P (set_cache (lru_store n (get_cache s') k v) s')) ->
  keeps P (f k) ->
  keeps P (lru_cached eqb n get_cache set_cache f k).
Proof.
  intros Hhit Hmiss Hf s H. unfold lru_cached.
  destruct (dict_get eqb (get_cache s) k) as [v|] eqn:E; simpl.
  - apply Hhit; assumption.
  - specialize (Hf s H). specialize (Hmiss s).
    destruct (f k s) as [[v | e |] s'] eqn:E'; simpl in *; eauto.
Qed.
End Keeps.

Lemma query_inv_set_trace d s t : query_inv d s -> query_inv d (set_trace t s).
Proof. intros H. exact H. Qed.

Lemma query_inv_set_REQUESTS d s r : query_inv d s -> query_inv d (set_REQUESTS r s).
Proof. intros H. exact H. Qed.

Lemma query_inv_set_LAST_CACHE_CLEAR d s t :
  query_inv d s -> query_inv d (set_LAST_CACHE_CLEAR t s).
Proof. intros H. exact H. Qed.

Lemma query_inv_set_graph_cache d s c :
  query_inv d s -> query_inv d (set_graph_cache c s).
Proof. intros H. exact H. Qed.

Lemma query_inv_clear_risk d s : query_inv d s -> query_inv d (set_risk_cache [] s).
Proof.
  intros [H _]. split; [exact H|]. intros k v [].
Qed.

Lemma lru_drop_incl {K V : Type} (eqb : K -> K -> bool) (c : list (K * V)) (k : K) :
  incl (lru_drop eqb c k) c.
Proof. intros x Hx. unfold lru_drop in Hx. apply filter_In in Hx. tauto. Qed.

Lemma firstn_incl {A : Type} (n : nat) (l : list A) : incl (firstn n l) l.
Proof.
  revert l. induction n as [| n IH]; intros [| a l] x; simpl; try tauto.
  intros [E | H]; [left; exact E | right; apply IH, H].
Qed.

(** What a call of the memoised [calculate_risk] returns and leaves. *)
Lemma calculate_risk_memo (s : state) (sid : hkey) (hour : Z) :
  risk_memo_ok s ->
  fst (calculate_risk sid hour s) =
    calculate_risk_body (RISK_CONFIG s) (SEGMENTS_BY_ID s) sid hour /\
  data_of (snd (calculate_risk sid hour s)) = data_of s /\
  risk_memo_ok (snd (calculate_risk sid hour s)) /\
  graph_cache (snd (calculate_risk sid hour s)) = graph_cache s /\
  trace (snd (calculate_risk sid hour s)) = trace s.
Proof.
  intros Hok. unfold calculate_risk, lru_cached.
  destruct (dict_get risk_key_eqb (risk_cache s) (sid, hour)) as [v|] eqn:E.
  - apply (dict_get_In _ risk_key_eqb_eq) in E.
    pose proof (Hok _ _ E) as Hv. simpl in Hv. simpl.
    repeat split; try congruence.
    intros k w [Hin | Hin].
    + injection Hin as <- <-. exact Hv.
    + apply lru_drop_incl in Hin. apply Hok, Hin.
  - simpl.
    destruct (calculate_risk_body (RISK_CONFIG s) (SEGMENTS_BY_ID s) sid hour)
      as [v | e |] eqn:Eb; simpl; repeat split; auto.
    intros k w Hin. apply firstn_incl in Hin. destruct Hin as [Hin | Hin].
    + injection Hin as <- <-. exact Eb.
    + apply Hok, Hin.
Qed.

Lemma keeps_calculate_risk d sid hour : keeps (query_inv d) (calculate_risk sid hour).
Proof.
  intros s [Hd Hok].
  destruct (calculate_risk_memo s sid hour Hok) as (_ & Hd' & Hok' & _).
  split; [congruence | exact Hok'].
Qed.

(** Proves [keeps (query_inv d) m] for a handler built from the pieces
    above. *)
Ltac keeps_step :=
  first
    [ apply keeps_ret
    | apply keeps_lift
    | apply keeps_read
    | apply keeps_calculate_risk
    | apply keeps_emit; intros; assumption
    | apply keeps_bind; [| intros ?]
    | apply keeps_try_except; [| intros ?]
    | match goal with
      | |- keeps _ (if ?b then _ else _) => destruct b
      | |- keeps _ (match ?x with _ => _ end) => destruct x
      end ].

Lemma keeps_build_edges d hour alpha items :
  forall G, keeps (query_inv d) (build_edges hour alpha G items).
Proof.
  induction items as [| [sid seg] rest IH]; intros G; simpl.
  - apply keeps_ret.
  - apply keeps_bind; [| intros G'; apply IH].
    unfold build_edge. repeat keeps_step.
Qed.

Lemma keeps_build_graph d hour alpha ts :
  keeps (query_inv d) (build_graph hour alpha ts).
Proof.
  unfold build_graph. apply keeps_lru_cached.
  - intros s v H _. exact H.
  - intros s s' v H E.
    pose proof (keeps_bind (query_inv d) (read SEGMENTS_BY_ID)
                  (fun items => build_edges hour alpha [] items)
                  (keeps_read _ _) (fun items => keeps_build_edges d hour alpha items [])
                  s H) as H'.
    unfold build_graph_body in E. rewrite E in H'. exact H'.
  - unfold build_graph_body. apply keeps_bind; [apply keeps_read|].
    intros items. apply keeps_build_edges.
Qed.

Lemma keeps_auto_clear_cache d now : keeps (query_inv d) (auto_clear_cache now).
Proof.
  unfold auto_clear_cache, cache_clear_risk, cache_clear_graph.
  apply keeps_bind; [apply keeps_read|]. intros last.
  destruct (Rltb GRAPH_CACHE_TTL (now - last)); [| apply keeps_ret].
  apply keeps_bind; [apply keeps_modify; intros; apply query_inv_clear_risk; assumption|].
  intros _. apply keeps_bind; [apply keeps_modify; intros; assumption|].
  intros _. apply keeps_bind; [apply keeps_modify; intros; assumption|].
  intros _. apply keeps_emit; intros; assumption.
Qed.

Lemma keeps_nearest_node d G p : keeps (query_inv d) (nearest_node G p).
Proof. unfold nearest_node. repeat keeps_step. Qed.

Lemma keeps_compute_route d fuel origin destination hour alpha now :
  keeps (query_inv d) (compute_route fuel origin destination hour alpha now).
Proof.
  unfold compute_route.
  apply keeps_bind; [apply keeps_auto_clear_cache | intros _].
  apply keeps_bind; [apply keeps_read | intros ts].
  apply keeps_bind; [apply keeps_build_graph | intros G].
  apply keeps_bind; [apply keeps_nearest_node | intros o].
  apply keeps_bind; [apply keeps_nearest_node | intros t].
  repeat keeps_step.
Qed.

Lemma keeps_rate_limit d ip now : keeps (query_inv d) (rate_limit ip now).
Proof.
  unfold rate_limit. apply keeps_bind; [apply keeps_read | intros reqs].
  destruct (30 <=? _)%nat;
    (apply keeps_bind; [apply keeps_modify; intros; assumption | intros _; apply keeps_ret]).
Qed.

Lemma keeps_get_routes d fuel req now :
  keeps (query_inv d) (get_routes fuel req now).
Proof.
  unfold get_routes.
  apply keeps_bind; [apply keeps_rate_limit | intros allowed].
  destruct (negb allowed); [apply keeps_ret|].
  destruct (get_json req) as [data | e |]; [| apply keeps_ret | apply keeps_lift].
  do 7 (apply keeps_bind; [apply keeps_lift | intros ?]).
  destruct a5 as [strategy|]; [| apply keeps_ret].
  repeat (match goal with
          | |- keeps _ (if ?b then _ else _) => destruct b; [apply keeps_ret|]
          end).
  do 4 (apply keeps_bind; [apply keeps_lift | intros ?]).
  apply keeps_bind; [apply keeps_compute_route | intros out].
  destruct out; apply keeps_ret.
Qed.

(** A route query changes neither the configuration nor the dataset. *)
Lemma get_routes_data fuel req now s :
  risk_memo_ok s ->
  data_of (snd (get_routes fuel req now s)) = data_of s /\
  risk_memo_ok (snd (get_routes fuel req now s)).
Proof.
  intros H. apply (keeps_get_routes (data_of s) fuel req now s). split; auto.
Qed.

(** ** The risk memo is right in every reachable state *)

Lemma load_dataset_returns (file : res json) (now : R) (s : state) (e : exn) :
  fst (load_dataset file now s) <> Raise e.
Proof.
  unfold load_dataset, try_except.
  destruct (load_dataset_try file now s) as [[[] | e' |] s1]; simpl; discriminate.
Qed.

Lemma reload_data_risk_memo (file : res json) (now : R) (s : state) :
  fst (reload_data file now s) <> Diverge ->
  risk_cache (snd (reload_data file now s)) = [] /\
  graph_cache (snd (reload_data file now s)) = [].
Proof.
  unfold reload_data, try_except, bind.
  pose proof (load_dataset_returns file now s) as Hr.
  destruct (load_dataset file now s) as [[[] | e |] s1]; simpl.
  - intros _. split; reflexivity.
  - exfalso. apply (Hr e). reflexivity.
  - intros H. exfalso. apply H. reflexivity.
Qed.

Lemma config_risk_risk_memo (body : res (list (string * json))) (s : state) :
  risk_memo_ok s -> risk_memo_ok (snd (config_risk body s)).
Proof.
  intros H. unfold config_risk, try_except, bind, lift.
  destruct body as [data | e |]; simpl; try exact H.
  intros k v [].
Qed.

Lemma load_dataset_caches (file : res json) (now : R) (s : state) :
  risk_cache (snd (load_dataset file now s)) = risk_cache s /\
  graph_cache (snd (load_dataset file now s)) = graph_cache s.
Proof.
  set (P := fun s' : state =>
              risk_cache s' = risk_cache s /\ graph_cache s' = graph_cache s).
  assert (Hl : forall l, keeps P (load_segments l)).
  { induction l as [| x l IH]; simpl; [apply keeps_ret|].
    apply keeps_bind; [apply keeps_lift | intros k].
    apply keeps_bind; [apply keeps_modify; intros ? H; exact H | intros _].
    apply keeps_bind; [apply keeps_lift | intros d].
    apply keeps_bind; [apply keeps_modify; intros ? H; exact H | intros _].
    exact IH. }
  assert (H : keeps P (load_dataset file now)).
  { unfold load_dataset, load_dataset_try.
    apply keeps_try_except;
      [| intros e; apply keeps_emit; intros ? ? H; exact H].
    apply keeps_bind; [apply keeps_lift | intros data].
    apply keeps_bind; [apply keeps_lift | intros _].
    apply keeps_bind; [apply keeps_modify; intros ? H; exact H | intros _].
    apply keeps_bind; [apply keeps_lift | intros l].
    apply keeps_bind; [apply Hl | intros _].
    apply keeps_bind; [apply keeps_modify; intros ? H; exact H | intros _].
    apply keeps_emit; intros ? ? H; exact H. }
  apply H. split; reflexivity.
Qed.

Lemma reachable_risk_memo_ok (s : state) : reachable s -> risk_memo_ok s.
Proof.
  induction 1 as [file now | s s' _ IH Hstep].
  - intros k v Hin. unfold startup in Hin. simpl in Hin.
    destruct (load_dataset_caches file now initial_state) as [Hc _].
    rewrite Hc in Hin. destruct Hin.
  - destruct Hstep as [file now s Hnd | body s | fuel req now s].
    + destruct (reload_data_risk_memo file now s Hnd) as [Hc _].
      intros k v Hin. rewrite Hc in Hin. destruct Hin.
    + apply config_risk_risk_memo, IH.
    + apply get_routes_data, IH.
Qed.

(** ** The score of a segment *)



(* ================================================================== *)
(** * The time multiplier *)

Lemma tanh_exp (x : R) : tanh x = (exp (2 * x) - 1) / (exp (2 * x) + 1).
Proof.
  unfold tanh, sinh, cosh.
  replace (2 * x) with (x + x) by lra. rewrite exp_plus, exp_Ropp.
  pose proof (exp_pos x) as Hp.
  field. split; nra.
Qed.

Lemma tanh_0 : tanh 0 = 0.
Proof. unfold tanh. rewrite sinh_0, cosh_0. lra. Qed.

Lemma exp_double (x : R) : exp (2 * x) = exp x * exp x.
Proof. replace (2 * x) with (x + x) by lra. apply exp_plus. Qed.

Lemma exp_1_lower : 256 / 100 < exp 1.
Proof.
  pose proof (exp_ineq1_le (1 / 8)) as H8.
  pose proof (exp_double (1 / 8)) as E4.
  pose proof (exp_double (1 / 4)) as E2.
  pose proof (exp_double (1 / 2)) as E1.
  replace (2 * (1 / 8)) with (1 / 4) in E4 by lra.
  replace (2 * (1 / 4)) with (1 / 2) in E2 by lra.
  replace (2 * (1 / 2)) with 1 in E1 by lra.
  assert (H4 : 126 / 100 <= exp (1 / 4)) by nra.
  assert (H2 : 158 / 100 <= exp (1 / 2)) by nra.
  nra.
Qed.

Lemma exp_1_upper : exp 1 < 277 / 100.
Proof.
  pose proof (exp_ineq1_le (- (1 / 32))) as H32.
  pose proof (exp_double (- (1 / 32))) as E16.
  pose proof (exp_double (- (1 / 16))) as E8.
  pose proof (exp_double (- (1 / 8))) as E4.
  pose proof (exp_double (- (1 / 4))) as E2.
  pose proof (exp_double (- (1 / 2))) as E1.
  replace (2 * - (1 / 32)) with (- (1 / 16)) in E16 by lra.
  replace (2 * - (1 / 16)) with (- (1 / 8)) in E8 by lra.
  replace (2 * - (1 / 8)) with (- (1 / 4)) in E4 by lra.
  replace (2 * - (1 / 4)) with (- (1 / 2)) in E2 by lra.
  replace (2 * - (1 / 2)) with (Ropp 1) in E1 by lra.
  assert (H16 : 938476 / 1000000 <= exp (- (1 / 16))) by nra.
  assert (H8 : 880737 / 1000000 <= exp (- (1 / 8))) by nra.
  assert (H4 : 775697 / 1000000 <= exp (- (1 / 4))) by nra.
  assert (H2 : 601705 / 1000000 <= exp (- (1 / 2))) by nra.
  assert (H1 : 362048 / 1000000 <= exp (Ropp 1)) by nra.
  rewrite exp_Ropp in H1.
  pose proof (exp_pos 1) as Hp.
  assert (Hinv : / exp 1 * exp 1 = 1) by (apply Rinv_l; lra).
  destruct (Rlt_dec (exp 1) (277 / 100)) as [Hlt | Hge]; [exact Hlt | exfalso].
  assert (362048 / 1000000 * (277 / 100) <= / exp 1 * exp 1)
    by (apply Rmult_le_compat; lra).
  lra.
Qed.

Lemma time_multiplier_before_20 (h : Z) : (h < 20)%Z -> time_multiplier h = 1.
Proof.
  intros H. unfold time_multiplier.
  destruct (Z.ltb_spec h 20); [reflexivity | lia].
Qed.

Lemma time_multiplier_from_20 (h : Z) :
  (20 <= h)%Z -> time_multiplier h = round2 (1 + 2 / 10 * tanh ((IZR h - 20) / 2)).
Proof.
  intros H. unfold time_multiplier.
  destruct (Z.ltb_spec h 20); [lia | reflexivity].
Qed.

Lemma time_multiplier_20 : time_multiplier 20 = 1.
Proof.
  rewrite time_multiplier_from_20 by lia.
  replace ((20 - 20) / 2) with 0 by lra. rewrite tanh_0.
  replace (1 + 2 / 10 * 0) with (100 / 100) by lra.
  rewrite round2_exact. lra.
Qed.

Lemma time_multiplier_21 : time_multiplier 21 = 109 / 100.
Proof.
  rewrite time_multiplier_from_20 by lia.
  apply round2_near. rewrite tanh_exp.
  replace (2 * ((21 - 20) / 2)) with 1 by lra.
  pose proof exp_1_lower. pose proof exp_1_upper.
  assert (Hd : 0 < exp 1 + 1) by lra.
  split.
  - apply Rmult_lt_reg_r with (exp 1 + 1); [lra|]. field_simplify; lra.
  - apply Rmult_lt_reg_r with (exp 1 + 1); [lra|]. field_simplify; lra.
Qed.

Lemma time_multiplier_22 : time_multiplier 22 = 115 / 100.
Proof.
  rewrite time_multiplier_from_20 by lia.
  apply round2_near. rewrite tanh_exp.
  replace (2 * ((22 - 20) / 2)) with (2 * 1) by lra. rewrite exp_double.
  pose proof exp_1_lower. pose proof exp_1_upper.
  assert (Hlo : 65 / 10 < exp 1 * exp 1) by nra.
  assert (Hhi : exp 1 * exp 1 < 77 / 10) by nra.
  split.
  - apply Rmult_lt_reg_r with (exp 1 * exp 1 + 1); [lra|]. field_simplify; lra.
  - apply Rmult_lt_reg_r with (exp 1 * exp 1 + 1); [lra|]. field_simplify; lra.
Qed.

Lemma time_multiplier_23 : time_multiplier 23 = 118 / 100.
Proof.
  rewrite time_multiplier_from_20 by lia.
  apply round2_near. rewrite tanh_exp.
  replace (2 * ((23 - 20) / 2)) with (1 + 2 * 1) by lra.
  rewrite exp_plus, exp_double.
  pose proof exp_1_lower. pose proof exp_1_upper.
  assert (Hlo2 : 65 / 10 < exp 1 * exp 1) by nra.
  assert (Hhi2 : exp 1 * exp 1 < 77 / 10) by nra.
  assert (Hlo : 16 < exp 1 * (exp 1 * exp 1)) by nra.
  assert (Hhi : exp 1 * (exp 1 * exp 1) < 22) by nra.
  split.
  - apply Rmult_lt_reg_r with (exp 1 * (exp 1 * exp 1) + 1); [lra|]. field_simplify; lra.
  - apply Rmult_lt_reg_r with (exp 1 * (exp 1 * exp 1) + 1); [lra|]. field_simplify; lra.
Qed.

Lemma late_hour_cases (h : Z) :
  (20 <= h <= 23)%Z -> h = 20%Z \/ h = 21%Z \/ h = 22%Z \/ h = 23%Z.
Proof. lia. Qed.

(** C4, as stated, fails at hour 20: there the multiplier is exactly 1,
    which is not in the half-open interval (1.0, 1.2]. *)
Lemma time_multiplier_20_not_above_1 :
  (20 <= 20 <= 23)%Z /\ ~ (1 < time_multiplier 20 <= 12 / 10).
Proof. split; [lia | rewrite time_multiplier_20; lra]. Qed.

(** C4, amended: for every hour in [0,19] the multiplier is exactly 1; for
    every hour in [20,23] it is [round(1 + 0.2*tanh((h-20)/2), 2)], lies in
    the closed interval [1.0, 1.2], exceeds 1 from hour 21 on, and does not
    decrease with the hour. *)
Theorem time_multiplier_by_hour (h : Z) :
  (0 <= h <= 23)%Z ->
  ((h <= 19)%Z -> time_multiplier h = 1) /\
  ((20 <= h)%Z ->
   time_multiplier h = round2 (1 + 2 / 10 * tanh ((IZR h - 20) / 2)) /\
   1 <= time_multiplier h <= 12 / 10 /\
   ((21 <= h)%Z -> 1 < time_multiplier h) /\
   (forall h' : Z, (20 <= h' <= h)%Z -> time_multiplier h' <= time_multiplier h)).
Proof.
  intros Hh. split.
  - intros H19. apply time_multiplier_before_20. lia.
  - intros H20. split; [apply time_multiplier_from_20; exact H20|].
    assert (Hc : (20 <= h <= 23)%Z) by lia.
    apply late_hour_cases in Hc.
    pose proof time_multiplier_20 as T20. pose proof time_multiplier_21 as T21.
    pose proof time_multiplier_22 as T22. pose proof time_multiplier_23 as T23.
    destruct Hc as [-> | [-> | [-> | ->]]];
      (split; [lra | split; [intros; try lia; lra |]]);
      intros h' Hh'; assert (Hc' : (20 <= h' <= 23)%Z) by lia;
      apply late_hour_cases in Hc';
      destruct Hc' as [-> | [-> | [-> | ->]]]; try lia; lra.
Qed.

Lemma time_multiplier_by_hour_witness :
  (0 <= 22 <= 23)%Z /\
  (((22 <= 19)%Z -> time_multiplier 22 = 1) /\
   ((20 <= 22)%Z ->
    time_multiplier 22 = round2 (1 + 2 / 10 * tanh ((IZR 22 - 20) / 2)) /\
    1 <= time_multiplier 22 <= 12 / 10 /\
    ((21 <= 22)%Z -> 1 < time_multiplier 22) /\
    (forall h' : Z, (20 <= h' <= 22)%Z -> time_multiplier h' <= time_multiplier 22))).
Proof.
  split; [lia|]. apply (time_multiplier_by_hour 22). lia.
Defined.

(* ================================================================== *)
(** * The risk score *)



(* ================================================================== *)
(** * Nearest vertex *)

Lemma sum_sq_length (p q : point) (r : R) :
  sum_sq p q = Ok r -> List.length p = List.length q.
Proof.
  revert q r. induction p as [| x p IH]; intros [| y q] r; simpl;
    try discriminate; [reflexivity|].
  destruct (sum_sq p q) as [r' | |] eqn:E; simpl; try discriminate.
  intros _. f_equal. eapply IH. exact E.
Qed.

Lemma sum_sq_total (p q : point) :
  List.length p = List.length q -> exists r, sum_sq p q = Ok r /\ 0 <= r.
Proof.
  revert q. induction p as [| x p IH]; intros [| y q]; simpl; try discriminate.
  - intros _. exists 0. split; [reflexivity | lra].
  - intros [= H]. destruct (IH q H) as (r & -> & Hr). simpl.
    exists ((x - y) * (x - y) + r). split; [reflexivity|].
    pose proof (Rle_0_sqr (x - y)) as Hsq. unfold Rsqr in Hsq. lra.
Qed.

Lemma math_dist_length (p q : point) (d : R) :
  math_dist p q = Ok d -> List.length p = List.length q.
Proof.
  unfold math_dist. destruct (sum_sq p q) as [r | |] eqn:E; simpl; try discriminate.
  intros _. eapply sum_sq_length. exact E.
Qed.

Lemma math_dist_total (p q : point) :
  List.length p = List.length q -> exists d, math_dist p q = Ok d /\ 0 <= d.
Proof.
  intros H. destruct (sum_sq_total p q H) as (r & E & Hr).
  unfold math_dist. rewrite E. simpl. eexists. split; [reflexivity|].
  apply sqrt_pos.
Qed.

Lemma math_dist_not_diverge (p q : point) : math_dist p q <> Diverge.
Proof.
  unfold math_dist.
  assert (H : sum_sq p q <> Diverge).
  { revert q. induction p as [| x p IH]; intros [| y q]; simpl; try discriminate.
    specialize (IH q). destruct (sum_sq p q); simpl; congruence. }
  destruct (sum_sq p q); simpl; congruence.
Qed.

Section MinFacts.
Context {A : Type}.
Variable key : A -> res R.

Lemma min_scan_least (l : list A) :
  forall (best : A) (kbest : R) (r : A),
    key best = Ok kbest ->
    min_scan key best kbest l = Ok r ->
    (r = best \/ In r l) /\
    exists kr, key r = Ok kr /\ kr <= kbest /\
               forall x kx, In x l -> key x = Ok kx -> kr <= kx.
Proof.
  induction l as [| x l IH]; intros best kbest r Hb; simpl.
  - intros [= <-]. split; [left; reflexivity|].
    exists kbest. split; [exact Hb | split; [lra | intros ? ? []]].
  - destruct (key x) as [k | |] eqn:Ek; simpl; try discriminate.
    destruct (Rltb k kbest) eqn:Elt; intros H.
    + apply Rltb_lt in Elt.
      destruct (IH x k r Ek H) as (Hin & kr & Hkr & Hle & Hall).
      split; [right; destruct Hin; [left; congruence | right; assumption]|].
      exists kr. split; [exact Hkr | split; [lra|]].
      intros y ky [<- | Hy] Hky; [rewrite Ek in Hky; injection Hky as <-; lra|].
      eapply Hall; eassumption.
    + apply Rltb_ge in Elt.
      destruct (IH best kbest r Hb H) as (Hin & kr & Hkr & Hle & Hall).
      split; [destruct Hin; [left; assumption | right; right; assumption]|].
      exists kr. split; [exact Hkr | split; [lra|]].
      intros y ky [<- | Hy] Hky; [rewrite Ek in Hky; injection Hky as <-; lra|].
      eapply Hall; eassumption.
Qed.

Lemma min_scan_total (l : list A) :
  (forall x, In x l -> exists k, key x = Ok k) ->
  forall best kbest, exists r, min_scan key best kbest l = Ok r.
Proof.
  induction l as [| x l IH]; intros Hall best kbest; simpl.
  - exists best. reflexivity.
  - destruct (Hall x (or_introl eq_refl)) as [k ->]. simpl.
    destruct (Rltb k kbest); apply IH; intros y Hy; apply Hall; right; exact Hy.
Qed.

Lemma py_min_least (l : list A) (r : A) :
  py_min key l = Ok r ->
  In r l /\
  exists kr, key r = Ok kr /\ forall x kx, In x l -> key x = Ok kx -> kr <= kx.
Proof.
  destruct l as [| x l]; simpl; [discriminate|].
  destruct (key x) as [k | |] eqn:Ek; simpl; try discriminate.
  intros H. destruct (min_scan_least l x k r Ek H) as (Hin & kr & Hkr & Hle & Hall).
  split; [destruct Hin; [left; congruence | right; assumption]|].
  exists kr. split; [exact Hkr|].
  intros y ky [<- | Hy] Hky; [rewrite Ek in Hky; injection Hky as <-; lra|].
  eapply Hall; eassumption.
Qed.

Lemma py_min_total (l : list A) :
  l <> [] -> (forall x, In x l -> exists k, key x = Ok k) ->
  exists r, py_min key l = Ok r.
Proof.
  destruct l as [| x l]; [congruence|]. intros _ Hall. simpl.
  destruct (Hall x (or_introl eq_refl)) as [k ->]. simpl.
  apply min_scan_total. intros y Hy. apply Hall. right. exact Hy.
Qed.
End MinFacts.

(** A vertex [nearest_node] returns has the dimension of the query point
    and belongs to the graph. *)
Lemma nearest_node_returns (G : DiGraph) (p : point) (s s' : state) (n : node) :
  nearest_node G p s = (Ok n, s') ->
  In n (nodes G) /\ List.length n = List.length p /\
  data_of s' = data_of s /\ graph_cache s' = graph_cache s /\
  risk_cache s' = risk_cache s.
Proof.
  unfold nearest_node, bind, lift.
  destruct (py_min (fun n0 => math_dist n0 p) (nodes G)) as [c | |] eqn:Em;
    try discriminate.
  destruct (math_dist c p) as [d | |] eqn:Ed; try discriminate.
  apply py_min_least in Em. destruct Em as [Hin _].
  apply math_dist_length in Ed.
  destruct (Rltb MAX_SNAP_DISTANCE d); simpl; intros [= <- <-]; auto.
Qed.



(* ================================================================== *)
(** * Graph construction *)

Lemma has_node_In (G : DiGraph) (n : node) : has_node G n = true <-> In n (nodes G).
Proof. apply (dict_mem_In _ point_eqb_eq). Qed.

Lemma dict_get_add_node (G : DiGraph) (n u : node) :
  dict_get point_eqb (add_node G n) u =
  match dict_get point_eqb G u with
  | Some s => Some s
  | None => if point_eqb n u then Some [] else None
  end.
Proof.
  unfold add_node, has_node, dict_mem.
  destruct (dict_get point_eqb G n) as [sn|] eqn:En.
  - destruct (dict_get point_eqb G u) as [su|] eqn:Eu; [reflexivity|].
    destruct (point_eqb n u) eqn:E; [|reflexivity].
    apply point_eqb_eq in E. congruence.
  - rewrite dict_get_app. destruct (dict_get point_eqb G u); [reflexivity|].
    simpl. destruct (point_eqb n u); reflexivity.
Qed.

Lemma edge_unfold (G : DiGraph) (u v : node) :
  edge G u v =
  match dict_get point_eqb G u with
  | Some s =>
      match dict_get point_eqb s v with
      | Some a => Ok a
      | None => Raise KeyError
      end
  | None => Raise KeyError
  end.
Proof.
  unfold edge, dict_item. destruct (dict_get point_eqb G u); reflexivity.
Qed.


Lemma edge_add_edge_other (G : DiGraph) (u v u' v' : node) (a : edge_attr) :
  (u', v') <> (u, v) ->
  edge (add_edge G u v a) u' v' = edge G u' v'.
Proof.
  intros N. rewrite !edge_unfold. unfold add_edge.
  destruct (point_eqb u u') eqn:Eu.
  - apply point_eqb_eq in Eu. subst u'.
    assert (Nv : v <> v') by congruence.
    rewrite (dict_get_set_same _ point_eqb_eq).
    rewrite (dict_get_set_other _ point_eqb_eq) by exact Nv.
    unfold successors. rewrite !dict_get_add_node, point_eqb_refl.
    destruct (dict_get point_eqb G u); reflexivity.
  - apply point_eqb_neq in Eu.
    rewrite (dict_get_set_other _ point_eqb_eq) by exact Eu.
    rewrite !dict_get_add_node.
    destruct (dict_get point_eqb G u'); [reflexivity|].
    apply point_eqb_neq in Eu. rewrite Eu.
    destruct (point_eqb v u'); reflexivity.
Qed.

(** ** The memoised build agrees with the fresh graph *)

Lemma build_edge_fresh (hour : Z) (alpha : R) (G : DiGraph) (sid : hkey)
    (seg : json) (s : state) :
  risk_memo_ok s ->
  fst (build_edge hour alpha G sid seg s) =
    fresh_edge (RISK_CONFIG s) (SEGMENTS_BY_ID s) (SEGMENT_DISTANCES s)
      hour alpha G sid seg /\
  same_but_risk_cache s (snd (build_edge hour alpha G sid seg s)) /\
  risk_memo_ok (snd (build_edge hour alpha G sid seg s)).
Proof.
  intros Hok. unfold build_edge, fresh_edge, bind, lift, read, ret.
  assert (Hrefl : same_but_risk_cache s s) by (destruct s; reflexivity).
  destruct (let? j := getitem seg "start" in coords_of j) as [start | e |];
    simpl; auto.
  destruct (let? j := getitem seg "end" in coords_of j) as [stop | e |];
    simpl; auto.
  destruct (calculate_risk_memo s sid hour Hok) as (Hv & Hd & Hok' & Hg & Ht).
  assert (Hsame : same_but_risk_cache s (snd (calculate_risk sid hour s))).
  { unfold calculate_risk, lru_cached.
    destruct (dict_get risk_key_eqb (risk_cache s) (sid, hour)); simpl.
    - destruct s; reflexivity.
    - destruct (calculate_risk_body _ _ _ _); simpl; destruct s; reflexivity. }
  destruct (calculate_risk sid hour s) as [r s1]. simpl in *. rewrite <- Hv.
  destruct r as [rsk | e |]; simpl; auto.
  assert (Ed : SEGMENT_DISTANCES s1 = SEGMENT_DISTANCES s)
    by (unfold data_of in Hd; congruence).
  rewrite Ed.
  destruct (let? d := dict_item hkey_eqb (SEGMENT_DISTANCES s) sid in
            compute_eta d DEFAULT_SPEED_KMPH) as [et | e |]; simpl; auto.
  destruct (let? a := getitem seg "start" in
            let? b := getitem seg "end" in Ok (a, b)) as [g | e |]; simpl; auto.
Qed.

Lemma same_but_risk_cache_trans (s s1 s2 : state) :
  same_but_risk_cache s s1 -> same_but_risk_cache s1 s2 -> same_but_risk_cache s s2.
Proof.
  unfold same_but_risk_cache. intros H1 H2. rewrite H2 at 1. rewrite H1.
  destruct s; reflexivity.
Qed.

Lemma build_edges_fresh (hour : Z) (alpha : R) (items : list (hkey * json)) :
  forall (G : DiGraph) (s : state),
    risk_memo_ok s ->
    fst (build_edges hour alpha G items s) =
      fresh_edges (RISK_CONFIG s) (SEGMENTS_BY_ID s) (SEGMENT_DISTANCES s)
        hour alpha G items /\
    same_but_risk_cache s (snd (build_edges hour alpha G items s)) /\
    risk_memo_ok (snd (build_edges hour alpha G items s)).
Proof.
  induction items as [| [sid seg] rest IH]; intros G s Hok; simpl.
  - repeat split; [destruct s; reflexivity | exact Hok].
  - unfold bind.
    destruct (build_edge_fresh hour alpha G sid seg s Hok) as (Hv & Hs & Hok1).
    destruct (build_edge hour alpha G sid seg s) as [r s1]. simpl in *.
    rewrite <- Hv. destruct r as [G' | e |]; simpl; auto.
    destruct (IH G' s1 Hok1) as (Hv2 & Hs2 & Hok2).
    assert (E : (RISK_CONFIG s1, SEGMENTS_BY_ID s1, SEGMENT_DISTANCES s1) =
                (RISK_CONFIG s, SEGMENTS_BY_ID s, SEGMENT_DISTANCES s))
      by (rewrite Hs; reflexivity).
    injection E as E1 E2 E3. rewrite E1, E2, E3 in Hv2.
    repeat split; [exact Hv2 | | exact Hok2].
    eapply same_but_risk_cache_trans; eassumption.
Qed.

Lemma build_graph_body_fresh (hour : Z) (alpha ts : R) (s : state) :
  risk_memo_ok s ->
  fst (build_graph_body hour alpha ts s) = fresh_graph s hour alpha /\
  same_but_risk_cache s (snd (build_graph_body hour alpha ts s)) /\
  risk_memo_ok (snd (build_graph_body hour alpha ts s)).
Proof.
  intros Hok. unfold build_graph_body, bind, read, fresh_graph.
  apply build_edges_fresh. exact Hok.
Qed.

(** ** The edges of the built graph *)

Section FreshEdges.
Variable s : state.
Variable hour : Z.
Variable alpha : R.

Local Abbreviation fresh_edge_s :=
  (fresh_edge (RISK_CONFIG s) (SEGMENTS_BY_ID s) (SEGMENT_DISTANCES s) hour alpha).
Local Abbreviation fresh_edges_s :=
  (fresh_edges (RISK_CONFIG s) (SEGMENTS_BY_ID s) (SEGMENT_DISTANCES s) hour alpha).




End FreshEdges.


Lemma one_road_fresh_graph :
  fresh_graph one_road_state 10 (1 / 2) = Ok one_road_graph.
Proof.
  unfold fresh_graph, one_road_state, startup, one_road, dataset, segment_record.
  unfold fresh_edges, fresh_edge, calculate_risk_body. evaluate.
  repeat sqrt_is 1. round2_is 200%Z. round2_is 60%Z.
  replace (200 / 100) with 2 by lra.
  replace (60 / 100) with (6 / 10) by lra.
  replace (1 / 2 * 2 + (1 - 1 / 2) * (6 / 10)) with (13 / 10) by lra.
  reflexivity.
Qed.

Lemma one_road_reachable : reachable one_road_state.
Proof. apply reachable_startup. Qed.






(* ================================================================== *)
(** * Route computation *)

Lemma truthy_length (n : node) (p : point) :
  List.length n = List.length p -> p <> [] -> truthy n = true.
Proof. destruct n, p; simpl; congruence. Qed.

Lemma nearest_node_truthy (G : DiGraph) (p : point) (s s' : state) (n : node) :
  nearest_node G p s = (Ok n, s') -> p <> [] -> truthy n = true.
Proof.
  intros H Hp. apply nearest_node_returns in H.
  destruct H as (_ & Hlen & _). eapply truthy_length; eassumption.
Qed.

(** C9: for query points that have coordinates, [compute_route] never
    answers "Origin too far from known roads" nor "Destination too far from
    known roads": a vertex [nearest_node] returns is a non-empty tuple. *)
Theorem compute_route_never_too_far
    (fuel : nat) (origin destination : point) (hour : Z) (alpha now : R)
    (s : state) :
  origin <> [] -> destination <> [] ->
  fst (compute_route fuel origin destination hour alpha now s)
    <> Ok (NotFound "Origin too far from known roads") /\
  fst (compute_route fuel origin destination hour alpha now s)
    <> Ok (NotFound "Destination too far from known roads").
Proof.
  intros Ho Hd. unfold compute_route, bind.
  destruct (auto_clear_cache now s) as [[[] | e |] s1]; simpl;
    try (split; discriminate).
  destruct (build_graph hour alpha (DATASET_TIMESTAMP s1) s1) as [[G | e |] s2];
    simpl; try (split; discriminate).
  destruct (nearest_node G origin s2) as [[o | e |] s3] eqn:Eo; simpl;
    try (split; discriminate).
  destruct (nearest_node G destination s3) as [[t | e |] s4] eqn:Et; simpl;
    try (split; discriminate).
  rewrite (nearest_node_truthy _ _ _ _ _ Eo Ho).
  rewrite (nearest_node_truthy _ _ _ _ _ Et Hd). simpl.
  unfold try_except, bind, emit, modify, lift, ret.
  destruct (astar_path fuel G o t) as [path | e |]; simpl;
    try (split; discriminate).
  - destruct (List.length path =? 1)%nat; simpl; [split; discriminate|].
    destruct (assemble G path); simpl; split; discriminate.
  - destruct e; simpl; split; discriminate.
Qed.

Lemma compute_route_never_too_far_witness :
  fst (compute_route 5 near_origin near_destination 10 (1 / 2) 0 one_road_state)
    <> Ok (NotFound "Origin too far from known roads") /\
  fst (compute_route 5 near_origin near_destination 10 (1 / 2) 0 one_road_state)
    <> Ok (NotFound "Destination too far from known roads").
Proof.
  apply (compute_route_never_too_far 5 near_origin near_destination 10 (1 / 2) 0
           one_road_state); discriminate.
Defined.

(** ** Running a query step by step *)

Lemma auto_clear_cache_recent (now : R) (s : state) :
  now - LAST_CACHE_CLEAR s <= GRAPH_CACHE_TTL ->
  auto_clear_cache now s = (Ok tt, s).
Proof.
  intros H. unfold auto_clear_cache, bind, read.
  rewrite Rltb_false by exact H. reflexivity.
Qed.

Lemma build_graph_hit (hour : Z) (alpha ts : R) (s : state) (G : DiGraph) :
  dict_get graph_key_eqb (graph_cache s) (hour, alpha, ts) = Some G ->
  build_graph hour alpha ts s =
    (Ok G,
     set_graph_cache (lru_hit graph_key_eqb (graph_cache s) (hour, alpha, ts) G) s).
Proof. intros H. unfold build_graph, lru_cached. rewrite H. reflexivity. Qed.

Lemma build_graph_miss (hour : Z) (alpha ts : R) (s : state) (G : DiGraph) :
  risk_memo_ok s ->
  dict_get graph_key_eqb (graph_cache s) (hour, alpha, ts) = None ->
  fresh_graph s hour alpha = Ok G ->
  exists c,
    build_graph hour alpha ts s =
      (Ok G,
       set_graph_cache (lru_store 200 (graph_cache s) (hour, alpha, ts) G)
         (set_risk_cache c s)) /\
    risk_memo_ok (set_risk_cache c s).
Proof.
  intros Hok Hmiss HG. unfold build_graph, lru_cached. rewrite Hmiss.
  destruct (build_graph_body_fresh hour alpha ts s Hok) as (Hv & Hs & Hok').
  destruct (build_graph_body hour alpha ts s) as [r s1]. simpl in *.
  rewrite HG in Hv. subst r.
  assert (Eg : graph_cache s1 = graph_cache s) by (rewrite Hs; reflexivity).
  exists (risk_cache s1). rewrite <- Hs, Eg. split; [reflexivity | exact Hok'].
Qed.

(** The search from a vertex to itself ends at its first turn. *)
Lemma astar_path_same (fuel : nat) (G : DiGraph) (n : node) :
  In n (nodes G) -> astar_path (S fuel) G n n = Ok [n].
Proof.
  intros Hin. apply has_node_In in Hin. unfold astar_path. rewrite Hin. simpl.
  rewrite point_eqb_refl. destruct fuel; reflexivity.
Qed.

Lemma compute_route_run
    (fuel : nat) (origin destination : point) (hour : Z) (alpha now : R)
    (s s1 s2 s3 : state) (G : DiGraph) (o t : node) :
  graph_for_query hour alpha now s = (Ok G, s1) ->
  nearest_node G origin s1 = (Ok o, s2) ->
  nearest_node G destination s2 = (Ok t, s3) ->
  origin <> [] -> destination <> [] ->
  compute_route fuel origin destination hour alpha now s =
    match astar_path fuel G o t with
    | Ok path =>
        if (List.length path =? 1)%nat
        then (Ok (Found (trivial_route path)),
              set_trace (trace s3 ++ [CallAstar o t]) s3)
        else
          match assemble G path with
          | Ok r => (Ok (Found r), set_trace (trace s3 ++ [CallAstar o t]) s3)
          | Raise e => (Raise e, set_trace (trace s3 ++ [CallAstar o t]) s3)
          | Diverge => (Diverge, set_trace (trace s3 ++ [CallAstar o t]) s3)
          end
    | Raise NetworkXNoPath =>
        (Ok (NotFound "No route available"),
         set_trace (trace s3 ++ [CallAstar o t]) s3)
    | Raise e =>
        (Ok (NotFound "Routing failure"),
         set_trace ((trace s3 ++ [CallAstar o t]) ++ [PrintExc e]) s3)
    | Diverge => (Diverge, set_trace (trace s3 ++ [CallAstar o t]) s3)
    end.
Proof.
  intros HG Ho Ht Hno Hnd. unfold graph_for_query in HG.
  unfold compute_route.
  unfold bind in HG |- *.
  destruct (auto_clear_cache now s) as [[[] | e |] s0]; try discriminate.
  unfold read in HG |- *. rewrite HG, Ho, Ht.
  rewrite (nearest_node_truthy _ _ _ _ _ Ho Hno).
  rewrite (nearest_node_truthy _ _ _ _ _ Ht Hnd). simpl.
  unfold try_except, bind, emit, modify, lift, ret.
  destruct (astar_path fuel G o t) as [path | e |]; simpl.
  - destruct (List.length path =? 1)%nat; [reflexivity|].
    destruct (assemble G path); reflexivity.
  - destruct e; reflexivity.
  - reflexivity.
Qed.

(** ** The fixture [one_road] *)

Lemma one_road_graph_for_query :
  exists c,
    graph_for_query 10 (1 / 2) 0 one_road_state =
      (Ok one_road_graph,
       set_graph_cache [(one_road_key, one_road_graph)]
         (set_risk_cache c one_road_state)) /\
    risk_memo_ok (set_risk_cache c one_road_state).
Proof.
  destruct (build_graph_miss 10 (1 / 2) 0 one_road_state one_road_graph)
    as (c & Hb & Hok).
  - apply reachable_risk_memo_ok, one_road_reachable.
  - reflexivity.
  - exact one_road_fresh_graph.
  - exists c. split; [| exact Hok].
    unfold graph_for_query, bind.
    rewrite auto_clear_cache_recent
      by (unfold GRAPH_CACHE_TTL; simpl; lra).
    unfold read. simpl DATASET_TIMESTAMP. rewrite Hb. reflexivity.
Qed.

Lemma one_road_nearest_start (s : state) :
  nearest_node one_road_graph near_origin s = (Ok [0; 0], s).
Proof.
  unfold nearest_node, one_road_graph, near_origin, bind, lift.
  evaluate_with ltac:(first [sqrt_is 0 | sqrt_is 1]). reflexivity.
Qed.

Lemma one_road_nearest_end (s : state) :
  nearest_node one_road_graph near_destination s = (Ok [1; 0], s).
Proof.
  unfold nearest_node, one_road_graph, near_destination, bind, lift.
  evaluate_with ltac:(first [sqrt_is 0 | sqrt_is 1]). reflexivity.
Qed.

Lemma one_road_nearest_off_road (s : state) :
  nearest_node one_road_graph off_road s =
    (Ok [0; 0], set_trace (trace s ++ [LogWarning "Snapping far point for demo"]) s).
Proof.
  unfold nearest_node, one_road_graph, off_road, bind, lift.
  evaluate_with ltac:(first [sqrt_is (3 / 4) | sqrt_is (5 / 4)]). reflexivity.
Qed.

(** C5, as stated, fails: when both points resolve to the vertex (0,0) the
    answer is the trivial route, but the search has been invoked to obtain
    its one-vertex path. *)
Lemma same_vertex_query_invokes_search :
  fst (compute_route 5 near_origin off_road 10 (1 / 2) 0 one_road_state)
    = Ok (Found (trivial_route [[0; 0]])) /\
  In (CallAstar [0; 0] [0; 0])
     (trace (snd (compute_route 5 near_origin off_road 10 (1 / 2) 0 one_road_state))).
Proof.
  destruct one_road_graph_for_query as (c & HG & _).
  rewrite (compute_route_run 5 near_origin off_road 10 (1 / 2) 0 _ _ _ _ _ _ _
             HG (one_road_nearest_start _) (one_road_nearest_off_road _))
    by discriminate.
  rewrite astar_path_same by (simpl; auto).
  simpl. split; [reflexivity|]. tauto.
Qed.

(** C5, amended: whenever origin and destination resolve to the same
    vertex, the route computation does invoke the search, which returns the
    one-vertex path at its first turn, and then answers that path with
    eta = 0, risk = 0, confidence = 1 and the advisory message. *)
Theorem compute_route_same_vertex
    (fuel : nat) (origin destination : point) (hour : Z) (alpha now : R)
    (s s1 s2 s3 : state) (G : DiGraph) (n : node) :
  graph_for_query hour alpha now s = (Ok G, s1) ->
  nearest_node G origin s1 = (Ok n, s2) ->
  nearest_node G destination s2 = (Ok n, s3) ->
  origin <> [] -> destination <> [] ->
  compute_route (S fuel) origin destination hour alpha now s =
    (Ok (Found (mk_route [n] 0 0 1 None
                  (Some "Origin and destination are extremely close"%string))),
     set_trace (trace s3 ++ [CallAstar n n]) s3) /\
  astar_path (S fuel) G n n = Ok [n].
Proof.
  intros HG Ho Ht Hno Hnd.
  assert (Hin : In n (nodes G)) by (apply nearest_node_returns in Ho; tauto).
  rewrite (compute_route_run _ _ _ _ _ _ _ _ _ _ _ _ _ HG Ho Ht Hno Hnd).
  rewrite (astar_path_same fuel G n Hin). split; reflexivity.
Qed.

Lemma compute_route_same_vertex_witness :
  exists s1 s3,
    compute_route 5 near_origin off_road 10 (1 / 2) 0 one_road_state =
      (Ok (Found (mk_route [[0; 0]] 0 0 1 None
                    (Some "Origin and destination are extremely close"%string))),
       set_trace (trace s3 ++ [CallAstar [0; 0] [0; 0]]) s3) /\
    astar_path 5 one_road_graph [0; 0] [0; 0] = Ok [[0; 0]] /\
    graph_for_query 10 (1 / 2) 0 one_road_state = (Ok one_road_graph, s1).
Proof.
  destruct one_road_graph_for_query as (c & HG & _).
  eexists. eexists.
  split; [| split; [| exact HG]];
    apply (compute_route_same_vertex 4 near_origin off_road 10 (1 / 2) 0
             one_road_state _ _ _ one_road_graph [0; 0] HG
             (one_road_nearest_start _) (one_road_nearest_off_road _));
    discriminate.
Defined.

Lemma walk_back_None (fuel : nat) (ex : list (node * option node)) :
  walk_back fuel ex None = Ok [].
Proof. destruct fuel; reflexivity. Qed.

Lemma one_road_astar (fuel : nat) :
  astar_path (S (S (S fuel))) one_road_graph [0; 0] [1; 0] = Ok one_road_path.
Proof.
  unfold astar_path, one_road_graph.
  evaluate_with ltac:(idtac; sqrt_is 0).
  rewrite walk_back_None. reflexivity.
Qed.

Lemma one_road_assemble : assemble one_road_graph one_road_path = Ok one_road_route.
Proof.
  unfold assemble, one_road_graph, one_road_path. evaluate.
  replace ((0 + 6 / 10) / 1) with (6 / 10) by lra.
  round2_is 60%Z. evaluate.
  rewrite (round2_tie (1 / (1 + 60 / 100)) 62) by lra.
  replace (0 + 2) with (200 / 100) by lra. rewrite round2_exact.
  unfold one_road_route, one_road_path. simpl Z.even. cbv iota.
  replace (200 / 100) with 2 by lra.
  replace (60 / 100) with (6 / 10) by lra.
  reflexivity.
Qed.

(* ================================================================== *)
(** * The route handler and the [speed] field *)

(** C10: two [/get_routes] requests that are identical except in the value
    of [speed] get the same answer and leave the same state: the value is
    read and never used. *)
Theorem get_routes_ignores_speed
    (fuel : nat) (a b : request) (now : R) (s : state) :
  same_except_speed a b ->
  get_routes fuel a now s = get_routes fuel b now s.
Proof.
  intros (Haddr & o1 & o2 & Ha & Hb & Hsame).
  unfold get_routes. rewrite Haddr, Ha, Hb.
  unfold bind. destruct (rate_limit (remote_addr b) now s) as [[allowed | e |] s1];
    try reflexivity.
  destruct (negb allowed); [reflexivity|].
  unfold lift, json_get.
  rewrite (Hsame "origin"%string) by discriminate.
  rewrite (Hsame "destination"%string) by discriminate.
  rewrite (Hsame "hour"%string) by discriminate.
  rewrite (Hsame "alpha"%string) by discriminate.
  rewrite (Hsame "type"%string) by discriminate.
  reflexivity.
Qed.

Lemma trips_same_except_speed (v w : json) : same_except_speed (trip v) (trip w).
Proof.
  split; [reflexivity|]. eexists. eexists.
  split; [reflexivity|]. split; [reflexivity|].
  intros k Hk.
  match goal with
  | |- dict_get _ [?a; ?b; ?c; ?d; ?e; ?f] _ = dict_get _ [_; _; _; _; _; ?g] _ =>
      change (dict_get String.eqb ([a; b; c; d; e] ++ [f]) k =
              dict_get String.eqb ([a; b; c; d; e] ++ [g]) k)
  end.
  rewrite !dict_get_app.
  destruct (dict_get String.eqb _ k); [reflexivity|].
  unfold dict_get. destruct (String.eqb "speed" k) eqn:E; [|reflexivity].
  apply String.eqb_eq in E. congruence.
Qed.

Lemma get_routes_ignores_speed_witness :
  get_routes 5 (trip (JInt 5)) 0 one_road_state =
  get_routes 5 (trip (JInt 120)) 0 one_road_state.
Proof.
  apply (get_routes_ignores_speed 5 (trip (JInt 5)) (trip (JInt 120)) 0
           one_road_state).
  apply trips_same_except_speed.
Defined.

(* ================================================================== *)
(** * Cache invalidation *)

Lemma dict_get_lru_store {K V : Type} (eqb : K -> K -> bool) (n : nat)
    (c : list (K * V)) (k : K) (v : V) :
  eqb k k = true -> dict_get eqb (lru_store (S n) c k v) k = Some v.
Proof. intros H. unfold lru_store. cbn [firstn dict_get]. rewrite H. reflexivity. Qed.

Lemma dict_get_lru_hit {K V : Type} (eqb : K -> K -> bool)
    (c : list (K * V)) (k : K) (v : V) :
  eqb k k = true -> dict_get eqb (lru_hit eqb c k v) k = Some v.
Proof. intros H. unfold lru_hit. cbn [dict_get]. rewrite H. reflexivity. Qed.

Lemma graph_key_eqb_refl (k : graph_key) : graph_key_eqb k k = true.
Proof. apply graph_key_eqb_eq. reflexivity. Qed.

(** A hit of the graph memo returns the stored graph and builds nothing:
    a second call with the same key returns the graph of the first and
    leaves the risk memo as it was. *)
Lemma build_graph_repeated (hour : Z) (alpha ts : R) (s : state) (G : DiGraph) :
  fst (build_graph hour alpha ts s) = Ok G ->
  fst (build_graph hour alpha ts (snd (build_graph hour alpha ts s))) = Ok G /\
  risk_cache (snd (build_graph hour alpha ts (snd (build_graph hour alpha ts s))))
    = risk_cache (snd (build_graph hour alpha ts s)).
Proof.
  intros H.
  assert (Hin : dict_get graph_key_eqb
                  (graph_cache (snd (build_graph hour alpha ts s)))
                  (hour, alpha, ts) = Some G).
  { unfold build_graph, lru_cached in H |- *.
    destruct (dict_get graph_key_eqb (graph_cache s) (hour, alpha, ts))
      as [G0|] eqn:E.
    - cbn [fst snd] in H |- *. injection H as ->.
      apply dict_get_lru_hit, graph_key_eqb_refl.
    - destruct (build_graph_body hour alpha ts s) as [[G1 | e |] s1];
        cbn [fst snd] in H |- *; try discriminate.
      injection H as ->.
      apply dict_get_lru_store, graph_key_eqb_refl. }
  rewrite (build_graph_hit _ _ _ _ _ Hin). split; reflexivity.
Qed.

(** A dataset reload empties both memo tables. *)
Lemma reload_data_clears_caches (file : res json) (now : R) (s : state) :
  fst (reload_data file now s) <> Diverge ->
  risk_cache (snd (reload_data file now s)) = [] /\
  graph_cache (snd (reload_data file now s)) = [].
Proof. apply reload_data_risk_memo. Qed.

(** A configuration update leaves the graph memo as it is. *)
Lemma config_risk_keeps_graph_cache (body : res (list (string * json))) (s : state) :
  graph_cache (snd (config_risk body s)) = graph_cache s.
Proof.
  unfold config_risk, try_except, bind, lift.
  destruct body as [data | e |]; reflexivity.
Qed.

Lemma one_road_first_query :
  exists c,
    compute_route 5 near_origin near_destination 10 (1 / 2) 0 one_road_state =
      (Ok (Found one_road_route),
       set_trace (trace one_road_state ++ [CallAstar [0; 0] [1; 0]])
         (set_graph_cache [(one_road_key, one_road_graph)]
            (set_risk_cache c one_road_state))).
Proof.
  destruct one_road_graph_for_query as (c & HG & _). exists c.
  rewrite (compute_route_run 5 near_origin near_destination 10 (1 / 2) 0 _ _ _ _ _ _ _
             HG (one_road_nearest_start _) (one_road_nearest_end _))
    by discriminate.
  rewrite one_road_astar. simpl. rewrite one_road_assemble. reflexivity.
Qed.

(** C1 fails on the code: after a route query on [one_road], an update of
    the risk configuration that sets the crime weight to 0 answers
    "Risk config updated" and leaves the graph memo untouched; the same
    query then gets the graph built under the old configuration, risk 0.6,
    although the score of the segment is now 0. *)
Theorem config_update_serves_stale_graph :
  let s1 :=
    snd (compute_route 5 near_origin near_destination 10 (1 / 2) 0 one_road_state) in
  let s2 := snd (config_risk (Ok zero_crime_weight) s1) in
  fst (config_risk (Ok zero_crime_weight) s1)
    = Ok (Success (Message "Risk config updated")) /\
  graph_cache s2 = [(one_road_key, one_road_graph)] /\
  risk_cache s2 = [] /\
  calculate_risk_body (RISK_CONFIG s2) (SEGMENTS_BY_ID s2) (KStr "ab") 10 = Ok 0 /\
  fst (compute_route 5 near_origin near_destination 10 (1 / 2) 1 s2)
    = Ok (Found one_road_route) /\
  route_risk one_road_route = 6 / 10.
Proof.
  destruct one_road_first_query as (c & Hq). rewrite Hq. cbv zeta.
  split; [reflexivity|]. split; [reflexivity|]. split; [reflexivity|]. split.
  - unfold calculate_risk_body. evaluate. round2_is 0%Z. f_equal. lra.
  - split; [| reflexivity].
    match goal with
    | |- fst (compute_route _ _ _ _ _ _ ?s) = _ => set (s2 := s)
    end.
    assert (HG : graph_for_query 10 (1 / 2) 1 s2 =
                 (Ok one_road_graph,
                  set_graph_cache
                    (lru_hit graph_key_eqb (graph_cache s2) one_road_key one_road_graph)
                    s2)).
    { unfold graph_for_query, bind.
      rewrite auto_clear_cache_recent
        by (unfold GRAPH_CACHE_TTL; simpl; lra).
      unfold read. apply build_graph_hit.
      unfold s2. simpl. unfold one_road_key, graph_key_eqb.
      Rdecide. reflexivity. }
    rewrite (compute_route_run 5 near_origin near_destination 10 (1 / 2) 1 _ _ _ _ _ _ _
               HG (one_road_nearest_start _) (one_road_nearest_end _))
      by discriminate.
    rewrite one_road_astar. simpl. rewrite one_road_assemble. reflexivity.
Qed.

(* ================================================================== *)
(** * Dataset reload *)

(** Whatever the file holds, a reload that returns answers "Dataset
    reloaded": [load_dataset] catches every exception itself. *)
Lemma reload_data_answers_success (file : res json) (now : R) (s : state) :
  fst (reload_data file now s) <> Diverge ->
  fst (reload_data file now s) = Ok (Success (Message "Dataset reloaded")).
Proof.
  unfold reload_data, try_except, bind.
  pose proof (load_dataset_returns file now s) as Hr.
  destruct (load_dataset file now s) as [[[] | e |] s1]; simpl.
  - reflexivity.
  - exfalso. apply (Hr e). reflexivity.
  - intros H. exfalso. apply H. reflexivity.
Qed.

(** A dataset the schema check rejects leaves both maps untouched. *)
Lemma rejected_dataset_keeps_store (data : json) (now : R) (s : state) (e : exn) :
  validate_dataset_schema data = Raise e ->
  SEGMENTS_BY_ID (snd (reload_data (Ok data) now s)) = SEGMENTS_BY_ID s /\
  SEGMENT_DISTANCES (snd (reload_data (Ok data) now s)) = SEGMENT_DISTANCES s /\
  DATASET_TIMESTAMP (snd (reload_data (Ok data) now s)) = DATASET_TIMESTAMP s.
Proof.
  intros H. unfold reload_data, try_except, bind, load_dataset, load_dataset_try,
    try_except, bind, lift.
  rewrite H. simpl. repeat split.
Qed.

(** C2 fails on the code.  A reload of [incomplete_dataset], which the
    schema check rejects, answers "Dataset reloaded".  A reload of
    [half_loadable_dataset] passes the check, empties both maps, stores
    both records in the segment map and one length, prints the
    [ValueError] of [math.dist], and answers "Dataset reloaded" as well:
    the segment of [one_road] is gone and the maps disagree. *)
Theorem reload_hides_failures :
  validate_dataset_schema incomplete_dataset = Raise AssertionError /\
  fst (reload_data (Ok incomplete_dataset) 1 one_road_state)
    = Ok (Success (Message "Dataset reloaded")) /\
  validate_dataset_schema half_loadable_dataset = Ok tt /\
  fst (reload_data (Ok half_loadable_dataset) 1 one_road_state)
    = Ok (Success (Message "Dataset reloaded")) /\
  map fst (SEGMENTS_BY_ID (snd (reload_data (Ok half_loadable_dataset) 1 one_road_state)))
    = [KStr "n"; KStr "bad"] /\
  map fst (SEGMENT_DISTANCES (snd (reload_data (Ok half_loadable_dataset) 1 one_road_state)))
    = [KStr "n"] /\
  map fst (SEGMENTS_BY_ID one_road_state) = [KStr "ab"] /\
  DATASET_TIMESTAMP (snd (reload_data (Ok half_loadable_dataset) 1 one_road_state))
    = DATASET_TIMESTAMP one_road_state /\
  In (PrintExc ValueError)
     (trace (snd (reload_data (Ok half_loadable_dataset) 1 one_road_state))).
Proof.
  repeat split; try reflexivity.
  simpl. tauto.
Qed.

(* ================================================================== *)
(** * The search on the fixture [detour] *)

Lemma detour_fresh_safest :
  fresh_graph detour_state 10 0 = Ok detour_safest_graph.
Proof.
  unfold fresh_graph, detour_state, startup, detour, dataset, segment_record.
  unfold fresh_edges, fresh_edge, calculate_risk_body.
  evaluate_with ltac:(first [sqrt_is 1 | sqrt_is 2 | sqrt_is 3]).
  round2_is 200%Z. round2_is 600%Z. round2_is 400%Z.
  round2_is 60%Z. round2_is 0%Z.
  unfold detour_safest_graph, detour_geometry.
  replace (200 / 100) with 2 by lra.
  replace (600 / 100) with 6 by lra.
  replace (400 / 100) with 4 by lra.
  replace (60 / 100) with (6 / 10) by lra.
  replace (0 / 100) with 0 by lra.
  replace (0 * 2 + (1 - 0) * (6 / 10)) with (6 / 10) by lra.
  replace (0 * 6 + (1 - 0) * 0) with 0 by lra.
  replace (0 * 4 + (1 - 0) * 0) with 0 by lra.
  reflexivity.
Qed.

Lemma detour_fresh_shortest :
  fresh_graph detour_state 10 1 = Ok detour_shortest_graph.
Proof.
  unfold fresh_graph, detour_state, startup, detour, dataset, segment_record.
  unfold fresh_edges, fresh_edge, calculate_risk_body.
  evaluate_with ltac:(first [sqrt_is 1 | sqrt_is 2 | sqrt_is 3]).
  round2_is 200%Z. round2_is 600%Z. round2_is 400%Z.
  round2_is 60%Z. round2_is 0%Z.
  unfold detour_shortest_graph, detour_geometry.
  replace (200 / 100) with 2 by lra.
  replace (600 / 100) with 6 by lra.
  replace (400 / 100) with 4 by lra.
  replace (60 / 100) with (6 / 10) by lra.
  replace (0 / 100) with 0 by lra.
  replace (1 * 2 + (1 - 1) * (6 / 10)) with 2 by lra.
  replace (1 * 6 + (1 - 1) * 0) with 6 by lra.
  replace (1 * 4 + (1 - 1) * 0) with 4 by lra.
  reflexivity.
Qed.

Lemma detour_astar_safest (fuel : nat) :
  astar_path (S (S (S fuel))) detour_safest_graph [0; 0] [1; 0] = Ok direct_path.
Proof.
  unfold astar_path, detour_safest_graph.
  evaluate_with ltac:(first [sqrt_is 0 | sqrt_is 2]).
  unfold entry_ltb. evaluate.
  rewrite walk_back_None. reflexivity.
Qed.

Lemma detour_astar_shortest (fuel : nat) :
  astar_path (S (S (S fuel))) detour_shortest_graph [0; 0] [1; 0] = Ok direct_path.
Proof.
  unfold astar_path, detour_shortest_graph.
  evaluate_with ltac:(first [sqrt_is 0 | sqrt_is 2]).
  unfold entry_ltb. evaluate.
  rewrite walk_back_None. reflexivity.
Qed.



(* ================================================================== *)
(** * The search: the heap *)

Lemma entry_ltb_true (a b : qentry) : entry_ltb a b = true -> q_prio a <= q_prio b.
Proof.
  unfold entry_ltb. intros H. apply orb_true_iff in H. destruct H as [H | H].
  - apply Rltb_lt in H. lra.
  - apply andb_true_iff in H. destruct H as [H _]. apply Reqb_eq in H. lra.
Qed.

Lemma entry_ltb_false (a b : qentry) : entry_ltb a b = false -> q_prio b <= q_prio a.
Proof.
  unfold entry_ltb. intros H. apply orb_false_iff in H. destruct H as [H _].
  apply Rltb_ge in H. exact H.
Qed.

Lemma heap_min_In (q : list qentry) : forall best, In (heap_min best q) (best :: q).
Proof.
  induction q as [| e q IH]; intros b; simpl; [left; reflexivity|].
  specialize (IH (if entry_ltb e b then e else b)). simpl in IH.
  destruct IH as [IH | IH]; [| right; right; exact IH].
  destruct (entry_ltb e b); [right; left | left]; exact IH.
Qed.

Lemma heap_min_le (q : list qentry) :
  forall b e, In e (b :: q) -> q_prio (heap_min b q) <= q_prio e.
Proof.
  induction q as [| x q IH]; intros b e; simpl.
  - intros [<- | []]. lra.
  - intros Hin.
    pose proof (IH (if entry_ltb x b then x else b)) as IH'.
    assert (Hb : q_prio (heap_min (if entry_ltb x b then x else b) q) <= q_prio b
                 /\ q_prio (heap_min (if entry_ltb x b then x else b) q) <= q_prio x).
    { pose proof (IH' (if entry_ltb x b then x else b) (or_introl eq_refl)) as H0.
      destruct (entry_ltb x b) eqn:E.
      - apply entry_ltb_true in E. split; lra.
      - apply entry_ltb_false in E. split; lra. }
    destruct Hin as [<- | [<- | Hin]]; try tauto.
    apply IH'. right. exact Hin.
Qed.

Lemma heap_remove_spec (c : nat) (q : list qentry) :
  NoDup (map q_count q) ->
  (forall e, In e (heap_remove c q) <-> In e q /\ q_count e <> c) /\
  NoDup (map q_count (heap_remove c q)).
Proof.
  induction q as [| x q IH]; simpl; intros Hnd.
  - split; [intros e; tauto | constructor].
  - inversion Hnd as [| ? ? Hx Hq]; subst.
    destruct (IH Hq) as [IH1 IH2].
    destruct (Nat.eqb_spec (q_count x) c) as [E | E].
    + split; [| exact Hq]. intros e. split.
      * intros He. split; [right; exact He|]. intros Ec. apply Hx.
        rewrite E, <- Ec. apply in_map. exact He.
      * intros [[<- | He] Hc]; [congruence | exact He].
    + split.
      * intros e. simpl. rewrite IH1. split.
        -- intros [<- | [He Hc]]; [split; [left; reflexivity | exact E] | tauto].
        -- intros [[<- | He] Hc]; [left; reflexivity | right; tauto].
      * simpl. constructor; [| exact IH2].
        intros Hin. apply Hx. apply in_map_iff in Hin.
        destruct Hin as (e & Ee & He). apply IH1 in He.
        apply in_map_iff. exists e. tauto.
Qed.

Lemma heappop_spec (q q' : list qentry) (m : qentry) :
  NoDup (map q_count q) ->
  heappop q = Some (m, q') ->
  In m q /\
  (forall e, In e q -> q_prio m <= q_prio e) /\
  (forall e, In e q' <-> In e q /\ q_count e <> q_count m) /\
  NoDup (map q_count q').
Proof.
  intros Hnd. unfold heappop. destruct q as [| x q]; [discriminate|].
  intros [= <- <-].
  split; [apply heap_min_In|]. split; [apply heap_min_le|].
  exact (heap_remove_spec (q_count (heap_min x q)) (x :: q) Hnd).
Qed.


Section SearchCorrect.
Variable G : DiGraph.
Variables s t : node.
Hypothesis G_nodup : forall u succs,
  dict_get point_eqb G u = Some succs -> NoDup (map fst succs).
Hypothesis G_closed : forall u v a, edge G u v = Ok a -> In v (nodes G).
Hypothesis weights_nonneg : forall u v a, edge G u v = Ok a -> 0 <= weight a.
Hypothesis admissible : forall v h q c,
  math_dist v t = Ok h -> walk G v t q -> path_total weight G q = Ok c -> h <= c.
Hypothesis source_in_G : In s (nodes G).
Hypothesis source_neq_target : s <> t.

Local Abbreviation dget := (dict_get point_eqb).

Lemma dget_set_same {V : Type} (d : list (node * V)) (k : node) (v : V) :
  dget (dict_set point_eqb d k v) k = Some v.
Proof. apply (dict_get_set_same _ point_eqb_eq). Qed.

Lemma dget_set_other {V : Type} (d : list (node * V)) (k k' : node) (v : V) :
  k <> k' -> dget (dict_set point_eqb d k v) k' = dget d k'.
Proof. apply (dict_get_set_other _ point_eqb_eq). Qed.

Lemma best_source (E : list (node * (R * R))) : best s E s = 0.
Proof. unfold best. rewrite point_eqb_refl. reflexivity. Qed.

Lemma best_other (E : list (node * (R * R))) (v : node) (g h : R) :
  v <> s -> dget E v = Some (g, h) -> best s E v = g.
Proof.
  intros N H. unfold best. apply point_eqb_neq in N. rewrite N, H. reflexivity.
Qed.

Lemma best_set_other (E : list (node * (R * R))) (u v : node) (gh : R * R) :
  u <> v \/ v = s -> best s (dict_set point_eqb E u gh) v = best s E v.
Proof.
  intros H. unfold best. destruct (point_eqb v s) eqn:Es; [reflexivity|].
  destruct H as [H | H]; [| subst v; rewrite point_eqb_refl in Es; discriminate].
  rewrite dget_set_other by exact H. reflexivity.
Qed.



Lemma closed_pushed (st : astar_state) (v u w : node) (ncost h : R) :
  (dget (enqueued st) u = None \/
   exists qcost, dget (enqueued st) u = Some (qcost, h) /\ ncost <= qcost) ->
  w <> u \/ w = s ->
  closed G s st w -> closed G s (pushed st v u ncost h) w.
Proof.
  intros Hu Hw [Hx Hc]. split; [exact Hx|]. simpl.
  intros u0 a0 He. rewrite best_set_other by (destruct Hw; [left; congruence | right; assumption]).
  destruct (Hc u0 a0 He) as [-> | (g0 & h0 & Hg & Hle)]; [left; reflexivity|].
  right. destruct (point_eqb u u0) eqn:E.
  - apply point_eqb_eq in E. subst u0. rewrite dget_set_same.
    destruct Hu as [Hu | (qcost & Hu & Hq)]; [congruence|].
    rewrite Hu in Hg. injection Hg as <- <-.
    exists ncost, h. split; [reflexivity | lra].
  - apply point_eqb_neq in E. rewrite dget_set_other by exact E.
    exists g0, h0. split; assumption.
Qed.

Lemma live_pushed (st : astar_state) (v u w : node) (ncost h : R) :
  w <> u -> live s st w -> live s (pushed st v u ncost h) w.
Proof.
  intros Hw (Hs & e & h0 & Hin & Hn & HE & Hp). split; [exact Hs|].
  exists e, h0. simpl. rewrite dget_set_other by congruence.
  repeat split; try assumption. right. exact Hin.
Qed.

Lemma push_keeps (xc : node -> R) (v u : node) (g ncost h : R) (a : edge_attr)
    (processed : list (node * edge_attr)) (st : astar_state) :
  relax_inv G s t xc v g processed st ->
  edge G v u = Ok a ->
  ncost = g + weight a ->
  math_dist u t = Ok h ->
  (dget (enqueued st) u = None \/
   exists qcost, dget (enqueued st) u = Some (qcost, h) /\ ncost < qcost) ->
  relax_inv G s t xc v g (processed ++ [(u, a)]) (pushed st v u ncost h).
Proof.
  intros (Hinv & Hxv & Hxc & Hbest & HEv & Hproc) Hedge Hn Hh Hu.
  pose proof (weights_nonneg _ _ _ Hedge) as Hw.
  assert (Hu' : dget (enqueued st) u = None \/
                exists qcost, dget (enqueued st) u = Some (qcost, h) /\ ncost <= qcost).
  { destruct Hu as [Hu | (q & Hu & Hq)]; [left; exact Hu | right; exists q; split; [exact Hu | lra]]. }
  assert (Huv : v <> s -> u <> v).
  { intros Hvs ->. destruct Hu as [Hu | (q & Hu & Hq)].
    - apply (HEv Hvs). exact Hu.
    - rewrite (best_other _ _ _ _ Hvs Hu) in Hbest. lra. }
  destruct Hinv as [Ientry Icounts Isource Itarget Iexp Inone Iheur Iclosed].
  repeat split.
  - (* entries *)
    intros e [<- | Hin]; simpl.
    + exists v, a, ncost, h. rewrite dget_set_same.
      repeat split; try assumption; try lra.
    + destruct (Ientry e Hin) as (p & a0 & g' & h0 & Hp & Hxp & He & Hle & HE & Hg & Hprio).
      destruct (point_eqb u (q_node e)) eqn:E.
      * apply point_eqb_eq in E. rewrite <- E in *. rewrite dget_set_same.
        destruct Hu as [Hu | (q & Hu & Hq)]; [congruence|].
        rewrite Hu in HE. injection HE as <- <-.
        exists p, a0, ncost, h. repeat split; try assumption; lra.
      * apply point_eqb_neq in E. rewrite dget_set_other by exact E.
        exists p, a0, g', h0. repeat split; assumption.
  - (* counts *)
    simpl. constructor; [| apply Icounts].
    intros Hin. apply in_map_iff in Hin. destruct Hin as (e & Ee & He).
    apply (proj2 Icounts) in He. lia.
  - intros e [<- | Hin]; simpl; [lia|]. apply (proj2 Icounts) in Hin. lia.
  - apply Isource.
  - apply Isource.
  - exact Itarget.
  - apply (Iexp _ _ H).
  - apply (Iexp _ _ H).
  - destruct (Iexp _ _ H) as (_ & _ & a0 & g0 & h0 & He & Hle & HE & Hg).
    simpl. destruct (point_eqb u v0) eqn:E.
    + apply point_eqb_eq in E. subst v0. rewrite dget_set_same.
      destruct Hu as [Hu | (q & Hu & Hq)]; [congruence|].
      rewrite Hu in HE. injection HE as <- <-.
      exists a0, ncost, h. repeat split; try assumption; lra.
    + apply point_eqb_neq in E. rewrite dget_set_other by exact E.
      exists a0, g0, h0. repeat split; assumption.
  - exact Inone.
  - simpl. intros w g0 h0 HE. destruct (point_eqb u w) eqn:E.
    + apply point_eqb_eq in E. subst w. rewrite dget_set_same in HE.
      injection HE as <- <-. exact Hh.
    + apply point_eqb_neq in E. rewrite dget_set_other in HE by exact E.
      eapply Iheur. exact HE.
  - (* live or closed *)
    intros w HD Hw0. destruct (point_eqb u w) eqn:E.
    + apply point_eqb_eq in E. subst w.
      destruct (point_eqb u s) eqn:Es.
      * apply point_eqb_eq in Es. 
        assert (Hcl : live s st u \/ closed G s st u)
          by (apply Iclosed; [exact HD | left; exact Es]).
        destruct Hcl as [[Hne _] | Hcl]; [congruence|].
        right. apply closed_pushed; [exact Hu' | right; exact Es | exact Hcl].
      * apply point_eqb_neq in Es. left. split; [exact Es|].
        eexists (mk_qentry (ncost + h) (counter st) u ncost (Some v)), h.
        simpl. rewrite dget_set_same. repeat split. left. reflexivity.
    + apply point_eqb_neq in E.
      assert (Hw1 : w = s \/ dget (enqueued st) w <> None).
      { destruct Hw0 as [Hw0 | Hw0]; [left; exact Hw0 | right].
        simpl in Hw0. rewrite dget_set_other in Hw0 by exact E. exact Hw0. }
      destruct (Iclosed w HD Hw1) as [Hl | Hcl].
      * left. apply live_pushed; [congruence | exact Hl].
      * right. apply closed_pushed; [exact Hu' | left; congruence | exact Hcl].
  - exact Hxv.
  - exact Hxc.
  - simpl. destruct (point_eqb v s) eqn:Es.
    + apply point_eqb_eq in Es. rewrite best_set_other by (right; exact Es). exact Hbest.
    + apply point_eqb_neq in Es. rewrite best_set_other by (left; apply Huv; exact Es).
      exact Hbest.
  - intros Hvs. simpl. rewrite dget_set_other by (apply Huv; exact Hvs).
    apply HEv. exact Hvs.
  - intros u0 a0 Hin. simpl. apply in_app_or in Hin.
    destruct Hin as [Hin | [[= <- <-] | []]].
    + destruct (Hproc u0 a0 Hin) as [-> | (g0 & h0 & HE & Hle)]; [left; reflexivity|].
      right. destruct (point_eqb u u0) eqn:E.
      * apply point_eqb_eq in E. subst u0. rewrite dget_set_same.
        destruct Hu as [Hu | (q & Hu & Hq)]; [congruence|].
        rewrite Hu in HE. injection HE as <- <-.
        exists ncost, h. split; [reflexivity | lra].
      * apply point_eqb_neq in E. rewrite dget_set_other by exact E.
        exists g0, h0. split; assumption.
    + right. exists ncost, h. rewrite dget_set_same. split; [reflexivity | lra].
Qed.

Lemma dict_get_NoDup {V : Type} (d : list (node * V)) (k : node) (v : V) :
  NoDup (map fst d) -> In (k, v) d -> dget d k = Some v.
Proof.
  induction d as [| [k0 v0] d IH]; simpl; [tauto|].
  intros Hnd [[= -> ->] | Hin].
  - rewrite point_eqb_refl. reflexivity.
  - inversion Hnd as [| ? ? Hk Hd]; subst.
    destruct (point_eqb k0 k) eqn:E.
    + apply point_eqb_eq in E. subst k0. exfalso. apply Hk.
      apply (in_map fst) in Hin. exact Hin.
    + apply IH; assumption.
Qed.

Lemma edge_of_successor (v u : node) (a : edge_attr) (succs : list (node * edge_attr)) :
  dget G v = Some succs -> In (u, a) succs -> edge G v u = Ok a.
Proof.
  intros Hv Hin. rewrite edge_unfold, Hv.
  rewrite (dict_get_NoDup succs u a (G_nodup _ _ Hv) Hin). reflexivity.
Qed.

Lemma successor_of_edge (v u : node) (a : edge_attr) :
  edge G v u = Ok a ->
  exists succs, dget G v = Some succs /\ In (u, a) succs.
Proof.
  rewrite edge_unfold. destruct (dget G v) as [succs|]; [| discriminate].
  destruct (dget succs u) as [a'|] eqn:E; [| discriminate].
  intros [= ->]. exists succs. split; [reflexivity|].
  apply (dict_get_In _ point_eqb_eq). exact E.
Qed.

Lemma relax_keeps (xc : node -> R) (v : node) (g : R) :
  forall (rest processed : list (node * edge_attr)) (st st' : astar_state),
    dget G v = Some (processed ++ rest) ->
    relax_inv G s t xc v g processed st ->
    relax t v g rest st = Ok st' ->
    relax_inv G s t xc v g (processed ++ rest) st'.
Proof.
  induction rest as [| [u a] rest IH]; intros processed st st' HG Hinv; simpl.
  - intros [= <-]. rewrite app_nil_r. exact Hinv.
  - assert (Hedge : edge G v u = Ok a).
    { eapply edge_of_successor; [exact HG|]. apply in_or_app. right. left. reflexivity. }
    replace (processed ++ (u, a) :: rest) with ((processed ++ [(u, a)]) ++ rest)
      in HG |- * by (rewrite <- app_assoc; reflexivity).
    destruct (dget (enqueued st) u) as [[qcost h] |] eqn:Eu.
    + destruct (Rleb qcost (g + weight a)) eqn:Ele.
      * apply Rleb_le in Ele. intros Hr. eapply IH; [exact HG | | exact Hr].
        destruct Hinv as (H1 & H2 & H3 & H4 & H5 & H6).
        refine (conj H1 (conj H2 (conj H3 (conj H4 (conj H5 _))))).
        intros u0 a0 Hin. apply in_app_or in Hin.
        destruct Hin as [Hin | [[= <- <-] | []]]; [apply H6; exact Hin|].
        right. exists qcost, h. split; [exact Eu | exact Ele].
      * apply Rleb_gt in Ele. intros Hr. eapply IH; [exact HG | | exact Hr].
        apply (push_keeps xc v u g (g + weight a) h a); try assumption; try reflexivity.
        -- destruct Hinv as (H1 & _). eapply (inv_heur _ _ _ _ _ _ H1). exact Eu.
        -- right. exists qcost. split; [exact Eu | exact Ele].
    + destruct (math_dist u t) as [h | e |] eqn:Eh; simpl; try discriminate.
      intros Hr. eapply IH; [exact HG | | exact Hr].
      apply (push_keeps xc v u g (g + weight a) h a); try assumption; try reflexivity.
      left. exact Eu.
Qed.

Lemma dget_set_defined {V : Type} (d : list (node * V)) (k w : node) (v : V) :
  dget d w <> None -> dget (dict_set point_eqb d k v) w <> None.
Proof.
  intros H. destruct (point_eqb k w) eqn:E.
  - apply point_eqb_eq in E. subst w. rewrite dget_set_same. discriminate.
  - apply point_eqb_neq in E. rewrite dget_set_other by exact E. exact H.
Qed.

Lemma NoDup_map_inj {A B : Type} (f : A -> B) (l : list A) (a b : A) :
  NoDup (map f l) -> In a l -> In b l -> f a = f b -> a = b.
Proof.
  induction l as [| x l IH]; simpl; [tauto|].
  intros Hnd Ha Hb E. inversion Hnd as [| ? ? Hx Hl]; subst.
  destruct Ha as [-> | Ha], Hb as [-> | Hb]; auto.
  - exfalso. apply Hx. rewrite E. apply in_map. exact Hb.
  - exfalso. apply Hx. rewrite <- E. apply in_map. exact Ha.
Qed.

Lemma relax_done (xc : node -> R) (v : node) (g : R)
    (succs : list (node * edge_attr)) (st : astar_state) :
  dget G v = Some succs ->
  relax_inv G s t xc v g succs st ->
  search_inv G s t xc (fun _ => False) st.
Proof.
  intros HG (Hinv & Hxv & Hxc & Hbest & HEv & Hproc).
  destruct Hinv as [Ientry Icounts Isource Itarget Iexp Inone Iheur Iclosed].
  constructor; try assumption.
  intros w _ Hw. destruct (point_eqb w v) eqn:E.
  - apply point_eqb_eq in E. subst w. right. split; [exact Hxv|].
    intros u a He. rewrite Hbest.
    destruct (successor_of_edge _ _ _ He) as (succs' & HG' & Hin).
    rewrite HG in HG'. injection HG' as <-. apply Hproc. exact Hin.
  - apply point_eqb_neq in E. apply Iclosed; assumption.
Qed.

Lemma skip_keeps (xc : node -> R) (st : astar_state) (m : qentry)
    (q' : list qentry) :
  search_inv G s t xc (fun _ => False) st ->
  heappop (queue st) = Some (m, q') ->
  skip (mk_astar q' (counter st) (enqueued st) (explored st)) (q_node m) (q_dist m)
    = Ok true ->
  search_inv G s t xc (fun _ => False)
    (mk_astar q' (counter st) (enqueued st) (explored st)).
Proof.
  intros [Ientry Icounts Isource Itarget Iexp Inone Iheur Iclosed] Hpop Hskip.
  destruct (heappop_spec _ _ _ (proj1 Icounts) Hpop) as (Hm & Hmin & Hq' & Hnd').
  constructor; simpl; try assumption.
  - intros e He. apply Hq' in He. apply Ientry. tauto.
  - split; [exact Hnd'|]. intros e He. apply Hq' in He. apply Icounts. tauto.
  - intros w HD Hw. destruct (Iclosed w HD Hw) as [Hl | Hc].
    + left. destruct Hl as (Hws & e & h & He & Hn & HE & Hp).
      split; [exact Hws|]. exists e, h. simpl. repeat split; try assumption.
      apply Hq'. split; [exact He|]. intros Ec.
      assert (e = m) by (eapply NoDup_map_inj; [apply Icounts | | |]; eassumption).
      subst e. unfold skip in Hskip. simpl in Hskip. rewrite Hn in Hskip.
      destruct (dget (explored st) w) as [[p |] |] eqn:EX.
      * unfold dict_item in Hskip. rewrite HE in Hskip. simpl in Hskip.
        injection Hskip as Hskip. apply Rltb_lt in Hskip. lra.
      * apply Inone in EX. contradiction.
      * discriminate.
    + right. destruct Hc as [Hx Hc]. split; assumption.
Qed.

Lemma expand_start (xc : node -> R) (st : astar_state) (m : qentry)
    (q' : list qentry) :
  search_inv G s t xc (fun _ => False) st ->
  heappop (queue st) = Some (m, q') ->
  q_node m <> t ->
  skip (mk_astar q' (counter st) (enqueued st) (explored st)) (q_node m) (q_dist m)
    = Ok false ->
  relax_inv G s t (upd xc (q_node m) (q_dist m)) (q_node m) (q_dist m) []
    (mk_astar q' (counter st) (enqueued st)
       (dict_set point_eqb (explored st) (q_node m) (q_parent m))).
Proof.
  intros Hinv Hpop Hmt Hskip.
  pose proof Hinv as [Ientry Icounts Isource Itarget Iexp Inone Iheur Iclosed].
  destruct (heappop_spec _ _ _ (proj1 Icounts) Hpop) as (Hm & Hmin & Hq' & Hnd').
  destruct (Ientry m Hm) as (p & a & g' & h & Hp & Hxp & He & Hle & HE & Hg & Hprio).
  set (v := q_node m) in *. set (g := q_dist m) in *.
  assert (Hvs : v <> s).
  { intros E. unfold skip in Hskip. simpl in Hskip. fold v in Hskip.
    rewrite E, (proj1 Isource) in Hskip. discriminate. }
  assert (Hgg : g' = g).
  { unfold skip in Hskip. simpl in Hskip. fold v g in Hskip.
    destruct (dget (explored st) v) as [[p0 |] |] eqn:EX.
    - unfold dict_item in Hskip. rewrite HE in Hskip. simpl in Hskip.
      injection Hskip as Hskip. apply Rltb_ge in Hskip. lra.
    - discriminate.
    - destruct (Iclosed v (fun F => F)) as [Hl | Hc].
      + right. rewrite HE. discriminate.
      + destruct Hl as (_ & e & h' & Hein & Hen & HEe & Hpe).
        rewrite HE in HEe. injection HEe as -> ->.
        specialize (Hmin e Hein). lra.
      + destruct Hc as [Hx _]. contradiction. }
  subst g'.
  assert (Hxcv : dget (explored st) v <> None -> g <= xc v).
  { intros Hx. destruct (dget (explored st) v) as [[p0 |] |] eqn:EX.
    - destruct (Iexp _ _ EX) as (_ & _ & a0 & g0 & h0 & _ & _ & HE0 & Hg0).
      rewrite HE in HE0. injection HE0 as <- <-. exact Hg0.
    - apply Inone in EX. contradiction.
    - contradiction. }
  assert (Hupd_le : forall w, dget (explored st) w <> None -> upd xc v g w <= xc w).
  { intros w Hw. unfold upd. destruct (point_eqb w v) eqn:E; [| lra].
    apply point_eqb_eq in E. subst w. apply Hxcv. exact Hw. }
  assert (Hupd_other : forall w, w <> v -> upd xc v g w = xc w).
  { intros w Hw. unfold upd. apply point_eqb_neq in Hw. rewrite Hw. reflexivity. }
  assert (Hupd_same : upd xc v g v = g).
  { unfold upd. rewrite point_eqb_refl. reflexivity. }
  split; [constructor; simpl |].
  - (* entries *)
    intros e Hein. apply Hq' in Hein. destruct Hein as [Hein _].
    destruct (Ientry e Hein) as (p0 & a0 & g0 & h0 & Hp0 & Hxp0 & He0 & Hle0 & HE0 & Hg0 & Hprio0).
    exists p0, a0, g0, h0. repeat split; try assumption.
    + apply dget_set_defined. exact Hxp0.
    + specialize (Hupd_le p0 Hxp0). lra.
  - split; [exact Hnd'|]. intros e Hein. apply Hq' in Hein. apply Icounts. tauto.
  - split.
    + rewrite dget_set_other by exact Hvs. apply Isource.
    + rewrite Hupd_other by congruence. apply Isource.
  - rewrite dget_set_other by exact Hmt. exact Itarget.
  - intros w p0 HX. destruct (point_eqb v w) eqn:E.
    + apply point_eqb_eq in E. subst w. rewrite dget_set_same in HX.
      rewrite Hp in HX. injection HX as <-.
      split; [exact Hvs|]. split; [apply dget_set_defined; exact Hxp|].
      exists a, g, h. rewrite Hupd_same. repeat split; try assumption; try lra.
      destruct (point_eqb p v) eqn:Ep.
      * apply point_eqb_eq in Ep. subst p. rewrite Hupd_same.
        pose proof (weights_nonneg _ _ _ He). specialize (Hxcv Hxp). lra.
      * apply point_eqb_neq in Ep. rewrite Hupd_other by exact Ep. exact Hle.
    + apply point_eqb_neq in E. rewrite dget_set_other in HX by exact E.
      destruct (Iexp _ _ HX) as (Hws & Hxp0 & a0 & g0 & h0 & He0 & Hle0 & HE0 & Hg0).
      split; [exact Hws|]. split; [apply dget_set_defined; exact Hxp0|].
      exists a0, g0, h0. rewrite (Hupd_other w) by congruence.
      repeat split; try assumption.
      specialize (Hupd_le p0 Hxp0). lra.
  - intros w HX. destruct (point_eqb v w) eqn:E.
    + apply point_eqb_eq in E. subst w. rewrite dget_set_same in HX.
      rewrite Hp in HX. discriminate.
    + apply point_eqb_neq in E. rewrite dget_set_other in HX by exact E.
      apply Inone. exact HX.
  - exact Iheur.
  - intros w Hwv Hw. destruct (Iclosed w (fun F => F) Hw) as [Hl | Hc].
    + left. destruct Hl as (Hws & e & h0 & Hein & Hen & HEe & Hpe).
      split; [exact Hws|]. exists e, h0. simpl. repeat split; try assumption.
      apply Hq'. split; [exact Hein|]. intros Ec.
      assert (e = m) by (eapply NoDup_map_inj; [apply Icounts | | |]; eassumption).
      subst e. apply Hwv. symmetry. exact Hen.
    + right. destruct Hc as [Hx Hc]. split; [| exact Hc].
      simpl. apply dget_set_defined. exact Hx.
  - simpl. split; [rewrite dget_set_same; discriminate|].
    split; [exact Hupd_same|].
    split; [apply (best_other _ _ _ h Hvs HE)|].
    split; [intros _; rewrite HE; discriminate|].
    intros u a0 [].
Qed.

(** ** Walks and their cost *)

Lemma walk_head (u w : node) (q : list node) :
  walk G u w q -> exists q', q = u :: q'.
Proof. intros H. destruct H; eexists; reflexivity. Qed.

Lemma path_total_step (f : edge_attr -> R) (u v : node) (q : list node)
    (a : edge_attr) :
  edge G u v = Ok a ->
  path_total f G (u :: v :: q) =
    (let? r := path_total f G (v :: q) in Ok (f a + r)).
Proof. intros H. simpl. rewrite H. reflexivity. Qed.

Lemma walk_total (u w : node) (q : list node) :
  walk G u w q -> exists c, path_total weight G q = Ok c /\ 0 <= c.
Proof.
  induction 1 as [v Hv | u v w a p He Hw IH].
  - exists 0. split; [reflexivity | lra].
  - destruct IH as (c & Hc & Hpos).
    destruct (walk_head _ _ _ Hw) as (p' & ->).
    rewrite (path_total_step _ _ _ _ _ He), Hc. simpl.
    exists (weight a + c). split; [reflexivity|].
    pose proof (weights_nonneg _ _ _ He). lra.
Qed.

Lemma walk_snoc (u v w : node) (q : list node) (a : edge_attr) (c : R) :
  walk G u v q -> edge G v w = Ok a ->
  path_total weight G q = Ok c ->
  walk G u w (q ++ [w]) /\ path_total weight G (q ++ [w]) = Ok (c + weight a).
Proof.
  intros Hw He. revert c. induction Hw as [v Hv | u v0 v a0 p He0 Hw IH]; intros c Hc.
  - simpl in Hc. injection Hc as <-. split.
    + eapply walk_step; [exact He|]. apply walk_end. eapply G_closed. exact He.
    + simpl. rewrite He. simpl. f_equal. lra.
  - destruct (walk_head _ _ _ Hw) as (p' & ->).
    rewrite (path_total_step _ _ _ _ _ He0) in Hc.
    destruct (path_total weight G (v0 :: p')) as [c0 | |] eqn:Ec; try discriminate.
    simpl in Hc. injection Hc as <-.
    destruct (IH He c0 eq_refl) as (Hw' & Hc').
    split.
    + simpl. eapply walk_step; [exact He0 | exact Hw'].
    + change ((u :: v0 :: p') ++ [w]) with (u :: v0 :: (p' ++ [w])).
      rewrite (path_total_step _ _ _ _ _ He0).
      change (v0 :: p' ++ [w]) with ((v0 :: p') ++ [w]). rewrite Hc'.
      simpl. f_equal. lra.
Qed.


Lemma math_dist_same (p : point) (h : R) : math_dist p p = Ok h -> h = 0.
Proof.
  unfold math_dist.
  assert (H : forall r, sum_sq p p = Ok r -> r = 0).
  { induction p as [| x p IH]; simpl; intros r.
    - intros [= <-]. reflexivity.
    - destruct (sum_sq p p) as [r0 | |]; simpl; try discriminate.
      intros [= <-]. rewrite (IH r0 eq_refl). lra. }
  destruct (sum_sq p p) as [r | |]; simpl; try discriminate.
  intros [= <-]. rewrite (H r eq_refl). apply sqrt_0.
Qed.

(** ** The path read back from [explored] *)

Lemma walk_back_sound (xc : node -> R) (st : astar_state) :
  search_inv G s t xc (fun _ => False) st ->
  forall (fuel : nat) (v : node) (back : list node),
    dget (explored st) v <> None ->
    walk_back fuel (explored st) (Some v) = Ok back ->
    walk G s v (rev back) /\
    exists c, path_total weight G (rev back) = Ok c /\ c <= xc v.
Proof.
  intros [Ientry Icounts Isource Itarget Iexp Inone Iheur Iclosed].
  induction fuel as [| fuel IH]; intros v back Hx; simpl; [discriminate|].
  unfold dict_item. destruct (dget (explored st) v) as [[p |] |] eqn:EX;
    simpl; try contradiction.
  - destruct (walk_back fuel (explored st) (Some p)) as [rest | |] eqn:Er;
      simpl; try discriminate.
    intros [= <-].
    destruct (Iexp _ _ EX) as (_ & Hxp & a & g & h & He & Hle & _).
    destruct (IH p rest Hxp Er) as (Hw & c & Hc & Hcx).
    simpl. destruct (walk_snoc _ _ _ _ _ _ Hw He Hc) as (Hw' & Hc').
    split; [exact Hw'|]. exists (c + weight a). split; [exact Hc' | lra].
  - rewrite walk_back_None. simpl. intros [= <-]. simpl.
    apply Inone in EX. subst v. split; [apply walk_end; exact source_in_G|].
    exists 0. split; [reflexivity|]. rewrite (proj2 Isource). lra.
Qed.

(** ** Some entry of the queue bounds the cost of every walk *)

Lemma closed_source (xc : node -> R) (st : astar_state) :
  search_inv G s t xc (fun _ => False) st -> closed G s st s.
Proof.
  intros Hinv. destruct (inv_closed _ _ _ _ _ _ Hinv s (fun F => F)) as [Hl | Hc].
  - left. reflexivity.
  - destruct Hl as [N _]. congruence.
  - exact Hc.
Qed.


(** ** The loop *)



Lemma first_expansion :
  relax_inv G s t (fun _ => 0) s 0 [] (mk_astar [] 1 [] [(s, None)]).
Proof.
  assert (Hx : forall w, dget [(s, @None node)] w =
                         if point_eqb s w then Some None else None)
    by (intros w; simpl; destruct (point_eqb s w); reflexivity).
  split; [constructor; simpl |].
  - intros e [].
  - split; [constructor | intros e []].
  - rewrite point_eqb_refl. split; reflexivity.
  - apply point_eqb_neq in source_neq_target. rewrite source_neq_target. reflexivity.
  - intros v p. destruct (point_eqb s v); discriminate.
  - intros v. destruct (point_eqb s v) eqn:E; [| discriminate].
    intros _. apply point_eqb_eq in E. congruence.
  - intros v g h [=].
  - intros w Hw [Hs | Hn]; [contradiction | exfalso; apply Hn; reflexivity].
  - simpl. rewrite point_eqb_refl. split; [discriminate|].
    split; [reflexivity|]. split; [apply best_source|].
    split; [intros N; exfalso; apply N; reflexivity | intros u a []].
Qed.
End SearchCorrect.


(* ================================================================== *)
(** * The built graph is well formed, and what its weights are *)

Lemma NoDup_dict_set {V : Type} (d : list (node * V)) (k : node) (v : V) :
  NoDup (map fst d) -> NoDup (map fst (dict_set point_eqb d k v)).
Proof.
  intros H. rewrite (dict_set_keys point_eqb).
  destruct (dict_mem point_eqb d k) eqn:E; [exact H|].
  apply NoDup_app; [exact H | repeat constructor; intros [] |].
  intros x Hx [<- | []].
  apply (dict_mem_In _ point_eqb_eq) in Hx. congruence.
Qed.

Lemma nodes_defined (G : DiGraph) (w : node) :
  In w (nodes G) <-> dict_get point_eqb G w <> None.
Proof.
  rewrite <- has_node_In. unfold has_node, dict_mem.
  destruct (dict_get point_eqb G w); split; congruence.
Qed.

Lemma dict_get_add_edge (G : DiGraph) (u v w : node) (a : edge_attr) :
  dict_get point_eqb (add_edge G u v a) w =
  if point_eqb u w
  then Some (dict_set point_eqb
               (match dict_get point_eqb G u with Some s => s | None => [] end) v a)
  else match dict_get point_eqb G w with
       | Some s => Some s
       | None => if point_eqb v w then Some [] else None
       end.
Proof.
  unfold add_edge. destruct (point_eqb u w) eqn:E.
  - apply point_eqb_eq in E. subst w.
    rewrite (dict_get_set_same _ point_eqb_eq). f_equal. f_equal.
    unfold successors. rewrite !dict_get_add_node, point_eqb_refl.
    destruct (dict_get point_eqb G u); reflexivity.
  - pose proof E as E'. apply point_eqb_neq in E'.
    rewrite (dict_get_set_other _ point_eqb_eq) by exact E'.
    rewrite !dict_get_add_node, E.
    destruct (dict_get point_eqb G w); reflexivity.
Qed.

Lemma well_formed_empty : well_formed [].
Proof. split; [intros u succs [=] | intros u v a [=]]. Qed.

Lemma well_formed_add_edge (G : DiGraph) (u v : node) (a : edge_attr) :
  well_formed G -> well_formed (add_edge G u v a).
Proof.
  intros [Hnd Hcl]. split.
  - intros w succs. rewrite dict_get_add_edge.
    destruct (point_eqb u w).
    + intros [= <-]. apply NoDup_dict_set.
      destruct (dict_get point_eqb G u) as [s0|] eqn:E; [| constructor].
      eapply Hnd. exact E.
    + destruct (dict_get point_eqb G w) as [s0|] eqn:E.
      * intros [= <-]. eapply Hnd. exact E.
      * destruct (point_eqb v w); [intros [= <-]; constructor | discriminate].
  - intros u' v' a' He. apply nodes_defined. rewrite dict_get_add_edge.
    destruct (point_eqb u v') eqn:Eu; [discriminate|].
    destruct (point_eqb u u' && point_eqb v v') eqn:Euv.
    + apply andb_true_iff in Euv. destruct Euv as [_ Ev].
      rewrite Ev. destruct (dict_get point_eqb G v'); discriminate.
    + rewrite edge_add_edge_other in He.
      * apply Hcl in He. apply nodes_defined in He.
        destruct (dict_get point_eqb G v'); [discriminate | contradiction].
      * intros [= -> ->]. rewrite !point_eqb_refl in Euv. discriminate.
Qed.

Lemma well_formed_fresh_edges cfg segments distances hour alpha items :
  forall G0 G,
    well_formed G0 ->
    fresh_edges cfg segments distances hour alpha G0 items = Ok G ->
    well_formed G.
Proof.
  induction items as [| [sid seg] rest IH]; intros G0 G Hwf; simpl.
  - intros [= <-]. exact Hwf.
  - destruct (fresh_edge cfg segments distances hour alpha G0 sid seg)
      as [G1 | |] eqn:E1; simpl; try discriminate.
    apply IH. unfold fresh_edge in E1.
    repeat match type of E1 with
           | res_bind ?r _ = _ => destruct r; simpl in E1; try discriminate
           end.
    injection E1 as <-. apply well_formed_add_edge. exact Hwf.
Qed.



(** A result of the search does not depend on the fuel that was left. *)
Lemma walk_back_more_fuel (ex : list (node * option node)) :
  forall (fuel fuel' : nat) (n : option node) (l : list node),
    (fuel <= fuel')%nat ->
    walk_back fuel ex n = Ok l -> walk_back fuel' ex n = Ok l.
Proof.
  induction fuel as [| fuel IH]; intros fuel' n l Hle; destruct n as [v|];
    simpl; try discriminate.
  - intros [= <-]. apply walk_back_None.
  - destruct fuel' as [| fuel']; [lia|]. simpl.
    destruct (dict_item point_eqb ex v) as [p | |]; simpl; try discriminate.
    destruct (walk_back fuel ex p) as [rest | |] eqn:E; simpl; try discriminate.
    rewrite (IH fuel' p rest) by (try lia; exact E). simpl. auto.
  - intros [= <-]. apply walk_back_None.
Qed.

Lemma astar_loop_more_fuel (G : DiGraph) (t : node) :
  forall (fuel fuel' : nat) (st : astar_state) (p : list node),
    (fuel <= fuel')%nat ->
    astar_loop fuel G t st = Ok p -> astar_loop fuel' G t st = Ok p.
Proof.
  induction fuel as [| fuel IH]; intros fuel' st p Hle; simpl; [discriminate|].
  destruct fuel' as [| fuel']; [lia|]. simpl.
  destruct (heappop (queue st)) as [[m q'] |]; [| discriminate].
  destruct (point_eqb (q_node m) t).
  - destruct (walk_back fuel (explored st) (q_parent m)) as [back | |] eqn:E;
      simpl; try discriminate.
    rewrite (walk_back_more_fuel _ fuel fuel' _ back) by (try lia; exact E).
    simpl. auto.
  - destruct (skip _ (q_node m) (q_dist m)) as [[|] | |]; simpl; try discriminate.
    + apply IH. lia.
    + destruct (dict_item point_eqb G (q_node m)) as [succs | |]; simpl;
        try discriminate.
      destruct (relax t (q_node m) (q_dist m) succs _) as [st3 | |]; simpl;
        try discriminate.
      apply IH. lia.
Qed.

Lemma astar_path_more_fuel (G : DiGraph) (s t : node) (fuel fuel' : nat)
    (p : list node) :
  (fuel <= fuel')%nat ->
  astar_path fuel G s t = Ok p -> astar_path fuel' G s t = Ok p.
Proof.
  intros Hle. unfold astar_path.
  destruct (negb (has_node G s) || negb (has_node G t)); [discriminate|].
  apply astar_loop_more_fuel. exact Hle.
Qed.


Lemma built_graph_well_formed (s : state) (hour : Z) (alpha ts : R) (G : DiGraph) :
  reachable s ->
  fst (build_graph_body hour alpha ts s) = Ok G ->
  well_formed G.
Proof.
  intros Hr HG.
  rewrite (proj1 (build_graph_body_fresh hour alpha ts s (reachable_risk_memo_ok _ Hr)))
    in HG.
  eapply well_formed_fresh_edges; [apply well_formed_empty | exact HG].
Qed.


(* ================================================================== *)
(** * The search finishes *)

(** ** Counting *)

Lemma filter_count_le {A : Type} (f g : A -> bool) (l : list A) :
  (forall x, f x = true -> g x = true) ->
  (List.length (filter f l) <= List.length (filter g l))%nat.
Proof.
  intros H. induction l as [| x l IH]; simpl; [lia|].
  destruct (f x) eqn:Ef.
  - rewrite (H x Ef). simpl. lia.
  - destruct (g x); simpl; lia.
Qed.

Lemma filter_count_lt {A : Type} (f g : A -> bool) (l : list A) (a : A) :
  (forall x, f x = true -> g x = true) ->
  In a l -> g a = true -> f a = false ->
  (List.length (filter f l) < List.length (filter g l))%nat.
Proof.
  intros H. induction l as [| x l IH]; simpl; [tauto|].
  intros [-> | Hin] Hg Hf.
  - rewrite Hg, Hf. simpl. pose proof (filter_count_le f g l H). lia.
  - specialize (IH Hin Hg Hf). destruct (f x) eqn:Ef.
    + rewrite (H x Ef). simpl. lia.
    + destruct (g x); simpl; lia.
Qed.

Lemma list_sum_map_le {A : Type} (f g : A -> nat) (l : list A) :
  (forall x, (f x <= g x)%nat) ->
  (list_sum (map f l) <= list_sum (map g l))%nat.
Proof.
  intros H. induction l as [| x l IH]; simpl; [lia|]. specialize (H x). lia.
Qed.

Lemma list_sum_map_lt {A : Type} (f g : A -> nat) (l : list A) (a : A) :
  (forall x, (f x <= g x)%nat) -> In a l -> (f a < g a)%nat ->
  (list_sum (map f l) < list_sum (map g l))%nat.
Proof.
  intros H. induction l as [| x l IH]; simpl; [tauto|].
  intros [-> | Hin] Hlt.
  - pose proof (list_sum_map_le f g l H). lia.
  - specialize (IH Hin Hlt). specialize (H x). lia.
Qed.

Lemma room_le (C : list R) (E : list (node * (R * R))) (u : node) :
  (room C E u <= S (List.length C))%nat.
Proof.
  unfold room. destruct (dict_get point_eqb E u); [| lia].
  pose proof (filter_length_le (fun c => Rltb c (fst p)) C). lia.
Qed.

(** A push of [u] at a smaller cost, one of the candidates [C], takes
    from the room that is left for [u] and leaves the others theirs. *)
Lemma room_pushed (C : list R) (E : list (node * (R * R))) (u : node)
    (ncost h : R) :
  In ncost C ->
  (dict_get point_eqb E u = None \/
   exists qcost h0, dict_get point_eqb E u = Some (qcost, h0) /\ ncost < qcost) ->
  (forall w, (room C (dict_set point_eqb E u (ncost, h)) w <= room C E w)%nat) /\
  (room C (dict_set point_eqb E u (ncost, h)) u < room C E u)%nat.
Proof.
  intros HC Hu.
  assert (Hlt : (room C (dict_set point_eqb E u (ncost, h)) u < room C E u)%nat).
  { unfold room. rewrite dget_set_same. simpl.
    destruct Hu as [-> | (qcost & h0 & -> & Hq)].
    - pose proof (filter_length_le (fun c => Rltb c ncost) C). lia.
    - simpl. apply (filter_count_lt _ _ C ncost).
      + intros x Hx. apply Rltb_lt in Hx. apply Rltb_lt. lra.
      + exact HC.
      + apply Rltb_lt. exact Hq.
      + apply Rltb_ge. lra. }
  split; [| exact Hlt].
  intros w. destruct (point_eqb u w) eqn:E0.
  - apply point_eqb_eq in E0. subst w. lia.
  - apply point_eqb_neq in E0. unfold room. rewrite dget_set_other by exact E0. lia.
Qed.

Lemma potential_pushed (G : DiGraph) (s : node) (st : astar_state)
    (v u : node) (ncost h : R) :
  In u (nodes G) -> In ncost (totals G s) ->
  (dict_get point_eqb (enqueued st) u = None \/
   exists qcost h0,
     dict_get point_eqb (enqueued st) u = Some (qcost, h0) /\ ncost < qcost) ->
  (potential G s (pushed st v u ncost h) <= potential G s st)%nat.
Proof.
  intros Hu HC Hpush. unfold potential, pushed, heappush. simpl.
  destruct (room_pushed (totals G s) (enqueued st) u ncost h HC Hpush) as [Hle Hlt].
  pose proof (list_sum_map_lt _ _ (nodes G) u Hle Hu Hlt). lia.
Qed.

(** ** The paths the search follows *)

Lemma walk_vertices (G : DiGraph) (u w : node) (q : list node) :
  walk G u w q -> forall x, In x q -> In x (nodes G).
Proof.
  induction 1 as [v Hv | u v w a p He Hw IH]; intros x.
  - intros [<- | []]. exact Hv.
  - intros [<- | Hin]; [| apply IH; exact Hin].
    destruct (successor_of_edge _ _ _ _ He) as (succs & HG & _).
    apply nodes_defined. rewrite HG. discriminate.
Qed.

Lemma walk_in_walks_from (G : DiGraph) (u w : node) (q : list node) :
  walk G u w q ->
  forall n, (List.length q <= S n)%nat -> In q (walks_from G n u).
Proof.
  induction 1 as [v Hv | u v w a p He Hw IH]; intros n Hn.
  - destruct n; left; reflexivity.
  - destruct (walk_head _ _ _ _ Hw) as (p' & ->).
    destruct n as [| n]; [simpl in Hn; lia|].
    simpl. right.
    destruct (successor_of_edge _ _ _ _ He) as (succs & -> & Hin).
    apply in_flat_map. exists (v, a). split; [exact Hin|].
    apply in_map. apply IH. simpl in *. lia.
Qed.

Lemma walk_last (G : DiGraph) (u w : node) (q : list node) :
  walk G u w q -> exists q0, q = q0 ++ [w].
Proof.
  induction 1 as [v Hv | u v w a p He Hw (q0 & ->)].
  - exists []. reflexivity.
  - exists (u :: q0). reflexivity.
Qed.

Lemma walk_cons_inv (G : DiGraph) (x w y : node) (q : list node) :
  walk G x w (y :: q) -> q <> [] ->
  exists v a q', q = v :: q' /\ edge G y v = Ok a /\ walk G v w q.
Proof.
  intros Hw Hq. inversion Hw; subst; [contradiction|].
  match goal with H : walk G _ w q |- _ =>
    destruct (walk_head _ _ _ _ H) as (q' & ->) end.
  eexists _, _, q'. split; [reflexivity|]. split; eassumption.
Qed.

(** The total of a path up to one of its vertices is no more than the
    whole. *)
Lemma prefix_total_le (G : DiGraph) :
  (forall u v a, edge G u v = Ok a -> 0 <= weight a) ->
  forall (p1 : list node) (u x w : node) (p2 : list node) (c c1 : R),
    walk G x w (p1 ++ u :: p2) ->
    path_total weight G (p1 ++ u :: p2) = Ok c ->
    path_total weight G (p1 ++ [u]) = Ok c1 ->
    c1 <= c.
Proof.
  intros Hpos. induction p1 as [| y p1 IH]; intros u x w p2 c c1 Hw Hc Hc1.
  - simpl in Hc1. injection Hc1 as <-.
    destruct (walk_total G Hpos _ _ _ Hw) as (c' & Hc' & Hle).
    simpl in Hc, Hc'. congruence.
  - change ((y :: p1) ++ u :: p2) with (y :: (p1 ++ u :: p2)) in Hw, Hc.
    change ((y :: p1) ++ [u]) with (y :: (p1 ++ [u])) in Hc1.
    destruct (walk_cons_inv _ _ _ _ _ Hw) as (v & a & q' & Eq & He & Hw').
    { destruct p1; discriminate. }
    assert (Er : exists r, p1 ++ [u] = v :: r).
    { destruct p1 as [| z p1]; simpl in *.
      - injection Eq as -> _. exists []. reflexivity.
      - injection Eq as -> _. eexists. reflexivity. }
    destruct Er as (r & Er).
    pose proof (path_total_step G weight _ _ q' _ He) as S1.
    pose proof (path_total_step G weight _ _ r _ He) as S2.
    rewrite <- Eq in S1. rewrite <- Er in S2. rewrite S1 in Hc. rewrite S2 in Hc1.
    destruct (path_total weight G (p1 ++ u :: p2)) as [d | |] eqn:Ed; try discriminate.
    destruct (path_total weight G (p1 ++ [u])) as [d1 | |] eqn:Ed1; try discriminate.
    simpl in Hc, Hc1. injection Hc as <-. injection Hc1 as <-.
    specialize (IH u v w p2 d d1 Hw' Ed Ed1). lra.
Qed.

Section Progress.
Variable G : DiGraph.
Variables s t : node.
Hypothesis G_nodup : forall u succs,
  dict_get point_eqb G u = Some succs -> NoDup (map fst succs).
Hypothesis G_closed : forall u v a, edge G u v = Ok a -> In v (nodes G).
Hypothesis weights_nonneg : forall u v a, edge G u v = Ok a -> 0 <= weight a.
Hypothesis source_in_G : In s (nodes G).

Local Abbreviation dget := (dict_get point_eqb).

(** The condition under which [relax] pushes [u] at cost [ncost]. *)
Local Abbreviation improves E u ncost :=
  (dget E u = None \/
   exists qcost h0 : R, dget E u = Some (qcost, h0) /\ ncost < qcost).

(** The total of a trail is one of the candidates. *)
Lemma trail_total (E : list (node * (R * R))) (v : node) (g : R) (p : list node) :
  trail G s E v g p -> In g (totals G s).
Proof.
  intros (Hw & Hc & Hnd & _ & _).
  unfold totals. apply in_flat_map. exists p. split.
  - apply (walk_in_walks_from _ _ _ _ Hw).
    destruct (walk_head _ _ _ _ Hw) as (p' & ->). simpl in *.
    assert (List.length p' <= List.length (nodes G))%nat.
    { apply NoDup_incl_length; [exact Hnd|].
      intros x Hx. apply (walk_vertices _ _ _ _ Hw). right. exact Hx. }
    lia.
  - rewrite Hc. left. reflexivity.
Qed.

Lemma dominated_pushed (E : list (node * (R * R))) (u : node) (ncost h : R)
    (p : list node) :
  improves E u ncost ->
  dominated G s E p -> dominated G s (dict_set point_eqb E u (ncost, h)) p.
Proof.
  intros Hu Hd p1 x p2 Ep Hp2 Hxs.
  destruct (Hd p1 x p2 Ep Hp2 Hxs) as (g0 & h0 & c & HE & Hc & Hle).
  destruct (point_eqb u x) eqn:E0.
  - apply point_eqb_eq in E0. subst x. rewrite dget_set_same.
    destruct Hu as [Hu | (qcost & h1 & Hu & Hq)]; [congruence|].
    rewrite Hu in HE. injection HE as <- <-.
    exists ncost, h, c. split; [reflexivity|]. split; [exact Hc | lra].
  - apply point_eqb_neq in E0. rewrite dget_set_other by exact E0.
    exists g0, h0, c. split; [exact HE|]. split; assumption.
Qed.

Lemma trail_pushed (E : list (node * (R * R))) (u : node) (ncost h : R)
    (v : node) (g : R) (p : list node) :
  improves E u ncost ->
  trail G s E v g p -> trail G s (dict_set point_eqb E u (ncost, h)) v g p.
Proof.
  intros Hu (Hw & Hc & Hnd & Hs & Hd).
  refine (conj Hw (conj Hc (conj Hnd (conj Hs _)))).
  apply dominated_pushed; assumption.
Qed.

Lemma NoDup_snoc {A : Type} (l : list A) (x : A) :
  NoDup l -> ~ In x l -> NoDup (l ++ [x]).
Proof.
  intros Hl Hx. apply NoDup_app; [exact Hl | repeat constructor; intros [] |].
  intros a Ha [<- | []]. contradiction.
Qed.

(** A vertex that is pushed is not on the trail of the vertex that is
    expanded. *)
Lemma pushed_off_trail (E : list (node * (R * R))) (v : node) (g : R)
    (p : list node) (u : node) (a : edge_attr) (ncost : R) :
  trail G s E v g p ->
  (v <> s -> exists g' h', dget E v = Some (g', h') /\ g' <= g) ->
  edge G v u = Ok a -> ncost = g + weight a ->
  improves E u ncost ->
  u <> s -> ~ In u p.
Proof.
  intros (Hw & Hc & Hnd & _ & Hd) Hv He Hn Hu Hus Hin.
  pose proof (weights_nonneg _ _ _ He) as Hpos.
  destruct (walk_head _ _ _ _ Hw) as (p' & Ep). subst p.
  destruct Hin as [Hin | Hin]; [congruence|].
  destruct (in_split _ _ Hin) as (l1 & l2 & ->).
  destruct l2 as [| y l2].
  - destruct (walk_last _ _ _ _ Hw) as (q0 & Eq).
    change (s :: l1 ++ [u]) with ((s :: l1) ++ [u]) in Eq.
    apply app_inj_tail in Eq. destruct Eq as [_ ->].
    destruct (Hv Hus) as (g' & h' & HE & Hle).
    destruct Hu as [Hu | (qcost & h0 & Hu & Hq)]; [congruence|].
    rewrite Hu in HE. injection HE as <- <-. lra.
  - destruct (Hd (s :: l1) u (y :: l2) eq_refl) as (g0 & h0 & c1 & HE & Hc1 & Hle);
      [discriminate | exact Hus |].
    pose proof (prefix_total_le G weights_nonneg (s :: l1) u s v (y :: l2) g c1
                  Hw Hc Hc1) as Hpre.
    destruct Hu as [Hu | (qcost & h1 & Hu & Hq)]; [congruence|].
    rewrite Hu in HE. injection HE as <- <-. lra.
Qed.

(** The trail of a pushed vertex: the trail of the expanded one, and the
    edge between them. *)
Lemma trail_extend (E : list (node * (R * R))) (v : node) (g : R)
    (p : list node) (u : node) (a : edge_attr) (ncost h : R) :
  trail G s E v g p -> ~ In s (tl p) ->
  (v <> s -> exists g' h', dget E v = Some (g', h') /\ g' <= g) ->
  edge G v u = Ok a -> ncost = g + weight a ->
  improves E u ncost ->
  trail G s (dict_set point_eqb E u (ncost, h)) u ncost (p ++ [u]).
Proof.
  intros Ht Hs Hv He Hn Hu.
  pose proof (pushed_off_trail E v g p u a ncost Ht Hv He Hn Hu) as Hoff.
  pose proof Ht as (Hw & Hc & Hnd & _ & Hd).
  destruct (walk_snoc G G_closed _ _ _ _ _ _ Hw He Hc) as (Hw' & Hc').
  destruct (walk_head _ _ _ _ Hw) as (p' & Ep). subst p. simpl in Hs, Hnd.
  assert (Hup : ~ In u p').
  { destruct (point_eqb u s) eqn:Eus.
    - apply point_eqb_eq in Eus. subst u. exact Hs.
    - apply point_eqb_neq in Eus. intros Hin. apply (Hoff Eus). right. exact Hin. }
  split; [exact Hw'|]. split; [rewrite Hc', Hn; reflexivity|].
  split; [simpl; apply NoDup_snoc; assumption|].
  split.
  - intros Hus Hin. simpl in Hin. apply in_app_or in Hin.
    destruct Hin as [Hin | [E0 | []]]; [contradiction | congruence].
  - intros p1 x p2 Ep Hp2 Hxs.
    destruct (exists_last Hp2) as (l' & z & ->).
    change (p1 ++ x :: l' ++ [z]) with (p1 ++ (x :: l') ++ [z]) in Ep.
    rewrite app_assoc in Ep. apply app_inj_tail in Ep. destruct Ep as [Ep <-].
    destruct l' as [| y l'].
    + destruct (walk_last _ _ _ _ Hw) as (q0 & Eq).
      rewrite Ep in Eq. apply app_inj_tail in Eq. destruct Eq as [_ <-].
      destruct (Hv Hxs) as (g' & h' & HE & Hle).
      assert (Hux : u <> x).
      { intros ->. apply (Hoff Hxs). rewrite Ep. apply in_or_app. right. left. reflexivity. }
      rewrite dget_set_other by exact Hux.
      exists g', h', g. split; [exact HE|]. split; [rewrite <- Ep; exact Hc | exact Hle].
    + apply (dominated_pushed E u ncost h _ Hu Hd p1 x (y :: l') Ep);
        [discriminate | exact Hxs].
Qed.

(** ** The order of the parents is kept *)

Lemma edge_unique (u v : node) (a a' : edge_attr) :
  edge G u v = Ok a -> edge G u v = Ok a' -> a = a'.
Proof. congruence. Qed.

Lemma chain_skip (xc : node -> R) (stamp : node -> nat) (st : astar_state)
    (m : qentry) (q' : list qentry) :
  search_inv G s t xc (fun _ => False) st ->
  chain_inv G s xc stamp st ->
  heappop (queue st) = Some (m, q') ->
  chain_inv G s xc stamp (mk_astar q' (counter st) (enqueued st) (explored st)).
Proof.
  intros Hinv [C1 C2 C3 C4 C5 C6] Hpop.
  destruct (heappop_spec _ _ _ (proj1 (inv_counts _ _ _ _ _ _ Hinv)) Hpop)
    as (_ & _ & Hq' & _).
  assert (Hsub : forall e, In e q' -> In e (queue st))
    by (intros e He; apply Hq' in He; tauto).
  constructor; simpl; eauto.
Qed.

Lemma chain_expand (xc : node -> R) (stamp : node -> nat) (st : astar_state)
    (m : qentry) (q' : list qentry) :
  search_inv G s t xc (fun _ => False) st ->
  chain_inv G s xc stamp st ->
  heappop (queue st) = Some (m, q') ->
  skip (mk_astar q' (counter st) (enqueued st) (explored st)) (q_node m) (q_dist m)
    = Ok false ->
  chain_inv G s (upd xc (q_node m) (q_dist m))
    (restamp stamp (q_node m) (q_count m))
    (mk_astar q' (counter st) (enqueued st)
       (dict_set point_eqb (explored st) (q_node m) (q_parent m))).
Proof.
  intros Hinv [C1 C2 C3 C4 C5 C6] Hpop Hskip.
  pose proof Hinv as [Ientry Icounts Isource Itarget Iexp Inone Iheur Iclosed].
  destruct (heappop_spec _ _ _ (proj1 Icounts) Hpop) as (Hm & Hmin & Hq' & Hnd').
  assert (Hsub : forall e, In e q' -> In e (queue st))
    by (intros e He; apply Hq' in He; tauto).
  destruct (Ientry m Hm) as (p & a & g' & h & Hp & Hxp & He & Hle & HE & Hg & Hprio).
  set (v := q_node m) in *. set (g := q_dist m) in *.
  assert (Hvs : v <> s).
  { intros E. unfold skip in Hskip. simpl in Hskip. fold v in Hskip.
    rewrite E, (proj1 Isource) in Hskip. discriminate. }
  assert (Hstrict : dget (explored st) v <> None -> g < xc v).
  { intros Hx. unfold skip in Hskip. simpl in Hskip. fold v g in Hskip.
    destruct (dget (explored st) v) as [[p0 |] |] eqn:EX.
    - unfold dict_item in Hskip. rewrite HE in Hskip. simpl in Hskip.
      injection Hskip as Hskip. apply Rltb_ge in Hskip.
      destruct (C3 m p0 g' h Hm EX HE) as [Hlt | Hlt]; [exact Hlt | fold g in Hlt; lra].
    - apply Inone in EX. contradiction.
    - contradiction. }
  assert (Hxc_other : forall w, w <> v -> upd xc v g w = xc w).
  { intros w Hw. unfold upd. apply point_eqb_neq in Hw. rewrite Hw. reflexivity. }
  assert (Hxc_same : upd xc v g v = g).
  { unfold upd. rewrite point_eqb_refl. reflexivity. }
  assert (Hst_other : forall w, w <> v -> restamp stamp v (q_count m) w = stamp w).
  { intros w Hw. unfold restamp. apply point_eqb_neq in Hw. rewrite Hw. reflexivity. }
  assert (Hst_same : restamp stamp v (q_count m) v = q_count m).
  { unfold restamp. rewrite point_eqb_refl. reflexivity. }
  constructor; simpl.
  - (* entries *)
    intros e p1 a1 Hin Hp1 He1. pose proof (Hsub e Hin) as Hin0.
    destruct (point_eqb p1 v) eqn:E1.
    + apply point_eqb_eq in E1. subst p1. left. rewrite Hxc_same.
      destruct (Ientry e Hin0) as (pe & ae & ge & he & Hpe & Hxpe & Hee & Hlee & _).
      rewrite Hp1 in Hpe. injection Hpe as <-.
      rewrite (edge_unique _ _ _ _ He1 Hee). specialize (Hstrict Hxpe). lra.
    + apply point_eqb_neq in E1.
      rewrite Hxc_other, Hst_other by exact E1. eapply C1; eassumption.
  - (* explored *)
    intros w p1 a1 HX He1. destruct (point_eqb v w) eqn:E1.
    + apply point_eqb_eq in E1. subst w. rewrite dget_set_same in HX.
      rewrite Hp in HX. injection HX as <-.
      assert (Hpv : p <> v) by (intros ->; apply (C6 m Hm Hvs); exact Hp).
      rewrite Hxc_same, Hst_same, Hxc_other, Hst_other by exact Hpv.
      exact (C1 m p a1 Hm Hp He1).
    + apply point_eqb_neq in E1. rewrite dget_set_other in HX by exact E1.
      rewrite (Hxc_other w), (Hst_other w) by congruence.
      destruct (point_eqb p1 v) eqn:E2.
      * apply point_eqb_eq in E2. subst p1. left. rewrite Hxc_same.
        destruct (Iexp _ _ HX) as (_ & Hxv & a0 & g0 & h0 & He0 & Hle0 & _).
        rewrite (edge_unique _ _ _ _ He1 He0). specialize (Hstrict Hxv). lra.
      * apply point_eqb_neq in E2.
        rewrite Hxc_other, Hst_other by exact E2. eapply C2; eassumption.
  - (* fresh *)
    intros e p1 g1 h1 Hin HX HE1. pose proof (Hsub e Hin) as Hin0.
    destruct (point_eqb v (q_node e)) eqn:E1.
    + apply point_eqb_eq in E1. right.
      destruct (Ientry e Hin0) as (_ & _ & ge & he & _ & _ & _ & _ & HEe & Hge & Hpre).
      rewrite HE1 in HEe. injection HEe as <- <-.
      destruct (Rle_lt_or_eq_dec _ _ Hge) as [Hlt | Heq]; [exact Hlt | exfalso].
      assert (HEm : dget (enqueued st) (q_node e) = Some (g', h))
        by (rewrite <- E1; exact HE).
      rewrite HE1 in HEm. injection HEm as <- <-.
      specialize (Hmin e Hin0).
      assert (Hgm : g = q_dist e) by (fold g in Hprio; lra).
      assert (e = m) by (apply C5; [exact Hin0 | exact Hm | symmetry; exact E1 | symmetry; exact Hgm]).
      subst e. apply Hq' in Hin. destruct Hin as [_ N]. apply N. reflexivity.
    + apply point_eqb_neq in E1. rewrite dget_set_other in HX by exact E1.
      rewrite Hxc_other by congruence. eapply C3; eassumption.
  - (* stamps *)
    intros w HX. destruct (point_eqb v w) eqn:E1.
    + apply point_eqb_eq in E1. subst w. rewrite Hst_same. apply Icounts. exact Hm.
    + apply point_eqb_neq in E1. rewrite dget_set_other in HX by exact E1.
      rewrite Hst_other by congruence. apply C4. exact HX.
  - intros e1 e2 H1 H2. apply C5; apply Hsub; assumption.
  - intros e H1. apply C6. apply Hsub. exact H1.
Qed.

Lemma chain_push (xc : node -> R) (stamp : node -> nat) (v u : node)
    (g ncost h : R) (a : edge_attr) (processed : list (node * edge_attr))
    (st : astar_state) :
  relax_inv G s t xc v g processed st ->
  chain_inv G s xc stamp st ->
  edge G v u = Ok a -> ncost = g + weight a ->
  improves (enqueued st) u ncost ->
  chain_inv G s xc stamp (pushed st v u ncost h).
Proof.
  intros (Hinv & Hxv & Hxc & Hbest & HEv & Hproc) [C1 C2 C3 C4 C5 C6] He Hn Hu.
  pose proof (weights_nonneg _ _ _ He) as Hpos.
  destruct Hinv as [Ientry Icounts Isource Itarget Iexp Inone Iheur Iclosed].
  assert (Hold : forall e, In e (queue st) -> q_node e = u -> ncost < q_dist e).
  { intros e Hin Hnode.
    destruct (Ientry e Hin) as (_ & _ & ge & he & _ & _ & _ & _ & HEe & Hge & _).
    rewrite Hnode in HEe.
    destruct Hu as [Hu | (qcost & h0 & Hu & Hq)]; [congruence|].
    rewrite Hu in HEe. injection HEe as <- <-. lra. }
  constructor; simpl.
  - intros e p1 a1 [<- | Hin] Hp1 He1; simpl in *.
    + injection Hp1 as <-. right. apply C4. exact Hxv.
    + eapply C1; eassumption.
  - exact C2.
  - intros e p1 g1 h1 [<- | Hin] HX HE1; simpl in *.
    + rewrite dget_set_same in HE1. injection HE1 as <- <-. left.
      destruct (Iexp _ _ HX) as (_ & _ & a0 & g0 & h0 & _ & _ & HE0 & Hg0).
      destruct Hu as [Hu | (qcost & h1 & Hu & Hq)]; [congruence|].
      rewrite Hu in HE0. injection HE0 as <- <-. lra.
    + destruct (point_eqb u (q_node e)) eqn:E1.
      * apply point_eqb_eq in E1. rewrite <- E1 in HE1.
        rewrite dget_set_same in HE1. injection HE1 as <- <-.
        right. apply Hold; [exact Hin | symmetry; exact E1].
      * apply point_eqb_neq in E1. rewrite dget_set_other in HE1 by exact E1.
        eapply C3; eassumption.
  - intros w HX. specialize (C4 w HX). lia.
  - intros e1 e2 [<- | H1] [<- | H2] Hnode Hdist; simpl in *.
    + reflexivity.
    + specialize (Hold e2 H2 (eq_sym Hnode)). lra.
    + specialize (Hold e1 H1 Hnode). lra.
    + apply C5; assumption.
  - intros e [<- | Hin] Hes; simpl in *.
    + intros [= ->]. specialize (HEv Hes).
      destruct Hu as [Hu | (qcost & h0 & Hu & Hq)]; [contradiction|].
      rewrite (best_other _ _ _ _ _ Hes Hu) in Hbest. lra.
    + apply C6; assumption.
Qed.

(** ** A turn of the loop uses up some of the potential *)

Lemma progress_push (xc : node -> R) (stamp : node -> nat) (v u : node)
    (g ncost h : R) (a : edge_attr) (processed : list (node * edge_attr))
    (p : list node) (st : astar_state) :
  relax_inv G s t xc v g processed st ->
  progress_inv G s xc stamp v g p st ->
  edge G v u = Ok a -> ncost = g + weight a ->
  improves (enqueued st) u ncost ->
  progress_inv G s xc stamp v g p (pushed st v u ncost h) /\
  (potential G s (pushed st v u ncost h) <= potential G s st)%nat.
Proof.
  intros Hrel (Hch & Htr & Hp & Hsp) He Hn Hu.
  assert (Hv : v <> s -> exists g' h', dget (enqueued st) v = Some (g', h') /\ g' <= g).
  { destruct Hrel as (_ & _ & _ & Hbest & HEv & _). intros Hvs.
    specialize (HEv Hvs). destruct (dget (enqueued st) v) as [[g' h'] |] eqn:E;
      [| contradiction].
    exists g', h'. split; [reflexivity|].
    rewrite (best_other _ _ _ _ _ Hvs E) in Hbest. lra. }
  pose proof (trail_extend _ _ _ _ _ _ _ h Hp Hsp Hv He Hn Hu) as Hnew.
  split; [split; [| split; [| split]] |].
  - eapply chain_push; eassumption.
  - intros e [<- | Hin]; simpl.
    + exists (p ++ [u]). exact Hnew.
    + destruct (Htr e Hin) as (q & Hq). exists q. apply trail_pushed; assumption.
  - simpl. apply trail_pushed; assumption.
  - exact Hsp.
  - apply potential_pushed; [eapply G_closed; exact He | | exact Hu].
    eapply trail_total. exact Hnew.
Qed.

Lemma relax_progress (xc : node -> R) (stamp : node -> nat) (v : node) (g : R)
    (p : list node) :
  forall (rest processed : list (node * edge_attr)) (st st' : astar_state),
    dget G v = Some (processed ++ rest) ->
    relax_inv G s t xc v g processed st ->
    progress_inv G s xc stamp v g p st ->
    relax t v g rest st = Ok st' ->
    progress_inv G s xc stamp v g p st' /\
    (potential G s st' <= potential G s st)%nat.
Proof.
  induction rest as [| [u a] rest IH]; intros processed st st' HG Hrel Hpro; simpl.
  - intros [= <-]. split; [exact Hpro | lia].
  - assert (Hedge : edge G v u = Ok a).
    { eapply edge_of_successor; [exact G_nodup | exact HG |].
      apply in_or_app. right. left. reflexivity. }
    replace (processed ++ (u, a) :: rest) with ((processed ++ [(u, a)]) ++ rest)
      in HG by (rewrite <- app_assoc; reflexivity).
    destruct (dget (enqueued st) u) as [[qcost h] |] eqn:Eu.
    + destruct (Rleb qcost (g + weight a)) eqn:Ele.
      * apply Rleb_le in Ele. intros Hr.
        eapply (IH (processed ++ [(u, a)])); [exact HG | | exact Hpro | exact Hr].
        destruct Hrel as (H1 & H2 & H3 & H4 & H5 & H6).
        refine (conj H1 (conj H2 (conj H3 (conj H4 (conj H5 _))))).
        intros u0 a0 Hin. apply in_app_or in Hin.
        destruct Hin as [Hin | [[= <- <-] | []]]; [apply H6; exact Hin|].
        right. exists qcost, h. split; [exact Eu | exact Ele].
      * apply Rleb_gt in Ele. intros Hr.
        destruct (progress_push xc stamp v u g (g + weight a) h a processed p st
                    Hrel Hpro Hedge eq_refl) as (Hpro' & Hpot).
        { right. exists qcost, h. split; [exact Eu | exact Ele]. }
        destruct (IH (processed ++ [(u, a)]) (pushed st v u (g + weight a) h) st' HG)
          as (Hpro'' & Hpot'); [| exact Hpro' | exact Hr | split; [exact Hpro'' | lia]].
        apply (push_keeps G s t weights_nonneg xc v u g (g + weight a) h a);
          try assumption; try reflexivity.
        -- destruct Hrel as (H1 & _). eapply (inv_heur _ _ _ _ _ _ H1). exact Eu.
        -- right. exists qcost. split; [exact Eu | exact Ele].
    + destruct (math_dist u t) as [h | e |] eqn:Eh; simpl; try discriminate.
      intros Hr.
      destruct (progress_push xc stamp v u g (g + weight a) h a processed p st
                  Hrel Hpro Hedge eq_refl) as (Hpro' & Hpot).
      { left. exact Eu. }
      destruct (IH (processed ++ [(u, a)]) (pushed st v u (g + weight a) h) st' HG)
        as (Hpro'' & Hpot'); [| exact Hpro' | exact Hr | split; [exact Hpro'' | lia]].
      apply (push_keeps G s t weights_nonneg xc v u g (g + weight a) h a);
        try assumption; try reflexivity.
      left. exact Eu.
Qed.

(** ** The walk back along the parents ends *)

Lemma rank_ltb_irrefl (xc : node -> R) (stamp : node -> nat) (u : node) :
  rank_ltb xc stamp u u = false.
Proof.
  unfold rank_ltb. rewrite (Rltb_false _ _ (Rle_refl _)), Nat.ltb_irrefl.
  apply andb_false_r.
Qed.

Lemma rank_ltb_trans (xc : node -> R) (stamp : node -> nat) (u v w : node) :
  rank_ltb xc stamp u v = true -> rank_ltb xc stamp v w = true ->
  rank_ltb xc stamp u w = true.
Proof.
  unfold rank_ltb. rewrite !orb_true_iff, !andb_true_iff, !Rltb_lt, !Reqb_eq,
    !Nat.ltb_lt.
  intros [H1 | [H1 H1']] [H2 | [H2 H2']]; try (left; lra).
  right. split; [lra | lia].
Qed.

Lemma parent_ranks_below (xc : node -> R) (stamp : node -> nat)
    (st : astar_state) (v p : node) :
  search_inv G s t xc (fun _ => False) st ->
  chain_inv G s xc stamp st ->
  dget (explored st) v = Some (Some p) ->
  rank_ltb xc stamp p v = true /\ In p (nodes G) /\ dget (explored st) p <> None.
Proof.
  intros Hinv Hch HX.
  destruct (inv_explored _ _ _ _ _ _ Hinv _ _ HX)
    as (_ & Hxp & a & g & h & He & Hle & _).
  pose proof (weights_nonneg _ _ _ He) as Hpos.
  split; [| split; [| exact Hxp]].
  - unfold rank_ltb. rewrite orb_true_iff, andb_true_iff, Rltb_lt, Reqb_eq, Nat.ltb_lt.
    destruct (ch_explored _ _ _ _ _ Hch _ _ _ HX He) as [Hlt | Hlt]; [left; lra|].
    destruct (Rle_lt_or_eq_dec (xc p) (xc v)) as [H | H]; [lra | left; exact H |].
    right. split; assumption.
  - destruct (successor_of_edge _ _ _ _ He) as (succs & HG & _).
    apply nodes_defined. rewrite HG. discriminate.
Qed.

Lemma walk_back_finishes (xc : node -> R) (stamp : node -> nat)
    (st : astar_state) :
  search_inv G s t xc (fun _ => False) st ->
  chain_inv G s xc stamp st ->
  forall (n : nat) (v : node) (fuel : nat),
    dget (explored st) v <> None ->
    (List.length (filter (fun u => rank_ltb xc stamp u v) (nodes G)) <= n)%nat ->
    (n < fuel)%nat ->
    walk_back fuel (explored st) (Some v) <> Diverge.
Proof.
  intros Hinv Hch.
  induction n as [| n IH]; intros v fuel Hx Hn Hfuel;
    (destruct fuel as [| fuel]; [lia|]); simpl; unfold dict_item;
    destruct (dget (explored st) v) as [[p |] |] eqn:EX; simpl;
    try contradiction; try (rewrite walk_back_None; simpl; discriminate).
  - destruct (parent_ranks_below _ _ _ _ _ Hinv Hch EX) as (Hr & Hp & _).
    exfalso.
    assert (Hin : In p (filter (fun u => rank_ltb xc stamp u v) (nodes G)))
      by (apply filter_In; split; assumption).
    destruct (filter (fun u => rank_ltb xc stamp u v) (nodes G)); [contradiction|].
    simpl in Hn. lia.
  - destruct (parent_ranks_below _ _ _ _ _ Hinv Hch EX) as (Hr & Hp & Hxp).
    assert (Hlt : (List.length (filter (fun u => rank_ltb xc stamp u p) (nodes G))
                   < List.length (filter (fun u => rank_ltb xc stamp u v) (nodes G)))%nat).
    { apply (filter_count_lt _ _ _ p).
      - intros x Hxp'. eapply rank_ltb_trans; eassumption.
      - exact Hp.
      - exact Hr.
      - apply rank_ltb_irrefl. }
    specialize (IH p fuel Hxp ltac:(lia) ltac:(lia)).
    destruct (walk_back fuel (explored st) (Some p)); simpl;
      [discriminate | discriminate | contradiction].
Qed.

(** ** The loop ends *)

Lemma heap_remove_length (c : nat) (q : list qentry) :
  (exists e, In e q /\ q_count e = c) ->
  List.length q = S (List.length (heap_remove c q)).
Proof.
  induction q as [| x q IH]; intros (e & Hin & Hc); simpl; [contradiction|].
  destruct (q_count x =? c)%nat eqn:E; [reflexivity|].
  simpl. f_equal. apply IH. destruct Hin as [-> | Hin].
  - apply Nat.eqb_neq in E. contradiction.
  - exists e. split; assumption.
Qed.

Lemma heappop_length (q q' : list qentry) (m : qentry) :
  heappop q = Some (m, q') -> List.length q = S (List.length q').
Proof.
  destruct q as [| e q0]; simpl; [discriminate|].
  intros [= <- <-]. 
  apply (heap_remove_length _ (e :: q0)).
  exists (heap_min e q0). split; [apply heap_min_In | reflexivity].
Qed.

Lemma relax_finishes (v : node) (g : R) :
  forall (succs : list (node * edge_attr)) (st : astar_state),
    relax t v g succs st <> Diverge.
Proof.
  induction succs as [| [u a] succs IH]; intros st; simpl; [discriminate|].
  destruct (dget (enqueued st) u) as [[qcost h] |].
  - destruct (Rleb qcost (g + weight a)); apply IH.
  - pose proof (math_dist_not_diverge u t).
    destruct (math_dist u t); simpl; [apply IH | discriminate | contradiction].
Qed.

Lemma skip_finishes (st : astar_state) (v : node) (d : R) : skip st v d <> Diverge.
Proof.
  unfold skip, dict_item. destruct (dget (explored st) v) as [[p |] |]; try discriminate.
  destruct (dget (enqueued st) v); simpl; discriminate.
Qed.

Lemma astar_loop_finishes :
  forall (fuel : nat) (xc : node -> R) (stamp : node -> nat) (st : astar_state),
    search_inv G s t xc (fun _ => False) st ->
    chain_inv G s xc stamp st ->
    (forall e, In e (queue st) ->
       exists q, trail G s (enqueued st) (q_node e) (q_dist e) q) ->
    (potential G s st + List.length (nodes G) < fuel)%nat ->
    astar_loop fuel G t st <> Diverge.
Proof.
  induction fuel as [| fuel IH]; intros xc stamp st Hinv Hch Htr Hfuel; [lia|].
  simpl.
  destruct (heappop (queue st)) as [[m q'] |] eqn:Hpop; [| discriminate].
  pose proof (heappop_length _ _ _ Hpop) as Hlen.
  pose proof (inv_counts _ _ _ _ _ _ Hinv) as Icounts.
  destruct (heappop_spec _ _ _ (proj1 Icounts) Hpop) as (Hm & Hmin & Hq' & Hnd').
  assert (Hsub : forall e, In e q' -> In e (queue st))
    by (intros e He; apply Hq' in He; tauto).
  destruct (point_eqb (q_node m) t) eqn:Et.
  - destruct (inv_entry _ _ _ _ _ _ Hinv m Hm) as (p & a & g' & h & Hp & Hxp & _).
    rewrite Hp.
    assert (Hb : walk_back fuel (explored st) (Some p) <> Diverge).
    { apply (walk_back_finishes xc stamp st Hinv Hch (List.length (nodes G)));
        [exact Hxp | apply filter_length_le |].
      unfold potential in Hfuel. lia. }
    destruct (walk_back fuel (explored st) (Some p)); simpl;
      [discriminate | discriminate | contradiction].
  - apply point_eqb_neq in Et.
    pose proof (skip_finishes (mk_astar q' (counter st) (enqueued st) (explored st))
                  (q_node m) (q_dist m)) as Hsk.
    destruct (skip _ (q_node m) (q_dist m)) as [[|] | |] eqn:Esk; simpl;
      try discriminate; try contradiction.
    + apply (IH xc stamp).
      * eapply skip_keeps; eassumption.
      * eapply chain_skip; eassumption.
      * simpl. intros e He. apply Htr. apply Hsub. exact He.
      * unfold potential in *. simpl. lia.
    + unfold dict_item.
      destruct (dget G (q_node m)) as [succs |] eqn:EG; simpl; [| discriminate].
      pose proof (relax_finishes (q_node m) (q_dist m) succs
                    (mk_astar q' (counter st) (enqueued st)
                       (dict_set point_eqb (explored st) (q_node m) (q_parent m))))
        as Hfin.
      destruct (relax t (q_node m) (q_dist m) succs _) as [st3 | |] eqn:Er; simpl;
        [| discriminate | contradiction].
      pose proof (expand_start G s t weights_nonneg xc st m q' Hinv Hpop Et Esk) as Hrel.
      pose proof (chain_expand xc stamp st m q' Hinv Hch Hpop Esk) as Hch2.
      destruct (Htr m Hm) as (pm & Hpm).
      assert (Hvs : q_node m <> s).
      { intros E. unfold skip in Esk. simpl in Esk.
        rewrite E, (proj1 (inv_source _ _ _ _ _ _ Hinv)) in Esk. discriminate. }
      destruct (relax_progress _ (restamp stamp (q_node m) (q_count m)) _ _ pm
                  succs [] _ st3 EG Hrel) as (Hpro & Hpot); [| exact Er |].
      { split; [exact Hch2|]. split; [| split].
        - simpl. intros e He. apply Htr. apply Hsub. exact He.
        - exact Hpm.
        - destruct Hpm as (_ & _ & _ & Hs & _). apply Hs. exact Hvs. }
      destruct Hpro as (Hch3 & Htr3 & _).
      apply (IH (upd xc (q_node m) (q_dist m))
                (restamp stamp (q_node m) (q_count m))).
      * apply (relax_done G s t _ (q_node m) (q_dist m) succs); [exact EG|].
        eapply (relax_keeps G s t G_nodup weights_nonneg _ _ _ succs []);
          [exact EG | exact Hrel | exact Er].
      * exact Hch3.
      * exact Htr3.
      * unfold potential in *. simpl in *. lia.
Qed.

Lemma first_progress :
  progress_inv G s (fun _ => 0) (fun _ => 0%nat) s 0 [s]
    (mk_astar [] 1 [] [(s, None)]).
Proof.
  split; [constructor; simpl |].
  - intros e p a [].
  - intros v p a. destruct (point_eqb s v); discriminate.
  - intros e p g h [].
  - intros v _. lia.
  - intros e1 e2 [].
  - intros e [].
  - split; [intros e [] |]. split; [| simpl; tauto].
    split; [apply walk_end; exact source_in_G|].
    split; [reflexivity|]. split; [constructor|].
    split; [simpl; tauto|].
    intros p1 u p2 Ep Hp2. destruct p1 as [| y p1]; simpl in Ep.
    + injection Ep as _ <-. contradiction.
    + destruct p1; discriminate.
Qed.
End Progress.

(** The search stops -- with a path or an exception -- in every graph
    without a negative weight, whatever the heuristic is worth. *)
Lemma astar_path_finishes (G : DiGraph) (s t : node) (fuel : nat) :
  well_formed G ->
  (forall u v a, edge G u v = Ok a -> 0 <= weight a) ->
  (enough_fuel G s <= fuel)%nat ->
  astar_path fuel G s t <> Diverge.
Proof.
  intros [Hnd Hcl] Hpos Hfuel. unfold astar_path.
  destruct (has_node G s) eqn:Hs; simpl; [| discriminate].
  destruct (has_node G t) eqn:Ht; simpl; [| discriminate].
  apply has_node_In in Hs.
  destruct fuel as [| fuel]; [unfold enough_fuel in Hfuel; lia|]. simpl.
  destruct (point_eqb s t) eqn:Est.
  - rewrite walk_back_None. simpl. discriminate.
  - apply point_eqb_neq in Est. unfold dict_item.
    destruct (dict_get point_eqb G s) as [succs |] eqn:EG; simpl; [| discriminate].
    pose proof (relax_finishes t s 0 succs (mk_astar [] 1 [] [(s, None)])) as Hfin.
    destruct (relax t s 0 succs _) as [st3 | |] eqn:Er; simpl;
      [| discriminate | contradiction].
    pose proof (first_expansion G s t Est) as Hrel.
    destruct (relax_progress G s t Hnd Hcl Hpos (fun _ => 0) (fun _ => 0%nat) s 0 [s]
                succs [] _ st3 EG Hrel (first_progress G s Hs) Er)
      as ((Hch & Htr & _) & Hpot).
    apply (astar_loop_finishes G s t Hnd Hcl Hpos fuel (fun _ => 0) (fun _ => 0%nat)).
    + apply (relax_done G s t (fun _ => 0) s 0 succs); [exact EG|].
      eapply (relax_keeps G s t Hnd Hpos (fun _ => 0) s 0 succs []);
        [exact EG | exact Hrel | exact Er].
    + exact Hch.
    + exact Htr.
    + unfold enough_fuel in Hfuel. lia.
Qed.

(* ================================================================== *)
(** * The search finds a path where there is one *)

Section SearchFinds.
Variable G : DiGraph.
Variables s t : node.
Hypothesis G_nodup : forall u succs,
  dict_get point_eqb G u = Some succs -> NoDup (map fst succs).
Hypothesis G_closed : forall u v a, edge G u v = Ok a -> In v (nodes G).
Hypothesis weights_nonneg : forall u v a, edge G u v = Ok a -> 0 <= weight a.
Hypothesis planar : forall v, In v (nodes G) -> List.length v = List.length t.

Local Abbreviation dget := (dict_get point_eqb).

(** A path to [w] has a part that leaves the source for good. *)
Lemma walk_without_return (u w : node) (q : list node) :
  walk G u w q ->
  ~ In s q \/ exists q', walk G s w q' /\ ~ In s (tl q').
Proof.
  induction 1 as [v Hv | u v w a p He Hw IH].
  - destruct (point_eqb v s) eqn:E.
    + apply point_eqb_eq in E. subst v. right. exists [s].
      split; [apply walk_end; exact Hv | simpl; tauto].
    + apply point_eqb_neq in E. left. intros [H | []]. congruence.
  - destruct IH as [Hno | (q' & Hq' & Htl)].
    + destruct (point_eqb u s) eqn:E.
      * apply point_eqb_eq in E. subst u. right. exists (s :: p).
        split; [eapply walk_step; eassumption | exact Hno].
      * apply point_eqb_neq in E. left. intros [H | H]; [congruence | contradiction].
    + right. exists q'. split; assumption.
Qed.

(** While the target can be reached from a vertex whose successors are
    all enqueued, the queue is not empty. *)
Lemma queue_holds_walk (xc : node -> R) (st : astar_state) :
  search_inv G s t xc (fun _ => False) st ->
  forall (u w : node) (q : list node),
    walk G u w q -> w = t -> ~ In s (tl q) -> closed G s st u ->
    exists e, In e (queue st).
Proof.
  intros Hinv u w q Hw.
  induction Hw as [v Hv | u v w a p He Hw IH]; intros Ew Htl Hcl.
  - subst v. destruct Hcl as [Hx _]. exfalso. apply Hx.
    apply (inv_target _ _ _ _ _ _ Hinv).
  - destruct (walk_head _ _ _ _ Hw) as (p' & ->). simpl in Htl.
    assert (Hvs : v <> s) by (intros ->; apply Htl; left; reflexivity).
    destruct Hcl as [Hx Hcl].
    destruct (Hcl v a He) as [-> | (g & h & HE & Hle)]; [congruence|].
    destruct (inv_closed _ _ _ _ _ _ Hinv v (fun F => F)) as [Hl | Hc0].
    + right. rewrite HE. discriminate.
    + destruct Hl as (_ & e & _ & Hein & _). exists e. exact Hein.
    + apply IH; [exact Ew | | exact Hc0]. intros Hin. apply Htl. right. exact Hin.
Qed.

Lemma walk_back_no_raise (xc : node -> R) (st : astar_state) :
  search_inv G s t xc (fun _ => False) st ->
  forall (fuel : nat) (v : node) (e : exn),
    dget (explored st) v <> None ->
    walk_back fuel (explored st) (Some v) <> Raise e.
Proof.
  intros Hinv. induction fuel as [| fuel IH]; intros v e Hx; simpl; [discriminate|].
  unfold dict_item. destruct (dget (explored st) v) as [[p |] |] eqn:EX; simpl;
    try contradiction.
  - destruct (inv_explored _ _ _ _ _ _ Hinv _ _ EX) as (_ & Hxp & _).
    pose proof (IH p) as Hp.
    destruct (walk_back fuel (explored st) (Some p)) as [rest | e' |]; simpl;
      try discriminate.
    exfalso. exact (Hp e' Hxp eq_refl).
  - rewrite walk_back_None. simpl. discriminate.
Qed.

Lemma relax_no_raise (v : node) (g : R) :
  forall (succs : list (node * edge_attr)) (st : astar_state) (e : exn),
    (forall u a, In (u, a) succs -> List.length u = List.length t) ->
    relax t v g succs st <> Raise e.
Proof.
  induction succs as [| [u a] succs IH]; intros st e Hdim; simpl; [discriminate|].
  assert (Hrest : forall u0 a0, In (u0, a0) succs -> List.length u0 = List.length t)
    by (intros u0 a0 Hin; apply (Hdim u0 a0); right; exact Hin).
  destruct (dget (enqueued st) u) as [[qcost h] |].
  - destruct (Rleb qcost (g + weight a)); apply IH; exact Hrest.
  - destruct (math_dist_total u t (Hdim u a (or_introl eq_refl))) as (h & -> & _).
    simpl. apply IH. exact Hrest.
Qed.

Lemma astar_loop_no_raise :
  forall (fuel : nat) (xc : node -> R) (st : astar_state) (e : exn),
    search_inv G s t xc (fun _ => False) st ->
    (exists q, walk G s t q /\ ~ In s (tl q)) ->
    astar_loop fuel G t st <> Raise e.
Proof.
  induction fuel as [| fuel IH]; intros xc st e Hinv Hq; simpl; [discriminate|].
  destruct (heappop (queue st)) as [[m q'] |] eqn:Hpop.
  - pose proof (inv_counts _ _ _ _ _ _ Hinv) as Icounts.
    destruct (heappop_spec _ _ _ (proj1 Icounts) Hpop) as (Hm & _).
    destruct (inv_entry _ _ _ _ _ _ Hinv m Hm)
      as (p & a & g' & h & Hp & Hxp & He & _ & HE & _).
    destruct (point_eqb (q_node m) t) eqn:Et.
    + rewrite Hp. pose proof (walk_back_no_raise xc st Hinv fuel p) as Hb.
      destruct (walk_back fuel (explored st) (Some p)) as [back | e' |]; simpl;
        try discriminate.
      exfalso. exact (Hb e' Hxp eq_refl).
    + apply point_eqb_neq in Et.
      assert (Hsk : exists b, skip (mk_astar q' (counter st) (enqueued st) (explored st))
                                (q_node m) (q_dist m) = Ok b).
      { unfold skip, dict_item. simpl.
        destruct (dget (explored st) (q_node m)) as [[p0 |] |];
          [rewrite HE | |]; eexists; reflexivity. }
      destruct Hsk as ([|] & Esk); rewrite Esk; simpl.
      * apply (IH xc); [eapply skip_keeps; eassumption | exact Hq].
      * unfold dict_item.
        assert (Hin : In (q_node m) (nodes G)) by (eapply G_closed; exact He).
        apply nodes_defined in Hin.
        destruct (dget G (q_node m)) as [succs |] eqn:EG; [| contradiction]. simpl.
        pose proof (relax_no_raise (q_node m) (q_dist m) succs
                      (mk_astar q' (counter st) (enqueued st)
                         (dict_set point_eqb (explored st) (q_node m) (q_parent m))))
          as Hrel.
        destruct (relax t (q_node m) (q_dist m) succs _) as [st3 | e' |] eqn:Er;
          simpl; try discriminate.
        -- apply (IH (upd xc (q_node m) (q_dist m))); [| exact Hq].
           apply (relax_done G s t _ (q_node m) (q_dist m) succs); [exact EG|].
           eapply (relax_keeps G s t G_nodup weights_nonneg _ _ _ succs []);
             [exact EG | | exact Er].
           apply expand_start; assumption.
        -- exfalso. apply (Hrel e'); [| reflexivity].
           intros u a0 Hu. apply planar. eapply G_closed.
           eapply edge_of_successor; [exact G_nodup | exact EG | exact Hu].
  - exfalso. destruct Hq as (q & Hq & Htl).
    destruct (queue_holds_walk xc st Hinv s t q Hq eq_refl Htl
                (closed_source _ _ _ _ _ Hinv))
      as (e0 & He0).
    destruct (queue st); [contradiction | discriminate].
Qed.
End SearchFinds.

(** Where a path leads from [s] to [t], and the vertices have the
    dimension of [t], the search raises no exception. *)
Lemma astar_path_no_raise (G : DiGraph) (s t : node) (q : list node)
    (fuel : nat) (e : exn) :
  well_formed G ->
  (forall u v a, edge G u v = Ok a -> 0 <= weight a) ->
  (forall v, In v (nodes G) -> List.length v = List.length t) ->
  walk G s t q ->
  astar_path fuel G s t <> Raise e.
Proof.
  intros [Hnd Hcl] Hpos Hdim Hq. unfold astar_path.
  assert (Hs : In s (nodes G)).
  { destruct (walk_head _ _ _ _ Hq) as (q' & ->).
    apply (walk_vertices _ _ _ _ Hq). left. reflexivity. }
  assert (Ht : In t (nodes G)).
  { destruct (walk_last _ _ _ _ Hq) as (q0 & ->).
    apply (walk_vertices _ _ _ _ Hq). apply in_or_app. right. left. reflexivity. }
  rewrite (proj2 (has_node_In G s) Hs), (proj2 (has_node_In G t) Ht). simpl.
  destruct fuel as [| fuel]; simpl; [discriminate|].
  destruct (point_eqb s t) eqn:Est.
  - rewrite walk_back_None. simpl. discriminate.
  - apply point_eqb_neq in Est. unfold dict_item.
    pose proof Hs as Hs'. apply nodes_defined in Hs'.
    destruct (dict_get point_eqb G s) as [succs |] eqn:EG; [| contradiction]. simpl.
    pose proof (relax_no_raise t s 0 succs (mk_astar [] 1 [] [(s, None)])) as Hrel.
    destruct (relax t s 0 succs _) as [st3 | e' |] eqn:Er; simpl; try discriminate.
    + apply (astar_loop_no_raise G s t Hnd Hcl Hpos Hdim fuel (fun _ => 0)).
      * apply (relax_done G s t (fun _ => 0) s 0 succs); [exact EG|].
        eapply (relax_keeps G s t Hnd Hpos (fun _ => 0) s 0 succs []);
          [exact EG | | exact Er].
        apply first_expansion. exact Est.
      * destruct (walk_without_return G s s t q Hq) as [Hno | Hq'].
        -- exfalso. apply Hno. destruct (walk_head _ _ _ _ Hq) as (q' & ->).
           left. reflexivity.
        -- exact Hq'.
    + exfalso. apply (Hrel e'); [| reflexivity].
      intros u a Hu. apply Hdim. eapply Hcl.
      eapply edge_of_successor; [exact Hnd | exact EG | exact Hu].
Qed.


(** ** The theorem on [one_road] *)

Lemma one_road_fresh_shortest :
  fresh_graph one_road_state 10 1 = Ok one_road_shortest_graph.
Proof.
  unfold fresh_graph, one_road_state, startup, one_road, dataset, segment_record.
  unfold fresh_edges, fresh_edge, calculate_risk_body. evaluate.
  repeat sqrt_is 1. round2_is 200%Z. round2_is 60%Z.
  replace (200 / 100) with 2 by lra.
  replace (60 / 100) with (6 / 10) by lra.
  replace (1 * 2 + (1 - 1) * (6 / 10)) with 2 by lra.
  reflexivity.
Qed.

Lemma one_road_shortest_edges (u v : node) (a : edge_attr) :
  edge one_road_shortest_graph u v = Ok a ->
  u = [0; 0] /\ v = [1; 0] /\ eta a = 2.
Proof.
  rewrite edge_unfold. unfold one_road_shortest_graph.
  cbn [dict_get].
  destruct (point_eqb [0; 0] u) eqn:Eu.
  - apply point_eqb_eq in Eu. subst u. cbn [dict_get].
    destruct (point_eqb [1; 0] v) eqn:Ev; [| discriminate].
    apply point_eqb_eq in Ev. subst v. intros [= <-]. auto.
  - destruct (point_eqb [1; 0] u); cbn [dict_get]; discriminate.
Qed.




(* ================================================================== *)
(** * Rounding, and what it keeps *)

Lemma round_half_even_close (x : R) :
  IZR (round_half_even x) - 1 / 2 <= x <= IZR (round_half_even x) + 1 / 2.
Proof.
  unfold round_half_even. pose proof (Zfloor_bound x) as [H1 H2].
  destruct (Rltb (x - IZR (Zfloor x)) (1 / 2)) eqn:E1.
  - apply Rltb_lt in E1. lra.
  - apply Rltb_ge in E1.
    destruct (Rltb (1 / 2) (x - IZR (Zfloor x))) eqn:E2.
    + rewrite plus_IZR. lra.
    + apply Rltb_ge in E2. destruct (Z.even (Zfloor x)); [lra|].
      rewrite plus_IZR. lra.
Qed.

Lemma round_half_even_mono (x y : R) :
  x <= y -> (round_half_even x <= round_half_even y)%Z.
Proof.
  intros H.
  destruct (Z_le_gt_dec (round_half_even x) (round_half_even y)) as [L | G];
    [exact L | exfalso].
  pose proof (round_half_even_close x) as [Hx _].
  pose proof (round_half_even_close y) as [_ Hy].
  assert (HG : IZR (round_half_even y) + 1 <= IZR (round_half_even x)).
  { rewrite <- plus_IZR. apply IZR_le. lia. }
  assert (E : x = y) by lra.
  subst y. lia.
Qed.

Lemma round2_mono (x y : R) : x <= y -> round2 x <= round2 y.
Proof.
  intros H. unfold round2.
  assert (Hz : (round_half_even (x * 100) <= round_half_even (y * 100))%Z)
    by (apply round_half_even_mono; lra).
  apply IZR_le in Hz. lra.
Qed.

Lemma round2_close (x : R) : round2 x - 5 / 1000 <= x <= round2 x + 5 / 1000.
Proof.
  unfold round2. pose proof (round_half_even_close (x * 100)). lra.
Qed.


Lemma round2_1 : round2 1 = 1.
Proof. rewrite (round2_near 1 100) by lra. lra. Qed.


(* ================================================================== *)
(** * The time multiplier at every hour *)

Lemma tanh_mono (x y : R) : x <= y -> tanh x <= tanh y.
Proof.
  intros H. rewrite !tanh_exp.
  pose proof (exp_pos (2 * x)) as Hx. pose proof (exp_pos (2 * y)) as Hy.
  assert (Hxy : exp (2 * x) <= exp (2 * y)).
  { destruct (Rle_lt_or_eq_dec _ _ H) as [Hlt | ->]; [| lra].
    left. apply exp_increasing. lra. }
  apply (Rmult_le_reg_r ((exp (2 * x) + 1) * (exp (2 * y) + 1))); [nra|].
  replace ((exp (2 * x) - 1) / (exp (2 * x) + 1)
           * ((exp (2 * x) + 1) * (exp (2 * y) + 1)))
    with ((exp (2 * x) - 1) * (exp (2 * y) + 1)) by (field; lra).
  replace ((exp (2 * y) - 1) / (exp (2 * y) + 1)
           * ((exp (2 * x) + 1) * (exp (2 * y) + 1)))
    with ((exp (2 * y) - 1) * (exp (2 * x) + 1)) by (field; lra).
  nra.
Qed.

Lemma tanh_below_1 (x : R) : tanh x < 1.
Proof.
  rewrite tanh_exp. pose proof (exp_pos (2 * x)) as Hx.
  apply (Rmult_lt_reg_r (exp (2 * x) + 1)); [lra|].
  replace ((exp (2 * x) - 1) / (exp (2 * x) + 1) * (exp (2 * x) + 1))
    with (exp (2 * x) - 1) by (field; lra).
  lra.
Qed.

Lemma time_multiplier_range (h : Z) : 1 <= time_multiplier h <= 12 / 10.
Proof.
  unfold time_multiplier. destruct (h <? 20)%Z eqn:E; [lra|].
  apply Z.ltb_ge in E. apply IZR_le in E.
  assert (H0 : 0 <= tanh ((IZR h - 20) / 2))
    by (rewrite <- tanh_0; apply tanh_mono; lra).
  pose proof (tanh_below_1 ((IZR h - 20) / 2)) as H1.
  split.
  - rewrite <- round2_1 at 1. apply round2_mono. lra.
  - replace (12 / 10) with (round2 (12 / 10))
      by (rewrite (round2_near (12 / 10) 120) by lra; lra).
    apply round2_mono. lra.
Qed.


(* ================================================================== *)
(** * Bounds on the risk score *)




(* ================================================================== *)
(** * Stored lengths and the travel times built from them *)

Lemma math_dist_nonneg (p q : point) (d : R) : math_dist p q = Ok d -> 0 <= d.
Proof.
  unfold math_dist. destruct (sum_sq p q); simpl; try discriminate.
  intros [= <-]. apply sqrt_pos.
Qed.


Lemma hget_set_same {V : Type} (d : list (hkey * V)) (k : hkey) (v : V) :
  dict_get hkey_eqb (dict_set hkey_eqb d k v) k = Some v.
Proof. apply (dict_get_set_same _ hkey_eqb_eq). Qed.

Lemma hget_set_other {V : Type} (d : list (hkey * V)) (k k' : hkey) (v : V) :
  k <> k' -> dict_get hkey_eqb (dict_set hkey_eqb d k v) k' = dict_get hkey_eqb d k'.
Proof. apply (dict_get_set_other _ hkey_eqb_eq). Qed.

Lemma hkey_eq_dec (a b : hkey) : a = b \/ a <> b.
Proof.
  destruct (hkey_eqb a b) eqn:E.
  - left. apply hkey_eqb_eq. exact E.
  - right. intros ->. rewrite hkey_eqb_refl in E. discriminate.
Qed.






(* ================================================================== *)
(** * A load that succeeds *)

Lemma dict_mem_keys {V W : Type} (d : list (hkey * V)) (d' : list (hkey * W))
    (k : hkey) :
  map fst d = map fst d' -> dict_mem hkey_eqb d k = dict_mem hkey_eqb d' k.
Proof.
  intros E.
  pose proof (dict_mem_In _ hkey_eqb_eq d k) as H.
  pose proof (dict_mem_In _ hkey_eqb_eq d' k) as H'.
  rewrite E in H.
  destruct (dict_mem hkey_eqb d k), (dict_mem hkey_eqb d' k); try reflexivity.
  - symmetry. apply H'. apply H. reflexivity.
  - apply H. apply H'. reflexivity.
Qed.

Lemma load_segments_store (recs : list json) :
  forall (l : list json) (s1 s2 : state),
    incl l recs -> store_of recs s1 ->
    load_segments l s1 = (Ok tt, s2) ->
    store_of recs s2 /\
    (forall seg, In seg l ->
       exists id, record_key seg = Ok id /\
                  dict_get hkey_eqb (SEGMENTS_BY_ID s2) id <> None) /\
    (forall id, dict_get hkey_eqb (SEGMENTS_BY_ID s1) id <> None ->
                dict_get hkey_eqb (SEGMENTS_BY_ID s2) id <> None) /\
    s2 = set_SEGMENT_DISTANCES (SEGMENT_DISTANCES s2)
           (set_SEGMENTS_BY_ID (SEGMENTS_BY_ID s2) s1).
Proof.
  induction l as [| x l IH]; intros s1 s2 Hl Hst; simpl.
  - intros [= <-]. split; [exact Hst|]. split; [intros seg []|].
    split; [auto|]. destruct s1; reflexivity.
  - unfold bind, lift, modify.
    fold (record_key x). destruct (record_key x) as [k | e |] eqn:Ek;
      simpl; try discriminate.
    fold (record_length x). destruct (record_length x) as [d | e |] eqn:Ed;
      simpl; try discriminate.
    intros Hrun.
    set (s' := set_SEGMENT_DISTANCES (dict_set hkey_eqb (SEGMENT_DISTANCES s1) k d)
                 (set_SEGMENTS_BY_ID (dict_set hkey_eqb (SEGMENTS_BY_ID s1) k x) s1))
      in *.
    assert (Hst' : store_of recs s').
    { destruct Hst as [Hkeys Hrec]. split; simpl.
      - rewrite !(dict_set_keys hkey_eqb).
        rewrite (dict_mem_keys _ _ k Hkeys), Hkeys. reflexivity.
      - intros id seg Hget. destruct (hkey_eq_dec k id) as [-> | N].
        + rewrite hget_set_same in Hget. injection Hget as <-.
          split; [apply Hl; left; reflexivity|]. split; [exact Ek|].
          exists d. split; [exact Ed | apply hget_set_same].
        + rewrite hget_set_other in Hget by exact N.
          destruct (Hrec id seg Hget) as (H1 & H2 & d0 & H3 & H4).
          split; [exact H1|]. split; [exact H2|].
          exists d0. split; [exact H3|]. rewrite hget_set_other by exact N. exact H4. }
    destruct (IH s' s2 (fun y Hy => Hl y (or_intror Hy)) Hst' Hrun)
      as (H1 & H2 & H3 & H4).
    split; [exact H1|]. split; [| split].
    + intros seg [<- | Hin]; [| apply H2; exact Hin].
      exists k. split; [exact Ek|]. apply H3. simpl.
      rewrite hget_set_same. discriminate.
    + intros id Hid. apply H3. simpl.
      destruct (hkey_eq_dec k id) as [-> | N];
        [rewrite hget_set_same; discriminate | rewrite hget_set_other by exact N; exact Hid].
    + rewrite H4 at 1. reflexivity.
Qed.

(** X4: when the body of [load_dataset] runs to its end, the store holds
    the file and nothing else: the two maps have the same ids in the same
    order, every stored record is a record of the file kept under its own
    id with the distance between its own end points as its length, every
    record of the file has its id in the store, the timestamp is the time
    of the load, and neither the configuration nor a memo table has
    changed. *)
Theorem load_dataset_replaces_store
    (data : json) (now : R) (s s' : state) :
  load_dataset_try (Ok data) now s = (Ok tt, s') ->
  load_dataset (Ok data) now s = (Ok tt, s') /\
  exists recs : list json,
    records_of data = Ok recs /\
    store_of recs s' /\
    (forall seg, In seg recs ->
       exists id, record_key seg = Ok id /\
                  dict_get hkey_eqb (SEGMENTS_BY_ID s') id <> None) /\
    DATASET_TIMESTAMP s' = now /\
    trace s' = trace s ++ [LogInfo "Dataset loaded"] /\
    RISK_CONFIG s' = RISK_CONFIG s /\
    risk_cache s' = risk_cache s /\ graph_cache s' = graph_cache s.
Proof.
  intros Hrun. split; [unfold load_dataset, try_except; rewrite Hrun; reflexivity|].
  unfold load_dataset_try, bind, lift, modify, emit in Hrun. simpl in Hrun.
  destruct (validate_dataset_schema data) as [[] | e |]; simpl in Hrun;
    try discriminate.
  fold (records_of data) in Hrun.
  destruct (records_of data) as [recs | e |]; simpl in Hrun; try discriminate.
  exists recs. split; [reflexivity|].
  destruct (load_segments recs
              (set_SEGMENT_DISTANCES [] (set_SEGMENTS_BY_ID [] s)))
    as [[[] | e |] s2] eqn:El; simpl in Hrun; try discriminate.
  injection Hrun as <-.
  destruct (load_segments_store recs recs
              (set_SEGMENT_DISTANCES [] (set_SEGMENTS_BY_ID [] s)) s2
              (fun y Hy => Hy)) as (H1 & H2 & _ & H4);
    [| exact El |].
  { split; [reflexivity | intros id seg [=]]. }
  split; [exact H1|]. split; [exact H2|]. split; [reflexivity|].
  simpl. rewrite H4. simpl. repeat split; reflexivity.
Qed.

Lemma load_dataset_replaces_store_witness :
  load_dataset (Ok one_road) 0 initial_state = (Ok tt, snd (load_dataset (Ok one_road) 0 initial_state)) /\
  exists recs : list json,
    records_of one_road = Ok recs /\
    store_of recs (snd (load_dataset (Ok one_road) 0 initial_state)) /\
    (forall seg, In seg recs ->
       exists id, record_key seg = Ok id /\
                  dict_get hkey_eqb
                    (SEGMENTS_BY_ID (snd (load_dataset (Ok one_road) 0 initial_state)))
                    id <> None) /\
    DATASET_TIMESTAMP (snd (load_dataset (Ok one_road) 0 initial_state)) = 0 /\
    trace (snd (load_dataset (Ok one_road) 0 initial_state))
      = trace initial_state ++ [LogInfo "Dataset loaded"] /\
    RISK_CONFIG (snd (load_dataset (Ok one_road) 0 initial_state))
      = RISK_CONFIG initial_state /\
    risk_cache (snd (load_dataset (Ok one_road) 0 initial_state))
      = risk_cache initial_state /\
    graph_cache (snd (load_dataset (Ok one_road) 0 initial_state))
      = graph_cache initial_state.
Proof.
  apply (load_dataset_replaces_store one_road 0 initial_state).
  unfold load_dataset_try, one_road, dataset, segment_record.
  evaluate_with ltac:(idtac; sqrt_is 1). reflexivity.
Defined.

(* ================================================================== *)
(** * What a route query leaves alone *)

Section Frame.
Variable P : state -> Prop.
Hypothesis P_trace : forall s t, P s -> P (set_trace t s).
Hypothesis P_last_clear : forall s t, P s -> P (set_LAST_CACHE_CLEAR t s).
Hypothesis P_risk_clear : forall s, P s -> P (set_risk_cache [] s).
Hypothesis P_graph_clear : forall s, P s -> P (set_graph_cache [] s).
Hypothesis P_risk_hit : forall s k v,
  P s -> dict_get risk_key_eqb (risk_cache s) k = Some v ->
  P (set_risk_cache (lru_hit risk_key_eqb (risk_cache s) k v) s).
Hypothesis P_risk_store : forall s k v,
  P s -> P (set_risk_cache (lru_store 2000 (risk_cache s) k v) s).
Hypothesis P_graph_hit : forall s k v,
  P s -> dict_get graph_key_eqb (graph_cache s) k = Some v ->
  P (set_graph_cache (lru_hit graph_key_eqb (graph_cache s) k v) s).
Hypothesis P_graph_store : forall s k v,
  P s -> P (set_graph_cache (lru_store 200 (graph_cache s) k v) s).

Lemma frame_calculate_risk (sid : hkey) (hour : Z) :
  keeps P (calculate_risk sid hour).
Proof.
  unfold calculate_risk. apply keeps_lru_cached.
  - intros s v H E. apply P_risk_hit; assumption.
  - intros s s' v H [= _ <-]. apply P_risk_store, H.
  - intros s H. exact H.
Qed.

Lemma frame_build_edges (hour : Z) (alpha : R) (items : list (hkey * json)) :
  forall G, keeps P (build_edges hour alpha G items).
Proof.
  induction items as [| [sid seg] rest IH]; intros G; simpl.
  - apply keeps_ret.
  - apply keeps_bind; [| intros G'; apply IH].
    unfold build_edge.
    apply keeps_bind; [apply keeps_lift | intros start].
    apply keeps_bind; [apply keeps_lift | intros stop].
    apply keeps_bind; [apply frame_calculate_risk | intros rsk].
    apply keeps_bind; [apply keeps_read | intros dists].
    apply keeps_bind; [apply keeps_lift | intros et].
    apply keeps_bind; [apply keeps_lift | intros g].
    apply keeps_ret.
Qed.

Lemma frame_build_graph_body (hour : Z) (alpha ts : R) :
  keeps P (build_graph_body hour alpha ts).
Proof.
  unfold build_graph_body. apply keeps_bind; [apply keeps_read|].
  intros items. apply frame_build_edges.
Qed.

Lemma frame_build_graph (hour : Z) (alpha ts : R) :
  keeps P (build_graph hour alpha ts).
Proof.
  unfold build_graph. apply keeps_lru_cached.
  - intros s v H E. apply P_graph_hit; assumption.
  - intros s s' v H E. apply P_graph_store.
    pose proof (frame_build_graph_body hour alpha ts s H) as H'.
    rewrite E in H'. exact H'.
  - apply frame_build_graph_body.
Qed.

Lemma frame_auto_clear_cache (now : R) : keeps P (auto_clear_cache now).
Proof.
  unfold auto_clear_cache, cache_clear_risk, cache_clear_graph.
  apply keeps_bind; [apply keeps_read|]. intros last.
  destruct (Rltb GRAPH_CACHE_TTL (now - last)); [| apply keeps_ret].
  apply keeps_bind; [apply keeps_modify; intros; apply P_risk_clear; assumption|].
  intros _. apply keeps_bind; [apply keeps_modify; intros; apply P_graph_clear; assumption|].
  intros _. apply keeps_bind; [apply keeps_modify; intros; apply P_last_clear; assumption|].
  intros _. apply keeps_emit. exact P_trace.
Qed.

Lemma frame_nearest_node (G : DiGraph) (p : point) : keeps P (nearest_node G p).
Proof.
  unfold nearest_node.
  apply keeps_bind; [apply keeps_lift | intros closest].
  apply keeps_bind; [apply keeps_lift | intros d].
  apply keeps_bind; [| intros _; apply keeps_ret].
  destruct (Rltb MAX_SNAP_DISTANCE d); [apply keeps_emit; exact P_trace | apply keeps_ret].
Qed.

Lemma frame_compute_route (fuel : nat) (origin destination : point)
    (hour : Z) (alpha now : R) :
  keeps P (compute_route fuel origin destination hour alpha now).
Proof.
  unfold compute_route.
  apply keeps_bind; [apply frame_auto_clear_cache | intros _].
  apply keeps_bind; [apply keeps_read | intros ts].
  apply keeps_bind; [apply frame_build_graph | intros G].
  apply keeps_bind; [apply frame_nearest_node | intros o].
  apply keeps_bind; [apply frame_nearest_node | intros t].
  destruct (negb (truthy o)); [apply keeps_ret|].
  destruct (negb (truthy t)); [apply keeps_ret|].
  apply keeps_bind.
  - apply keeps_try_except.
    + apply keeps_bind; [apply keeps_emit; exact P_trace | intros _].
      apply keeps_bind; [apply keeps_lift | intros p]. apply keeps_ret.
    + intros e. destruct e; try apply keeps_ret;
        (apply keeps_bind; [apply keeps_emit; exact P_trace | intros _; apply keeps_ret]).
  - intros [path | msg]; [| apply keeps_ret].
    destruct (List.length path =? 1)%nat; [apply keeps_ret|].
    apply keeps_bind; [apply keeps_lift | intros r; apply keeps_ret].
Qed.

(** What follows the rate limit in [get_routes]. *)
Lemma frame_get_routes (fuel : nat) (req : request) (now : R) :
  keeps P (rate_limit (remote_addr req) now) ->
  keeps P (get_routes fuel req now).
Proof.
  intros Hrate. unfold get_routes.
  apply keeps_bind; [exact Hrate | intros allowed].
  destruct (negb allowed); [apply keeps_ret|].
  destruct (get_json req) as [data | e |]; [| apply keeps_ret | apply keeps_lift].
  do 7 (apply keeps_bind; [apply keeps_lift | intros ?]).
  match goal with |- keeps _ (match ?x with _ => _ end) => destruct x as [strategy|] end;
    [| apply keeps_ret].
  repeat (match goal with
          | |- keeps _ (if ?b then _ else _) => destruct b; [apply keeps_ret|]
          end).
  do 4 (apply keeps_bind; [apply keeps_lift | intros ?]).
  apply keeps_bind; [apply frame_compute_route | intros out].
  destruct out; apply keeps_ret.
Qed.
End Frame.

(* ================================================================== *)
(** * The rate limit *)

Lemma sget_set_same {V : Type} (d : list (string * V)) (k : string) (v : V) :
  dict_get String.eqb (dict_set String.eqb d k v) k = Some v.
Proof. apply (dict_get_set_same _ String.eqb_eq). Qed.

Lemma sget_set_other {V : Type} (d : list (string * V)) (k k' : string) (v : V) :
  k <> k' ->
  dict_get String.eqb (dict_set String.eqb d k v) k' = dict_get String.eqb d k'.
Proof. apply (dict_get_set_other _ String.eqb_eq). Qed.

(** What [rate_limit] answers and records. *)
Lemma rate_limit_run (ip : string) (now : R) (s : state) :
  rate_limit ip now s =
  if (30 <=? List.length (recent_requests s ip now))%nat
  then (Ok false,
        set_REQUESTS (dict_set String.eqb (REQUESTS s) ip (recent_requests s ip now)) s)
  else (Ok true,
        set_REQUESTS
          (dict_set String.eqb (REQUESTS s) ip (recent_requests s ip now ++ [now])) s).
Proof.
  unfold rate_limit, bind, read, recent_requests, requests_of.
  destruct (30 <=? _)%nat; reflexivity.
Qed.

Lemma rate_limit_rate_ok (ip : string) (now : R) : keeps rate_ok (rate_limit ip now).
Proof.
  intros s H ip'. rewrite rate_limit_run.
  assert (Hrec : (List.length (recent_requests s ip now) <= 30)%nat).
  { unfold recent_requests.
    pose proof (filter_length_le (fun t => Rltb (now - t) 60) (requests_of s ip)).
    specialize (H ip). lia. }
  destruct (30 <=? List.length (recent_requests s ip now))%nat eqn:E;
    unfold requests_of; simpl;
    (destruct (String.eqb ip ip') eqn:Eip;
     [apply String.eqb_eq in Eip; subst ip'; rewrite sget_set_same
     | apply String.eqb_neq in Eip; rewrite sget_set_other by exact Eip;
       apply (H ip')]).
  - exact Hrec.
  - apply Nat.leb_gt in E. rewrite length_app. simpl. lia.
Qed.

Lemma load_dataset_requests (file : res json) (now : R) (s : state) :
  REQUESTS (snd (load_dataset file now s)) = REQUESTS s.
Proof.
  set (P := fun s' : state => REQUESTS s' = REQUESTS s).
  assert (Hl : forall l, keeps P (load_segments l)).
  { induction l as [| x l IH]; simpl; [apply keeps_ret|].
    apply keeps_bind; [apply keeps_lift | intros k].
    apply keeps_bind; [apply keeps_modify; intros ? H; exact H | intros _].
    apply keeps_bind; [apply keeps_lift | intros d].
    apply keeps_bind; [apply keeps_modify; intros ? H; exact H | intros _].
    exact IH. }
  assert (H : keeps P (load_dataset file now)).
  { unfold load_dataset, load_dataset_try.
    apply keeps_try_except;
      [| intros e; apply keeps_emit; intros ? ? H; exact H].
    apply keeps_bind; [apply keeps_lift | intros data].
    apply keeps_bind; [apply keeps_lift | intros _].
    apply keeps_bind; [apply keeps_modify; intros ? H; exact H | intros _].
    apply keeps_bind; [apply keeps_lift | intros l].
    apply keeps_bind; [apply Hl | intros _].
    apply keeps_bind; [apply keeps_modify; intros ? H; exact H | intros _].
    apply keeps_emit; intros ? ? H; exact H. }
  apply H. reflexivity.
Qed.

Lemma reload_data_requests (file : res json) (now : R) (s : state) :
  REQUESTS (snd (reload_data file now s)) = REQUESTS s.
Proof.
  unfold reload_data, try_except, bind.
  pose proof (load_dataset_requests file now s) as H.
  destruct (load_dataset file now s) as [[[] | e |] s1]; simpl in *; exact H.
Qed.

Lemma reachable_rate_ok (s : state) : reachable s -> rate_ok s.
Proof.
  induction 1 as [file now | s s' Hr IH Hstep].
  - assert (H : keeps rate_ok (load_dataset file now)).
    { intros s H. pose proof (load_dataset_requests file now s) as E.
      intros ip. unfold requests_of. rewrite E. apply H. }
    unfold startup. intros ip.
    apply (H initial_state). intros ip'. simpl. lia.
  - destruct Hstep as [file now s Hnd | body s | fuel req now s].
    + intros ip. unfold requests_of.
      rewrite reload_data_requests. apply IH.
    + intros ip. unfold requests_of.
      unfold config_risk, try_except, bind, lift.
      destruct body as [data | e |]; simpl; apply IH.
    + apply (frame_get_routes rate_ok);
        [intros ? ? H; exact H | intros ? ? H; exact H | intros ? H; exact H
        | intros ? H; exact H | intros ? ? ? H _; exact H | intros ? ? ? H; exact H
        | intros ? ? ? H _; exact H | intros ? ? ? H; exact H
        | apply rate_limit_rate_ok | exact IH].
Qed.

(** X5: in every reachable state no client has more than 30 timestamps on
    record: [rate_limit] drops the expired ones before it counts, and adds
    the new one only while fewer than 30 are left. *)
Theorem rate_limit_keeps_thirty (s : state) (ip : string) :
  reachable s -> (List.length (requests_of s ip) <= 30)%nat.
Proof. intros H. apply reachable_rate_ok. exact H. Qed.

Lemma rate_limit_keeps_thirty_witness :
  (List.length
     (requests_of (snd (get_routes 5 (trip (JInt 5)) 0 one_road_state)) "10.0.0.1")
   <= 30)%nat.
Proof.
  apply (rate_limit_keeps_thirty
           (snd (get_routes 5 (trip (JInt 5)) 0 one_road_state)) "10.0.0.1").
  eapply reachable_step; [apply reachable_startup | apply step_get_routes].
Defined.

(* ================================================================== *)
(** * The answers of [/get_routes] *)

Lemma route_type_of_valid (j : json) (strategy : string) :
  route_type_of j = Ok (Some strategy) -> In strategy VALID_ROUTE_TYPES.
Proof.
  unfold route_type_of. destruct (to_key j) as [[| r | t] | e |];
    cbv beta iota delta [res_bind]; try discriminate.
  destruct (existsb (String.eqb t) VALID_ROUTE_TYPES) eqn:E; [| discriminate].
  intros [= <-]. apply existsb_exists in E. destruct E as (x & Hx & Ex).
  apply String.eqb_eq in Ex. subst x. exact Hx.
Qed.

Lemma valid_hour_range (hour : json) :
  valid_hour hour = true ->
  exists z : Z, int_of hour = Some z /\ (0 <= z <= 23)%Z.
Proof.
  unfold valid_hour. destruct (int_of hour) as [z|]; [| discriminate].
  intros H. apply andb_true_iff in H. destruct H as [H1 H2].
  apply Z.leb_le in H1, H2. exists z. split; [reflexivity | lia].
Qed.

Lemma number_in_range (j : json) (lo hi : R) :
  number_in j lo hi = true -> exists x : R, num_of j = Ok x /\ lo <= x <= hi.
Proof.
  unfold number_in. destruct (num_of j) as [x | |]; try discriminate.
  intros H. apply andb_true_iff in H. destruct H as [H1 H2].
  apply Rleb_le in H1, H2. exists x. split; [reflexivity | lra].
Qed.

Lemma valid_coords_pair (c : json) :
  valid_coords c = true ->
  exists lat lon : R,
    coords_of c = Ok [lat; lon] /\ -90 <= lat <= 90 /\ -180 <= lon <= 180.
Proof.
  unfold valid_coords.
  destruct c as [| | | | | [| a [| b [| ? ?]]] |]; try discriminate.
  intros H. apply andb_true_iff in H. destruct H as [H1 H2].
  destruct (number_in_range _ _ _ H1) as (lat & Ea & Hlat).
  destruct (number_in_range _ _ _ H2) as (lon & Eb & Hlon).
  exists lat, lon. simpl. rewrite Ea, Eb. simpl. auto.
Qed.

(** The two messages [compute_route] has left for a failed search. *)
Lemma compute_route_not_found
    (fuel : nat) (origin destination : point) (hour : Z) (alpha now : R)
    (s : state) (err : string) :
  origin <> [] -> destination <> [] ->
  fst (compute_route fuel origin destination hour alpha now s) = Ok (NotFound err) ->
  err = "No route available"%string \/ err = "Routing failure"%string.
Proof.
  intros Ho Hd. unfold compute_route, bind.
  destruct (auto_clear_cache now s) as [[[] | e |] s1]; simpl; try discriminate.
  destruct (build_graph hour alpha (DATASET_TIMESTAMP s1) s1) as [[G | e |] s2];
    simpl; try discriminate.
  destruct (nearest_node G origin s2) as [[o | e |] s3] eqn:Eo; simpl;
    try discriminate.
  destruct (nearest_node G destination s3) as [[t | e |] s4] eqn:Et; simpl;
    try discriminate.
  rewrite (nearest_node_truthy _ _ _ _ _ Eo Ho).
  rewrite (nearest_node_truthy _ _ _ _ _ Et Hd). simpl.
  unfold try_except, bind, emit, modify, lift, ret.
  destruct (astar_path fuel G o t) as [path | e |]; simpl; try discriminate.
  - destruct (List.length path =? 1)%nat; simpl; [discriminate|].
    destruct (assemble G path); simpl; discriminate.
  - destruct e; simpl; intros [= <-]; auto.
Qed.

(** Every answer of [get_routes], with what the rate limit had counted. *)
Lemma get_routes_cases (fuel : nat) (req : request) (now : R) (s : state)
    (resp : response) :
  fst (get_routes fuel req now s) = Ok resp ->
  (resp = Failure 429 "Too many requests" /\
   (30 <= List.length (recent_requests s (remote_addr req) now))%nat) \/
  ((List.length (recent_requests s (remote_addr req) now) < 30)%nat /\
   ((exists m, resp = Failure 400 m /\ In m BAD_REQUEST_MESSAGES) \/
    (exists m, resp = Failure 404 m /\
               (m = "No route available"%string \/ m = "Routing failure"%string)) \/
    (exists r strategy h,
        resp = Success (Routed r strategy (time_multiplier h)) /\
        In strategy VALID_ROUTE_TYPES /\ (0 <= h <= 23)%Z))).
Proof.
  unfold get_routes, bind. rewrite rate_limit_run.
  destruct (30 <=? _)%nat eqn:Elim; simpl.
  { intros [= <-]. left. split; [reflexivity | apply Nat.leb_le; exact Elim]. }
  apply Nat.leb_gt in Elim. intros H. right. split; [exact Elim|]. revert H.
  assert (B : forall m, In m BAD_REQUEST_MESSAGES ->
                Ok (Failure 400 m) = Ok resp ->
                (exists m, resp = Failure 400 m /\ In m BAD_REQUEST_MESSAGES) \/
                (exists m, resp = Failure 404 m /\
                   (m = "No route available"%string \/ m = "Routing failure"%string)) \/
                (exists r strategy h,
                    resp = Success (Routed r strategy (time_multiplier h)) /\
                    In strategy VALID_ROUTE_TYPES /\ (0 <= h <= 23)%Z)).
  { intros m Hm [= <-]. left. exists m. split; [reflexivity | exact Hm]. }
  assert (B' : forall m (st : state), In m BAD_REQUEST_MESSAGES ->
              fst (ret (Failure 400 m) st) = Ok resp ->
              (exists m, resp = Failure 400 m /\ In m BAD_REQUEST_MESSAGES) \/
              (exists m, resp = Failure 404 m /\
                 (m = "No route available"%string \/ m = "Routing failure"%string)) \/
              (exists r strategy h,
                  resp = Success (Routed r strategy (time_multiplier h)) /\
                  In strategy VALID_ROUTE_TYPES /\ (0 <= h <= 23)%Z))
    by (intros m st Hm; apply B; exact Hm).
  destruct (get_json req) as [data | e |];
    [| first [apply B' | apply B]; simpl; tauto | discriminate].
  unfold lift.
  destruct (json_get data "origin" JNull) as [origin | e |]; simpl; try discriminate.
  destruct (json_get data "destination" JNull) as [destination | e |]; simpl;
    try discriminate.
  destruct (json_get data "hour" (JInt 22)) as [hour | e |]; simpl; try discriminate.
  destruct (json_get data "alpha" (JFloat (5 / 10))) as [alpha | e |]; simpl;
    try discriminate.
  destruct (json_get data "type" (JStr "balanced")) as [route_type | e |]; simpl;
    try discriminate.
  destruct (json_get data "speed" (JInt 30)) as [speed | e |]; simpl;
    try discriminate.
  destruct (route_type_of route_type) as [[strategy |] | e |] eqn:Ert; simpl;
    try discriminate; [| first [apply B' | apply B]; simpl; tauto].
  destruct (valid_coords origin) eqn:Vo; simpl; [| first [apply B' | apply B]; simpl; tauto].
  destruct (valid_coords destination) eqn:Vd; simpl; [| first [apply B' | apply B]; simpl; tauto].
  destruct (coords_equal origin destination); simpl; [first [apply B' | apply B]; simpl; tauto|].
  destruct (valid_hour hour) eqn:Vh; simpl; [| first [apply B' | apply B]; simpl; tauto].
  destruct (valid_alpha alpha) eqn:Va; simpl; [| first [apply B' | apply B]; simpl; tauto].
  destruct (valid_hour_range _ Vh) as (z & Ez & Hz). rewrite Ez. simpl.
  destruct (num_of alpha) as [a | e |]; simpl; try discriminate.
  destruct (valid_coords_pair _ Vo) as (x0 & y0 & Eo & _).
  destruct (valid_coords_pair _ Vd) as (x1 & y1 & Ed & _).
  rewrite Eo, Ed. simpl.
  match goal with
  | |- context [compute_route fuel ?o ?d ?h ?al now ?st] =>
      pose proof (compute_route_not_found fuel o d h al now st) as Hnf;
      destruct (compute_route fuel o d h al now st) as [[[r | err] | e |] s'];
      simpl in *; try discriminate
  end.
  - intros [= <-]. right. right. exists r, strategy, z.
    split; [reflexivity|]. split; [eapply route_type_of_valid; exact Ert | exact Hz].
  - intros [= <-]. right. left. exists err. split; [reflexivity|].
    apply Hnf; [discriminate | discriminate | reflexivity].
Qed.

(** X6: [get_routes] answers 429 exactly when the client already has 30
    requests on record that are younger than 60 seconds; it then returns
    before it reads the body: nothing is computed, logged or memoised, and
    the request itself is not put on record. *)
Theorem get_routes_too_many (fuel : nat) (req : request) (now : R) (s : state) :
  (fst (get_routes fuel req now s) = Ok (Failure 429 "Too many requests") <->
   (30 <= List.length (recent_requests s (remote_addr req) now))%nat) /\
  ((30 <= List.length (recent_requests s (remote_addr req) now))%nat ->
   snd (get_routes fuel req now s) =
     set_REQUESTS
       (dict_set String.eqb (REQUESTS s) (remote_addr req)
          (recent_requests s (remote_addr req) now)) s).
Proof.
  assert (Hrun : (30 <= List.length (recent_requests s (remote_addr req) now))%nat ->
                 get_routes fuel req now s =
                 (Ok (Failure 429 "Too many requests"),
                  set_REQUESTS
                    (dict_set String.eqb (REQUESTS s) (remote_addr req)
                       (recent_requests s (remote_addr req) now)) s)).
  { intros H. unfold get_routes, bind. rewrite rate_limit_run.
    apply Nat.leb_le in H. rewrite H. reflexivity. }
  split; [split |].
  - intros H. destruct (get_routes_cases _ _ _ _ _ H) as [[_ Hl] | [_ Hr]]; [exact Hl|].
    destruct Hr as [(m & E & _) | [(m & E & _) | (r & st & h & E & _)]]; discriminate.
  - intros H. rewrite (Hrun H). reflexivity.
  - intros H. rewrite (Hrun H). reflexivity.
Qed.

(** X7: the answers [get_routes] can give are: 429; 400 with one of seven
    messages; 404 with "No route available" or "Routing failure" -- never
    with one of the two "too far from known roads" messages, which the
    validated coordinates make unreachable; or a route together with one of
    the three strategies and the time multiplier of an hour in 0..23. *)
Theorem get_routes_answers (fuel : nat) (req : request) (now : R) (s : state)
    (resp : response) :
  fst (get_routes fuel req now s) = Ok resp ->
  resp = Failure 429 "Too many requests" \/
  (exists m, resp = Failure 400 m /\ In m BAD_REQUEST_MESSAGES) \/
  (exists m, resp = Failure 404 m /\
             (m = "No route available"%string \/ m = "Routing failure"%string)) \/
  (exists r strategy h,
      resp = Success (Routed r strategy (time_multiplier h)) /\
      In strategy VALID_ROUTE_TYPES /\ (0 <= h <= 23)%Z /\
      1 <= time_multiplier h <= 12 / 10).
Proof.
  intros H. destruct (get_routes_cases _ _ _ _ _ H) as [[E _] | [_ Hr]];
    [left; exact E | right].
  destruct Hr as [H4 | [H4 | (r & st & h & E & Hs & Hh)]]; [tauto | tauto |].
  right. right. exists r, st, h.
  split; [exact E|]. split; [exact Hs|]. split; [exact Hh|].
  apply time_multiplier_range.
Qed.

Lemma one_road_trip_answer (speed : json) :
  fst (get_routes 5 (trip speed) 0 one_road_state) =
    Ok (Success (Routed one_road_route "balanced" (time_multiplier 10))).
Proof.
  unfold get_routes, bind. rewrite rate_limit_run.
  assert (Er : recent_requests one_road_state (remote_addr (trip speed)) 0 = [])
    by reflexivity.
  rewrite Er. cbn [List.length Nat.leb negb app].
  set (s1 := set_REQUESTS _ one_road_state).
  unfold trip. cbn [get_json]. unfold lift. cbn [json_get dict_get String.eqb
    Ascii.eqb Bool.eqb].
  evaluate.
  assert (HG : exists c,
             graph_for_query 10 (1 / 2) 0 s1 =
               (Ok one_road_graph,
                set_graph_cache [(one_road_key, one_road_graph)] (set_risk_cache c s1))).
  { destruct (build_graph_miss 10 (1 / 2) 0 s1 one_road_graph) as (c & Hb & _).
    - intros k v [].
    - reflexivity.
    - exact one_road_fresh_graph.
    - exists c. unfold graph_for_query, bind.
      rewrite auto_clear_cache_recent by (unfold GRAPH_CACHE_TTL; simpl; lra).
      unfold read. simpl DATASET_TIMESTAMP. rewrite Hb. reflexivity. }
  destruct HG as (c & HG).
  change [0; 0] with near_origin. change [1; 0] with near_destination.
  rewrite (compute_route_run 5 near_origin near_destination 10 (1 / 2) 0 _ _ _ _ _ _ _
             HG (one_road_nearest_start _) (one_road_nearest_end _))
    by discriminate.
  rewrite one_road_astar. simpl. rewrite one_road_assemble. reflexivity.
Qed.

Lemma get_routes_answers_witness :
  Success (Routed one_road_route "balanced" (time_multiplier 10))
    = Failure 429 "Too many requests" \/
  (exists m, Success (Routed one_road_route "balanced" (time_multiplier 10))
             = Failure 400 m /\ In m BAD_REQUEST_MESSAGES) \/
  (exists m, Success (Routed one_road_route "balanced" (time_multiplier 10))
             = Failure 404 m /\
             (m = "No route available"%string \/ m = "Routing failure"%string)) \/
  (exists r strategy h,
      Success (Routed one_road_route "balanced" (time_multiplier 10))
        = Success (Routed r strategy (time_multiplier h)) /\
      In strategy VALID_ROUTE_TYPES /\ (0 <= h <= 23)%Z /\
      1 <= time_multiplier h <= 12 / 10).
Proof.
  apply (get_routes_answers 5 (trip (JInt 30)) 0 one_road_state).
  apply one_road_trip_answer.
Defined.

(** X8: with the type "shortest" or "safest" the value of [alpha] only has
    to pass [valid_alpha]: two requests that differ in nothing but a valid
    [alpha] get the same answer and leave the same state, since the preset
    replaces the value before the route is computed. *)
Theorem preset_overrides_alpha
    (fuel : nat) (a b : request) (o1 o2 : list (string * json))
    (now : R) (s : state) :
  same_except "alpha"%string a b o1 o2 ->
  dict_get String.eqb o1 "type"%string = Some (JStr "shortest") \/
  dict_get String.eqb o1 "type"%string = Some (JStr "safest") ->
  valid_alpha (field o1 "alpha"%string (JFloat (5 / 10))) = true ->
  valid_alpha (field o2 "alpha"%string (JFloat (5 / 10))) = true ->
  get_routes fuel a now s = get_routes fuel b now s.
Proof.
  intros (Haddr & Ha & Hb & Hsame) Htype Va Vb.
  assert (Htype2 : dict_get String.eqb o2 "type"%string = dict_get String.eqb o1 "type"%string)
    by (symmetry; apply Hsame; discriminate).
  unfold get_routes. rewrite Haddr, Ha, Hb.
  unfold bind. destruct (rate_limit (remote_addr b) now s) as [[allowed | e |] s1];
    try reflexivity.
  destruct (negb allowed); [reflexivity|].
  unfold lift, json_get. fold (field o1 "alpha"%string (JFloat (5 / 10))).
  fold (field o2 "alpha"%string (JFloat (5 / 10))).
  rewrite (Hsame "origin"%string) by discriminate.
  rewrite (Hsame "destination"%string) by discriminate.
  rewrite (Hsame "hour"%string) by discriminate.
  rewrite Htype2. rewrite Va, Vb.
  destruct (number_in_range _ _ _ Va) as (x1 & E1 & _).
  destruct (number_in_range _ _ _ Vb) as (x2 & E2 & _).
  rewrite E1, E2.
  set (origin := match dict_get String.eqb o2 "origin"%string with
                 | Some v => v | None => JNull end).
  set (destination := match dict_get String.eqb o2 "destination"%string with
                      | Some v => v | None => JNull end).
  set (hour := match dict_get String.eqb o2 "hour"%string with
               | Some v => v | None => JInt 22 end).
  destruct Htype as [-> | ->]; cbn -[compute_route valid_coords valid_hour
                                      coords_equal coords_of time_multiplier];
    reflexivity.
Qed.

Lemma preset_overrides_alpha_witness :
  let body (alpha : json) :=
    [("origin", JList [JFloat 0; JFloat 0]);
     ("destination", JList [JFloat 1; JFloat 0]);
     ("type", JStr "safest");
     ("alpha", alpha)]%string in
  get_routes 5 (mk_request "10.0.0.1" (Ok (JObj (body (JFloat 0))))) 0 one_road_state =
  get_routes 5 (mk_request "10.0.0.1" (Ok (JObj (body (JInt 1))))) 0 one_road_state.
Proof.
  cbv zeta.
  apply (preset_overrides_alpha 5 _ _
           [("origin", JList [JFloat 0; JFloat 0]);
            ("destination", JList [JFloat 1; JFloat 0]);
            ("type", JStr "safest");
            ("alpha", JFloat 0)]%string
           [("origin", JList [JFloat 0; JFloat 0]);
            ("destination", JList [JFloat 1; JFloat 0]);
            ("type", JStr "safest");
            ("alpha", JInt 1)]%string).
  - split; [reflexivity|]. split; [reflexivity|]. split; [reflexivity|].
    intros k Hk.
    change (dict_get String.eqb
              ([("origin", JList [JFloat 0; JFloat 0]);
                ("destination", JList [JFloat 1; JFloat 0]);
                ("type", JStr "safest")]%string ++ [("alpha"%string, JFloat 0)]) k =
            dict_get String.eqb
              ([("origin", JList [JFloat 0; JFloat 0]);
                ("destination", JList [JFloat 1; JFloat 0]);
                ("type", JStr "safest")]%string ++ [("alpha"%string, JInt 1)]) k).
    rewrite !dict_get_app.
    destruct (dict_get String.eqb _ k); [reflexivity|].
    unfold dict_get. destruct (String.eqb "alpha"%string k) eqn:E; [| reflexivity].
    apply String.eqb_eq in E. congruence.
  - right. reflexivity.
  - unfold valid_alpha, number_in, field. cbn. Rdecide. reflexivity.
  - unfold valid_alpha, number_in, field. cbn. Rdecide. reflexivity.
Defined.

(* ================================================================== *)
(** * A vertex is its own nearest vertex *)

Lemma sum_sq_zero (p q : point) : sum_sq p q = Ok 0 -> p = q.
Proof.
  revert q. induction p as [| x p IH]; intros [| y q]; simpl; try discriminate;
    [reflexivity|].
  destruct (sum_sq p q) as [r | |] eqn:E; simpl; try discriminate.
  intros [= H].
  assert (Hr : 0 <= r).
  { destruct (sum_sq_total p q (sum_sq_length _ _ _ E)) as (r' & E' & Hr').
    rewrite E in E'. injection E' as <-. exact Hr'. }
  pose proof (Rle_0_sqr (x - y)) as Hsq. unfold Rsqr in Hsq.
  assert (Hx : (x - y) * (x - y) = 0) by lra.
  assert (r = 0) by lra. subst r.
  rewrite (IH q E). f_equal.
  apply Rmult_integral in Hx. destruct Hx; lra.
Qed.

Lemma math_dist_zero (p q : point) : math_dist p q = Ok 0 -> p = q.
Proof.
  unfold math_dist. destruct (sum_sq p q) as [r | |] eqn:E; simpl; try discriminate.
  intros [= H]. apply sum_sq_zero. rewrite E. f_equal.
  destruct (sum_sq_total p q (sum_sq_length _ _ _ E)) as (r' & E' & Hr').
  rewrite E in E'. injection E' as <-.
  apply sqrt_eq_0; assumption.
Qed.

(** X9: a query point that is a vertex of the graph is located at itself,
    and no warning is logged, whatever the other vertices are (as long as
    they have its dimension, so that [math.dist] accepts them). *)
Theorem nearest_node_of_vertex (G : DiGraph) (n : node) (s : state) :
  In n (nodes G) ->
  (forall m, In m (nodes G) -> List.length m = List.length n) ->
  nearest_node G n s = (Ok n, s).
Proof.
  intros Hin Hdim.
  destruct (py_min_total (fun m => math_dist m n) (nodes G)) as (r & Er).
  { intros E. rewrite E in Hin. exact Hin. }
  { intros x Hx. destruct (math_dist_total x n (Hdim x Hx)) as (d & Hd & _).
    exists d. exact Hd. }
  destruct (py_min_least _ _ _ Er) as (Hr & kr & Hkr & Hleast).
  destruct (math_dist_total n n eq_refl) as (d0 & Hd0 & _).
  pose proof (math_dist_same _ _ Hd0) as E0. subst d0.
  pose proof (Hleast n 0 Hin Hd0) as Hle.
  pose proof (math_dist_nonneg _ _ _ Hkr) as Hge.
  assert (kr = 0) by lra. subst kr.
  apply math_dist_zero in Hkr. subst r.
  unfold nearest_node, bind, lift. rewrite Er, Hd0.
  rewrite Rltb_false by (unfold MAX_SNAP_DISTANCE; lra). reflexivity.
Qed.

Lemma nearest_node_of_vertex_witness :
  nearest_node one_road_graph [1; 0] initial_state = (Ok [1; 0], initial_state).
Proof.
  apply (nearest_node_of_vertex one_road_graph [1; 0] initial_state).
  - simpl. tauto.
  - intros m [<- | [<- | []]]; reflexivity.
Defined.

(* ================================================================== *)
(** * What the search returns, whatever the heuristic *)

Section SearchResult.
Variable G : DiGraph.
Variables s t : node.
Hypothesis G_nodup : forall u succs,
  dict_get point_eqb G u = Some succs -> NoDup (map fst succs).
Hypothesis G_closed : forall u v a, edge G u v = Ok a -> In v (nodes G).
Hypothesis weights_nonneg : forall u v a, edge G u v = Ok a -> 0 <= weight a.
Hypothesis source_in_G : In s (nodes G).

Local Abbreviation dget := (dict_get point_eqb).

(** The vertices met on the way back are explored and descend in rank, so
    that none is met twice. *)
Lemma walk_back_chain (xc : node -> R) (stamp : node -> nat) (st : astar_state) :
  search_inv G s t xc (fun _ => False) st ->
  chain_inv G s xc stamp st ->
  forall (fuel : nat) (v : node) (back : list node),
    dget (explored st) v <> None ->
    walk_back fuel (explored st) (Some v) = Ok back ->
    exists rest,
      back = v :: rest /\
      (forall u, In u back -> dget (explored st) u <> None) /\
      (forall u, In u rest -> rank_ltb xc stamp u v = true) /\
      NoDup back.
Proof.
  intros Hinv Hch.
  induction fuel as [| fuel IH]; intros v back Hx; simpl; [discriminate|].
  unfold dict_item. destruct (dget (explored st) v) as [[p |] |] eqn:EX; simpl;
    try contradiction.
  - destruct (parent_ranks_below G s t weights_nonneg xc stamp st v p
                Hinv Hch EX) as (Hr & _ & Hxp).
    destruct (walk_back fuel (explored st) (Some p)) as [rest | |] eqn:Er; simpl;
      try discriminate.
    intros [= <-].
    destruct (IH p rest Hxp Er) as (rest' & -> & Hall & Hrank & Hnd).
    assert (Hbelow : forall u, In u (p :: rest') -> rank_ltb xc stamp u v = true).
    { intros u [<- | Hu]; [exact Hr|].
      eapply rank_ltb_trans; [apply Hrank; exact Hu | exact Hr]. }
    exists (p :: rest'). split; [reflexivity|]. split; [| split].
    + intros u [<- | Hu]; [rewrite EX; discriminate | apply Hall; exact Hu].
    + exact Hbelow.
    + constructor; [| exact Hnd].
      intros Hin. apply Hbelow in Hin. rewrite rank_ltb_irrefl in Hin. discriminate.
  - rewrite walk_back_None. simpl. intros [= <-]. exists [].
    split; [reflexivity|]. split; [| split].
    + intros u [<- | []]. rewrite EX. discriminate.
    + intros u [].
    + repeat constructor. intros [].
Qed.

Lemma astar_loop_result :
  forall (fuel : nat) (xc : node -> R) (stamp : node -> nat) (st : astar_state)
         (p : list node),
    search_inv G s t xc (fun _ => False) st ->
    chain_inv G s xc stamp st ->
    (forall e, In e (queue st) ->
       exists q, trail G s (enqueued st) (q_node e) (q_dist e) q) ->
    astar_loop fuel G t st = Ok p ->
    walk G s t p /\ NoDup p.
Proof.
  induction fuel as [| fuel IH]; intros xc stamp st p Hinv Hch Htr; simpl;
    [discriminate|].
  destruct (heappop (queue st)) as [[m q'] |] eqn:Hpop; [| discriminate].
  pose proof (inv_counts _ _ _ _ _ _ Hinv) as Icounts.
  destruct (heappop_spec _ _ _ (proj1 Icounts) Hpop) as (Hm & Hmin & Hq' & Hnd').
  assert (Hsub : forall e, In e q' -> In e (queue st))
    by (intros e He; apply Hq' in He; tauto).
  destruct (point_eqb (q_node m) t) eqn:Et.
  - apply point_eqb_eq in Et.
    destruct (inv_entry _ _ _ _ _ _ Hinv m Hm)
      as (par & a & g' & h & Hp & Hxp & He & _).
    rewrite Hp, Et in *.
    destruct (walk_back fuel (explored st) (Some par)) as [back | |] eqn:Eb; simpl;
      try discriminate.
    intros [= <-].
    destruct (walk_back_sound G s t G_closed source_in_G xc st Hinv fuel par back
                Hxp Eb) as (Hw & c & Hc & _).
    destruct (walk_snoc G G_closed _ _ _ _ _ _ Hw He Hc) as (Hw' & _).
    destruct (walk_back_chain xc stamp st Hinv Hch fuel par back Hxp Eb)
      as (rest & _ & Hall & _ & Hnd).
    split; [exact Hw'|].
    change (rev back ++ [t]) with (rev (t :: back)). apply NoDup_rev.
    constructor; [| exact Hnd].
    intros Hin. apply (Hall t Hin). apply (inv_target _ _ _ _ _ _ Hinv).
  - apply point_eqb_neq in Et.
    destruct (skip _ (q_node m) (q_dist m)) as [[|] | |] eqn:Esk; simpl;
      try discriminate.
    + apply (IH xc stamp).
      * eapply skip_keeps; eassumption.
      * eapply chain_skip; eassumption.
      * simpl. intros e He. apply Htr. apply Hsub. exact He.
    + unfold dict_item.
      destruct (dget G (q_node m)) as [succs |] eqn:EG; simpl; [| discriminate].
      destruct (relax t (q_node m) (q_dist m) succs _) as [st3 | |] eqn:Er; simpl;
        try discriminate.
      pose proof (expand_start G s t weights_nonneg xc st m q' Hinv Hpop Et Esk) as Hrel.
      pose proof (chain_expand G s t xc stamp st m q' Hinv Hch Hpop Esk) as Hch2.
      destruct (Htr m Hm) as (pm & Hpm).
      assert (Hvs : q_node m <> s).
      { intros E. unfold skip in Esk. simpl in Esk.
        rewrite E, (proj1 (inv_source _ _ _ _ _ _ Hinv)) in Esk. discriminate. }
      destruct (relax_progress G s t G_nodup G_closed weights_nonneg _
                  (restamp stamp (q_node m) (q_count m)) _ _ pm
                  succs [] _ st3 EG Hrel) as (Hpro & _); [| exact Er |].
      { split; [exact Hch2|]. split; [| split].
        - simpl. intros e He. apply Htr. apply Hsub. exact He.
        - exact Hpm.
        - destruct Hpm as (_ & _ & _ & Hs & _). apply Hs. exact Hvs. }
      destruct Hpro as (Hch3 & Htr3 & _).
      apply (IH (upd xc (q_node m) (q_dist m))
                (restamp stamp (q_node m) (q_count m))).
      * apply (relax_done G s t _ (q_node m) (q_dist m) succs); [exact EG|].
        eapply (relax_keeps G s t G_nodup weights_nonneg _ _ _ succs []);
          [exact EG | exact Hrel | exact Er].
      * exact Hch3.
      * exact Htr3.
Qed.

(** Under [planar] the only exception left to the loop is the one of the
    empty queue. *)
Hypothesis planar : forall v, In v (nodes G) -> List.length v = List.length t.

Lemma astar_loop_raises :
  forall (fuel : nat) (xc : node -> R) (st : astar_state) (e : exn),
    search_inv G s t xc (fun _ => False) st ->
    astar_loop fuel G t st = Raise e -> e = NetworkXNoPath.
Proof.
  induction fuel as [| fuel IH]; intros xc st e Hinv; simpl; [discriminate|].
  destruct (heappop (queue st)) as [[m q'] |] eqn:Hpop; [| intros [= <-]; reflexivity].
  pose proof (inv_counts _ _ _ _ _ _ Hinv) as Icounts.
  destruct (heappop_spec _ _ _ (proj1 Icounts) Hpop) as (Hm & _).
  destruct (inv_entry _ _ _ _ _ _ Hinv m Hm)
    as (p & a & g' & h & Hp & Hxp & He & _ & HE & _).
  destruct (point_eqb (q_node m) t) eqn:Et.
  - rewrite Hp. pose proof (walk_back_no_raise G s t xc st Hinv fuel p) as Hb.
    destruct (walk_back fuel (explored st) (Some p)) as [back | e' |]; simpl;
      try discriminate.
    exfalso. exact (Hb e' Hxp eq_refl).
  - apply point_eqb_neq in Et.
    assert (Hsk : exists b, skip (mk_astar q' (counter st) (enqueued st) (explored st))
                              (q_node m) (q_dist m) = Ok b).
    { unfold skip, dict_item. simpl.
      destruct (dget (explored st) (q_node m)) as [[p0 |] |];
        [rewrite HE | |]; eexists; reflexivity. }
    destruct Hsk as ([|] & Esk); rewrite Esk; simpl.
    + apply (IH xc). eapply skip_keeps; eassumption.
    + unfold dict_item.
      assert (Hin : In (q_node m) (nodes G)) by (eapply G_closed; exact He).
      apply nodes_defined in Hin.
      destruct (dget G (q_node m)) as [succs |] eqn:EG; [| contradiction]. simpl.
      pose proof (relax_no_raise t (q_node m) (q_dist m) succs
                    (mk_astar q' (counter st) (enqueued st)
                       (dict_set point_eqb (explored st) (q_node m) (q_parent m))))
        as Hrel.
      destruct (relax t (q_node m) (q_dist m) succs _) as [st3 | e' |] eqn:Er;
        simpl; try discriminate.
      * apply (IH (upd xc (q_node m) (q_dist m))).
        apply (relax_done G s t _ (q_node m) (q_dist m) succs); [exact EG|].
        eapply (relax_keeps G s t G_nodup weights_nonneg _ _ _ succs []);
          [exact EG | | exact Er].
        apply expand_start; assumption.
      * exfalso. apply (Hrel e'); [| reflexivity].
        intros u a0 Hu. apply planar. eapply G_closed.
        eapply edge_of_successor; [exact G_nodup | exact EG | exact Hu].
Qed.
End SearchResult.

Lemma astar_path_result (G : DiGraph) (s t : node) (fuel : nat)
    (p : list node) :
  well_formed G ->
  (forall u v a, edge G u v = Ok a -> 0 <= weight a) ->
  astar_path fuel G s t = Ok p ->
  walk G s t p /\ NoDup p.
Proof.
  intros [Hnd Hcl] Hpos. unfold astar_path.
  destruct (has_node G s) eqn:Hs; simpl; [| discriminate].
  destruct (has_node G t) eqn:Ht; simpl; [| discriminate].
  apply has_node_In in Hs.
  destruct fuel as [| fuel]; simpl; [discriminate|].
  destruct (point_eqb s t) eqn:Est.
  - apply point_eqb_eq in Est. subst t. rewrite walk_back_None. simpl.
    intros [= <-]. split; [apply walk_end; exact Hs|].
    repeat constructor. intros [].
  - apply point_eqb_neq in Est. unfold dict_item.
    destruct (dict_get point_eqb G s) as [succs |] eqn:EG; simpl; [| discriminate].
    destruct (relax t s 0 succs _) as [st3 | |] eqn:Er; simpl; try discriminate.
    pose proof (first_expansion G s t Est) as Hrel.
    destruct (relax_progress G s t Hnd Hcl Hpos (fun _ => 0) (fun _ => 0%nat) s 0 [s]
                succs [] _ st3 EG Hrel (first_progress G s Hs) Er)
      as ((Hch & Htr & _) & _).
    apply (astar_loop_result G s t Hnd Hcl Hpos Hs fuel (fun _ => 0) (fun _ => 0%nat)).
    + apply (relax_done G s t (fun _ => 0) s 0 succs); [exact EG|].
      eapply (relax_keeps G s t Hnd Hpos (fun _ => 0) s 0 succs []);
        [exact EG | exact Hrel | exact Er].
    + exact Hch.
    + exact Htr.
Qed.

(** X10: whatever the heuristic is worth, a path the search returns is a
    path of the graph: it starts at the source, ends at the target, follows
    an edge at every step, and visits no vertex twice. *)
Theorem astar_path_simple_walk (G : DiGraph) (s t : node) (fuel : nat)
    (p : list node) :
  well_formed G ->
  (forall u v a, edge G u v = Ok a -> 0 <= weight a) ->
  astar_path fuel G s t = Ok p ->
  walk G s t p /\ NoDup p /\ hd_error p = Some s /\ last p t = t.
Proof.
  intros Hwf Hpos Hp.
  destruct (astar_path_result G s t fuel p Hwf Hpos Hp) as [Hw Hnd].
  split; [exact Hw|]. split; [exact Hnd|]. split.
  - destruct (walk_head _ _ _ _ Hw) as (q & ->). reflexivity.
  - destruct (walk_last _ _ _ _ Hw) as (q & ->). apply last_last.
Qed.

Lemma astar_path_simple_walk_witness :
  walk detour_safest_graph [0; 0] [1; 0] direct_path /\ NoDup direct_path /\
  hd_error direct_path = Some [0; 0] /\ last direct_path [1; 0] = [1; 0].
Proof.
  apply (astar_path_simple_walk detour_safest_graph [0; 0] [1; 0] 5 direct_path).
  - apply (built_graph_well_formed detour_state 10 0 0).
    + apply reachable_startup.
    + rewrite (proj1 (build_graph_body_fresh 10 0 0 detour_state
                        (reachable_risk_memo_ok _ (reachable_startup _ _)))).
      exact detour_fresh_safest.
  - intros u v a He.
    rewrite edge_unfold in He. unfold detour_safest_graph in He.
    cbn [dict_get] in He.
    repeat match type of He with
           | context [point_eqb ?x ?y] =>
               destruct (point_eqb x y); cbn [dict_get] in He
           end;
      try discriminate; injection He as <-; simpl; lra.
  - exact (detour_astar_safest 2).
Defined.

Lemma astar_path_raises (G : DiGraph) (s t : node) (fuel : nat) (e : exn) :
  well_formed G ->
  (forall u v a, edge G u v = Ok a -> 0 <= weight a) ->
  (forall v, In v (nodes G) -> List.length v = List.length t) ->
  In s (nodes G) -> In t (nodes G) ->
  astar_path fuel G s t = Raise e -> e = NetworkXNoPath.
Proof.
  intros [Hnd Hcl] Hpos Hdim Hs Ht. unfold astar_path.
  rewrite (proj2 (has_node_In G s) Hs), (proj2 (has_node_In G t) Ht). simpl.
  destruct fuel as [| fuel]; simpl; [discriminate|].
  destruct (point_eqb s t) eqn:Est.
  - rewrite walk_back_None. simpl. discriminate.
  - apply point_eqb_neq in Est. unfold dict_item.
    pose proof Hs as Hs'. apply nodes_defined in Hs'.
    destruct (dict_get point_eqb G s) as [succs |] eqn:EG; [| contradiction]. simpl.
    pose proof (relax_no_raise t s 0 succs (mk_astar [] 1 [] [(s, None)])) as Hrel.
    destruct (relax t s 0 succs _) as [st3 | e' |] eqn:Er; simpl; try discriminate.
    + apply (astar_loop_raises G s t Hnd Hcl Hpos Hdim fuel (fun _ => 0)).
      apply (relax_done G s t (fun _ => 0) s 0 succs); [exact EG|].
      eapply (relax_keeps G s t Hnd Hpos (fun _ => 0) s 0 succs []);
        [exact EG | | exact Er].
      apply first_expansion. exact Est.
    + exfalso. apply (Hrel e'); [| reflexivity].
      intros u a Hu. apply Hdim. eapply Hcl.
      eapply edge_of_successor; [exact Hnd | exact EG | exact Hu].
Qed.

(** X11: between two vertices of a graph without negative weights, whose
    vertices have one dimension, the search with enough fuel raises
    [NetworkXNoPath] exactly when no path leads from the source to the
    target; it raises nothing else. *)
Theorem astar_path_no_path (G : DiGraph) (s t : node) (fuel : nat) :
  well_formed G ->
  (forall u v a, edge G u v = Ok a -> 0 <= weight a) ->
  (forall v, In v (nodes G) -> List.length v = List.length t) ->
  In s (nodes G) -> In t (nodes G) ->
  (enough_fuel G s <= fuel)%nat ->
  (astar_path fuel G s t = Raise NetworkXNoPath <->
   ~ exists q, walk G s t q) /\
  (forall e, astar_path fuel G s t = Raise e -> e = NetworkXNoPath).
Proof.
  intros Hwf Hpos Hdim Hs Ht Hfuel.
  split; [split |].
  - intros Hr (q & Hq).
    exact (astar_path_no_raise G s t q fuel _ Hwf Hpos Hdim Hq Hr).
  - intros Hno.
    pose proof (astar_path_finishes G s t fuel Hwf Hpos Hfuel) as Hfin.
    destruct (astar_path fuel G s t) as [p | e |] eqn:E.
    + exfalso. apply Hno. exists p.
      exact (proj1 (astar_path_result G s t fuel p Hwf Hpos E)).
    + rewrite (astar_path_raises G s t fuel e Hwf Hpos Hdim Hs Ht E). reflexivity.
    + contradiction.
  - intros e. apply astar_path_raises; assumption.
Qed.

Lemma astar_path_no_path_witness :
  (astar_path (enough_fuel one_road_shortest_graph [1; 0])
     one_road_shortest_graph [1; 0] [0; 0] = Raise NetworkXNoPath <->
   ~ exists q, walk one_road_shortest_graph [1; 0] [0; 0] q) /\
  (forall e,
      astar_path (enough_fuel one_road_shortest_graph [1; 0])
        one_road_shortest_graph [1; 0] [0; 0] = Raise e ->
      e = NetworkXNoPath).
Proof.
  apply (astar_path_no_path one_road_shortest_graph [1; 0] [0; 0]
           (enough_fuel one_road_shortest_graph [1; 0])).
  - apply (built_graph_well_formed one_road_state 10 1 0).
    + apply reachable_startup.
    + rewrite (proj1 (build_graph_body_fresh 10 1 0 one_road_state
                        (reachable_risk_memo_ok _ (reachable_startup _ _)))).
      exact one_road_fresh_shortest.
  - intros u v a He. destruct (one_road_shortest_edges _ _ _ He) as (_ & _ & Ha).
    rewrite edge_unfold in He. unfold one_road_shortest_graph in He.
    cbn [dict_get] in He.
    repeat match type of He with
           | context [point_eqb ?x ?y] =>
               destruct (point_eqb x y); cbn [dict_get] in He
           end;
      try discriminate; injection He as <-; simpl; lra.
  - intros v [<- | [<- | []]]; reflexivity.
  - simpl. tauto.
  - simpl. tauto.
  - apply le_n.
Defined.

(* ================================================================== *)
(** * The route assembled from a path *)





(* ================================================================== *)
(** * An update of the risk configuration *)

Lemma dict_update_lookup (data cfg : list (string * json)) (k : string) :
  dict_get String.eqb (dict_update cfg data) k =
  match dict_get String.eqb (rev data) k with
  | Some v => Some v
  | None => dict_get String.eqb cfg k
  end.
Proof.
  revert cfg. induction data as [| [k0 v0] rest IH]; intros cfg; [reflexivity|].
  cbn [dict_update rev]. rewrite IH, dict_get_app.
  destruct (dict_get String.eqb (rev rest) k); [reflexivity|].
  cbn [dict_get]. destruct (String.eqb k0 k) eqn:E.
  - apply String.eqb_eq in E. subst k0. apply sget_set_same.
  - apply String.eqb_neq in E. apply sget_set_other. exact E.
Qed.

(** X13: [config_risk] stores whatever JSON object it is sent, unchecked:
    afterwards every key of the payload maps to the last value the payload
    gives it and every other key keeps its value; the memo of
    [calculate_risk] is empty, so that the next score is computed under the
    new configuration; nothing else changes.  A body that cannot be read is
    answered with 400 and changes nothing. *)
Theorem config_risk_updates
    (data : list (string * json)) (e : exn) (s : state)
    (k : string) (sid : hkey) (hour : Z) :
  let s' := snd (config_risk (Ok data) s) in
  fst (config_risk (Ok data) s) = Ok (Success (Message "Risk config updated")) /\
  dict_get String.eqb (RISK_CONFIG s') k =
    match dict_get String.eqb (rev data) k with
    | Some v => Some v
    | None => dict_get String.eqb (RISK_CONFIG s) k
    end /\
  s' = set_risk_cache [] (set_RISK_CONFIG (RISK_CONFIG s') s) /\
  fst (calculate_risk sid hour s') =
    calculate_risk_body (RISK_CONFIG s') (SEGMENTS_BY_ID s) sid hour /\
  config_risk (Raise e) s = (Ok (Failure 400 "Invalid config payload"), s).
Proof.
  cbv zeta. unfold config_risk, try_except, bind, lift, modify, cache_clear_risk.
  cbn [fst snd RISK_CONFIG set_risk_cache set_RISK_CONFIG].
  split; [reflexivity|]. split; [apply dict_update_lookup|].
  split; [reflexivity|]. split; [| reflexivity].
  unfold calculate_risk, lru_cached. cbn.
  destruct (calculate_risk_body _ _ sid hour); reflexivity.
Qed.

(* ================================================================== *)
(** * When the graph is built anew *)

Lemma auto_clear_cache_expired (now : R) (s : state) :
  GRAPH_CACHE_TTL < now - LAST_CACHE_CLEAR s ->
  auto_clear_cache now s =
  (Ok tt,
   set_trace (trace s ++ [LogInfo "Caches auto-cleared"])
     (set_LAST_CACHE_CLEAR now (set_graph_cache [] (set_risk_cache [] s)))).
Proof.
  intros H. unfold auto_clear_cache, bind, read. cbv beta.
  rewrite Rltb_true by exact H. reflexivity.
Qed.

Lemma build_graph_empty_memo (hour : Z) (alpha : R) (s : state) :
  risk_memo_ok s -> graph_cache s = [] ->
  fst (build_graph hour alpha (DATASET_TIMESTAMP s) s) = fresh_graph s hour alpha.
Proof.
  intros Hok Hg. unfold build_graph, lru_cached. rewrite Hg. cbn [dict_get].
  destruct (build_graph_body_fresh hour alpha (DATASET_TIMESTAMP s) s Hok)
    as (Hv & _).
  destruct (build_graph_body hour alpha (DATASET_TIMESTAMP s) s) as [[G | e |] s1];
    simpl in *; exact Hv.
Qed.

Lemma graph_for_query_fresh (hour : Z) (alpha now : R) (s : state) :
  risk_memo_ok s ->
  graph_cache s = [] \/ GRAPH_CACHE_TTL < now - LAST_CACHE_CLEAR s ->
  fst (graph_for_query hour alpha now s) = fresh_graph s hour alpha.
Proof.
  intros Hok Hc.
  destruct (Rlt_le_dec GRAPH_CACHE_TTL (now - LAST_CACHE_CLEAR s)) as [H | H].
  - unfold graph_for_query, bind at 1. rewrite (auto_clear_cache_expired now s H).
    unfold bind, read.
    match goal with
    | |- fst (build_graph _ _ _ ?s0) = _ =>
        change (fst (build_graph hour alpha (DATASET_TIMESTAMP s0) s0) =
                fresh_graph s0 hour alpha);
        apply (build_graph_empty_memo hour alpha s0); [intros k v [] | reflexivity]
    end.
  - destruct Hc as [Hg | Hlt]; [| lra].
    unfold graph_for_query, bind at 1. rewrite (auto_clear_cache_recent now s H).
    unfold bind, read. apply build_graph_empty_memo; assumption.
Qed.

(** X14: when more than 300 seconds have passed since the last clearing,
    [auto_clear_cache] empties both memo tables and restarts the clock, and
    the graph of the query is built from the store and the configuration as
    they are now; until then it does nothing at all. *)
Theorem auto_clear_cache_expiry (hour : Z) (alpha now : R) (s : state) :
  (GRAPH_CACHE_TTL < now - LAST_CACHE_CLEAR s ->
   risk_cache (snd (auto_clear_cache now s)) = [] /\
   graph_cache (snd (auto_clear_cache now s)) = [] /\
   LAST_CACHE_CLEAR (snd (auto_clear_cache now s)) = now /\
   fst (graph_for_query hour alpha now s) = fresh_graph s hour alpha) /\
  (now - LAST_CACHE_CLEAR s <= GRAPH_CACHE_TTL ->
   auto_clear_cache now s = (Ok tt, s)).
Proof.
  split.
  - intros H. rewrite (auto_clear_cache_expired now s H).
    repeat split.
    unfold graph_for_query, bind at 1. rewrite (auto_clear_cache_expired now s H).
    unfold bind, read.
    match goal with
    | |- fst (build_graph _ _ _ ?s0) = _ =>
        change (fst (build_graph hour alpha (DATASET_TIMESTAMP s0) s0) =
                fresh_graph s0 hour alpha);
        apply (build_graph_empty_memo hour alpha s0); [intros k v [] | reflexivity]
    end.
  - apply auto_clear_cache_recent.
Qed.

(** X15: after a reload, whatever the file held, the graph of the next
    query is built from the store as the reload left it: both memo tables
    are empty. *)
Theorem reload_data_then_fresh
    (file : res json) (now : R) (s : state) (hour : Z) (alpha now' : R) :
  fst (reload_data file now s) <> Diverge ->
  fst (graph_for_query hour alpha now' (snd (reload_data file now s))) =
    fresh_graph (snd (reload_data file now s)) hour alpha.
Proof.
  intros H. destruct (reload_data_clears_caches file now s H) as [Hr Hg].
  apply graph_for_query_fresh; [| left; exact Hg].
  intros k v Hin. rewrite Hr in Hin. destruct Hin.
Qed.

Lemma reload_data_then_fresh_witness :
  fst (graph_for_query 10 (1 / 2) 5
         (snd (reload_data (Ok one_road) 1 parallel_roads_state))) =
    fresh_graph (snd (reload_data (Ok one_road) 1 parallel_roads_state)) 10 (1 / 2).
Proof.
  apply (reload_data_then_fresh (Ok one_road) 1 parallel_roads_state 10 (1 / 2) 5).
  assert (E : fst (load_dataset_try (Ok one_road) 1 parallel_roads_state) = Ok tt).
  { generalize parallel_roads_state. intros s.
    unfold load_dataset_try, one_road, dataset, segment_record.
    evaluate_with ltac:(idtac; sqrt_is 1). reflexivity. }
  unfold reload_data, try_except, bind, load_dataset, try_except.
  destruct (load_dataset_try (Ok one_road) 1 parallel_roads_state) as [[[] | e |] s1];
    simpl in *; discriminate.
Defined.

(* ================================================================== *)
(** * The memo tables stay within their size *)

Lemma lru_hit_length {K V : Type} (eqb : K -> K -> bool) (c : list (K * V))
    (k : K) (v : V) :
  dict_get eqb c k = Some v ->
  (List.length (lru_hit eqb c k v) <= List.length c)%nat.
Proof.
  unfold lru_hit, lru_drop. simpl.
  induction c as [| [k0 v0] c IH]; simpl; [discriminate|].
  destruct (eqb k0 k) eqn:E; simpl.
  - intros _. pose proof (filter_length_le (fun kv => negb (eqb (fst kv) k)) c). lia.
  - intros H. specialize (IH H). lia.
Qed.

Lemma lru_store_length {K V : Type} (n : nat) (c : list (K * V)) (k : K) (v : V) :
  (List.length (lru_store n c k v) <= n)%nat.
Proof. unfold lru_store. rewrite length_firstn. lia. Qed.

Lemma reachable_memo_sizes (s : state) : reachable s -> memo_sizes_ok s.
Proof.
  induction 1 as [file now | s s' Hr IH Hstep].
  - unfold startup, memo_sizes_ok.
    destruct (load_dataset_caches file now initial_state) as [E1 E2].
    cbn [risk_cache graph_cache set_LAST_CACHE_CLEAR]. rewrite E1, E2. simpl. lia.
  - destruct Hstep as [file now s Hnd | body s | fuel req now s].
    + destruct (reload_data_clears_caches file now s Hnd) as [E1 E2].
      unfold memo_sizes_ok. rewrite E1, E2. simpl. lia.
    + unfold memo_sizes_ok. rewrite config_risk_keeps_graph_cache.
      split; [| apply IH].
      unfold config_risk, try_except, bind, lift.
      destruct body as [data | e |]; simpl; try apply IH. lia.
    + apply (frame_get_routes memo_sizes_ok);
        [intros ? ? H; exact H | intros ? ? H; exact H
        | intros ? [_ H]; split; [simpl; lia | exact H]
        | intros ? [H _]; split; [exact H | simpl; lia]
        | intros s0 k v [H1 H2] E; split; [| exact H2];
          cbn [risk_cache set_risk_cache];
          pose proof (lru_hit_length risk_key_eqb _ k v E); lia
        | intros s0 k v [H1 H2]; split; [| exact H2];
          cbn [risk_cache set_risk_cache]; apply lru_store_length
        | intros s0 k v [H1 H2] E; split; [exact H1|];
          cbn [graph_cache set_graph_cache];
          pose proof (lru_hit_length graph_key_eqb _ k v E); lia
        | intros s0 k v [H1 H2]; split; [exact H1|];
          cbn [graph_cache set_graph_cache]; apply lru_store_length
        | | exact IH].
      unfold rate_limit. apply keeps_bind; [apply keeps_read | intros reqs].
      destruct (30 <=? _)%nat;
        (apply keeps_bind;
         [apply keeps_modify; intros ? H; exact H | intros _; apply keeps_ret]).
Qed.

(** X16: in every reachable state the memo of [calculate_risk] holds at
    most 2000 entries and the memo of [build_graph] at most 200, the sizes
    the two [lru_cache] decorators give. *)
Theorem memo_tables_bounded (s : state) :
  reachable s ->
  (List.length (risk_cache s) <= 2000)%nat /\
  (List.length (graph_cache s) <= 200)%nat.
Proof. intros H. exact (reachable_memo_sizes s H). Qed.

Lemma memo_tables_bounded_witness :
  (List.length
     (risk_cache (snd (get_routes 5 (trip (JInt 5)) 0 one_road_state))) <= 2000)%nat /\
  (List.length
     (graph_cache (snd (get_routes 5 (trip (JInt 5)) 0 one_road_state))) <= 200)%nat.
Proof.
  apply (memo_tables_bounded (snd (get_routes 5 (trip (JInt 5)) 0 one_road_state))).
  eapply reachable_step; [apply reachable_startup | apply step_get_routes].
Defined.

(* ================================================================== *)
(** * What the schema check lets through *)

Lemma all_in_true (ks : list string) (seg : json) :
  all_in ks seg = Ok true <-> forall k, In k ks -> contains k seg = Ok true.
Proof.
  induction ks as [| k ks IH]; simpl.
  - split; [intros _ k [] | reflexivity].
  - destruct (contains k seg) as [[|] | e |] eqn:E; simpl.
    + rewrite IH. split.
      * intros H k' [<- | Hk]; [exact E | apply H; exact Hk].
      * intros H k' Hk. apply H. right. exact Hk.
    + split; [discriminate|]. intros H.
      specialize (H k (or_introl eq_refl)). congruence.
    + split; [discriminate|]. intros H.
      specialize (H k (or_introl eq_refl)). congruence.
    + split; [discriminate|]. intros H.
      specialize (H k (or_introl eq_refl)). congruence.
Qed.

Lemma validate_segments_ok (l : list json) :
  validate_segments l = Ok tt <->
  forall seg, In seg l -> all_in REQUIRED_FIELDS seg = Ok true.
Proof.
  induction l as [| x l IH]; cbn [validate_segments].
  - split; [intros _ seg [] | reflexivity].
  - destruct (all_in REQUIRED_FIELDS x) as [[|] | e |] eqn:E;
      cbv beta iota delta [res_bind].
    + rewrite IH. split.
      * intros H seg [<- | Hs]; [exact E | apply H; exact Hs].
      * intros H seg Hs. apply H. right. exact Hs.
    + split; [discriminate|]. intros H.
      specialize (H x (or_introl eq_refl)). congruence.
    + split; [discriminate|]. intros H.
      specialize (H x (or_introl eq_refl)). congruence.
    + split; [discriminate|]. intros H.
      specialize (H x (or_introl eq_refl)). congruence.
Qed.

(** X17: [validate_dataset_schema] passes exactly when [data["segments"]]
    can be iterated and each of the six field names is [in] every record --
    a key when the record is an object, but also an element when it is a
    list and a substring when it is a string: the check does not ask that a
    record be an object. *)
Theorem validate_dataset_schema_accepts (data : json) :
  validate_dataset_schema data = Ok tt <->
  exists recs : list json,
    records_of data = Ok recs /\
    forall seg k, In seg recs -> In k REQUIRED_FIELDS -> contains k seg = Ok true.
Proof.
  assert (E : validate_dataset_schema data =
              (let? l := records_of data in validate_segments l)).
  { unfold validate_dataset_schema, records_of, res_bind.
    destruct (getitem data "segments"); reflexivity. }
  rewrite E. unfold res_bind.
  destruct (records_of data) as [recs | e |].
  - rewrite validate_segments_ok. split.
    + intros H. exists recs. split; [reflexivity|].
      intros seg k Hs. apply (proj1 (all_in_true _ _) (H seg Hs)).
    + intros (recs' & [= <-] & H) seg Hs. apply all_in_true. intros k. apply H, Hs.
  - split; [discriminate | intros (recs & [=] & _)].
  - split; [discriminate | intros (recs & [=] & _)].
Qed.
